(** * The TCG optimizer: constant folding and copy propagation

    A shallow embedding of the optimisation pass of the Tiny Code
    Generator ([tcg_optimize] and the functions it calls) together with
    the properties its specification states about it.

    Conventions of the embedding.
    - A [TCGArg] ([tcg_target_ulong]) is a [Z]; the host word size
      [TCG_TARGET_REG_BITS] is a variable of the development, and every
      arithmetic result is reduced modulo [2 ^ TCG_TARGET_REG_BITS] where
      the C code converts it to [TCGArg].
    - The global arrays [temps], [gen_opc_buf] and the argument buffer are
      total functions from indices; [args] and [gen_args] are offsets into
      the one argument buffer (the source starts with [gen_args = args]).
    - A function of the source that can call [tcg_abort], fail an
      [assert], run into behaviour the C standard leaves undefined or loop
      for ever returns a [result].

    Two smaller pieces follow the optimizer: [flush_icache_range] of the
    SPARC back end, and the submission and completion of asynchronous
    requests of block/win32-aio.c. *)

From Stdlib Require Import ZArith Lia List Bool.
Import ListNotations.
Local Open Scope Z_scope.

(** ** Results of fallible code *)

Inductive error : Type :=
| tcg_abort            (* the source called tcg_abort() *)
| assert_failed        (* an assert() of the source does not hold *)
| undefined_behaviour  (* e.g. a shift by at least the width of its type *)
| no_termination.      (* a ring walk that never comes back *)

Inductive result (A : Type) : Type :=
| Ok (a : A)
| Err (e : error).
Arguments Ok {A} a.
Arguments Err {A} e.

Definition bind {A B : Type} (r : result A) (k : A -> result B) : result B :=
  match r with
  | Ok a => k a
  | Err e => Err e
  end.

Notation "x <- r ;; k" := (bind r (fun x => k))
  (at level 61, r at next level, right associativity).

(** ** C integer conversions and shifts *)

(** [(uintN_t)x] *)
Definition to_uint (n x : Z) : Z := x mod 2 ^ n.

(** [(intN_t)x], as a mathematical integer *)
Definition to_int (n x : Z) : Z :=
  let u := x mod 2 ^ n in
  if u <? 2 ^ (n - 1) then u else u - 2 ^ n.

(** [x << c] and [x >> c] on an unsigned type of [n] bits: undefined when
    the count is negative or at least [n]. *)
Definition c_shl (n x c : Z) : result Z :=
  if (0 <=? c) && (c <? n) then Ok (Z.shiftl x c mod 2 ^ n)
  else Err undefined_behaviour.

Definition c_shr (n x c : Z) : result Z :=
  if (0 <=? c) && (c <? n) then Ok (Z.shiftr x c)
  else Err undefined_behaviour.

(** [x >> c] on a signed type of [n] bits (arithmetic shift). *)
Definition c_sar (n x c : Z) : result Z :=
  if (0 <=? c) && (c <? n) then Ok (Z.shiftr x c)
  else Err undefined_behaviour.

(** ** Opcodes *)

(** The two operand widths; [CASE_OP_32_64(x)] of the source names the
    opcodes [INDEX_op_x_i32] and [INDEX_op_x_i64], here [INDEX_op_x w]. *)
Inductive TCGType : Type := TCG_TYPE_I32 | TCG_TYPE_I64.

Inductive TCGOpcode : Type :=
| INDEX_op_nop
| INDEX_op_call
| INDEX_op_br
| INDEX_op_mov (w : TCGType)
| INDEX_op_movi (w : TCGType)
| INDEX_op_add (w : TCGType)
| INDEX_op_sub (w : TCGType)
| INDEX_op_mul (w : TCGType)
| INDEX_op_and (w : TCGType)
| INDEX_op_or (w : TCGType)
| INDEX_op_xor (w : TCGType)
| INDEX_op_shl (w : TCGType)
| INDEX_op_shr (w : TCGType)
| INDEX_op_sar (w : TCGType)
| INDEX_op_rotl (w : TCGType)
| INDEX_op_rotr (w : TCGType)
| INDEX_op_not (w : TCGType)
| INDEX_op_neg (w : TCGType)
| INDEX_op_andc (w : TCGType)
| INDEX_op_orc (w : TCGType)
| INDEX_op_eqv (w : TCGType)
| INDEX_op_nand (w : TCGType)
| INDEX_op_nor (w : TCGType)
| INDEX_op_ext8s (w : TCGType)
| INDEX_op_ext16s (w : TCGType)
| INDEX_op_ext8u (w : TCGType)
| INDEX_op_ext16u (w : TCGType)
| INDEX_op_ext32s_i64
| INDEX_op_ext32u_i64
| INDEX_op_deposit (w : TCGType)
| INDEX_op_setcond (w : TCGType)
| INDEX_op_brcond (w : TCGType)
| INDEX_op_movcond (w : TCGType)
| INDEX_op_add2_i32
| INDEX_op_sub2_i32
| INDEX_op_mulu2_i32
| INDEX_op_brcond2_i32
| INDEX_op_setcond2_i32
| INDEX_op_other (n : nat).   (* any opcode the pass does not name *)

Abbreviation INDEX_op_mov_i32 := (INDEX_op_mov TCG_TYPE_I32).
Abbreviation INDEX_op_mov_i64 := (INDEX_op_mov TCG_TYPE_I64).
Abbreviation INDEX_op_movi_i32 := (INDEX_op_movi TCG_TYPE_I32).
Abbreviation INDEX_op_movi_i64 := (INDEX_op_movi TCG_TYPE_I64).
Abbreviation INDEX_op_brcond_i32 := (INDEX_op_brcond TCG_TYPE_I32).
Abbreviation INDEX_op_setcond_i32 := (INDEX_op_setcond TCG_TYPE_I32).
Abbreviation INDEX_op_and_i32 := (INDEX_op_and TCG_TYPE_I32).

Definition TCGArg : Type := Z.

(** Modelled from the spec: the opcode metadata of section 4.A ([TCGOpDef]
    and the flag bits are declared in tcg.h, which is not among the
    sources): the arity split, the total argument count and the flags. *)
Record TCGOpDef : Type := {
  flags : Z;
  nb_oargs : nat;
  nb_iargs : nat;
  nb_cargs : nat;
  nb_args : nat
}.

(** Modelled from the spec: the flag bits a definition can carry; only
    their being distinct single bits matters. *)
Definition TCG_OPF_BB_END : Z := 1.
Definition TCG_OPF_64BIT : Z := 8.

(** Modelled from the spec: the two call flags of section 4.E, phase 5. *)
Definition TCG_CALL_NO_READ_GLOBALS : Z := 16.
Definition TCG_CALL_NO_WRITE_GLOBALS : Z := 32.

(** Modelled from the spec: the comparison predicates of section 4.D
    ([TCGCond], [tcg_swap_cond] and [tcg_invert_cond] are declared in
    tcg.h).  An argument slot holds a predicate as a number; the numbering
    is the order in which the spec lists them, and any other number is no
    predicate (the [default:] of the source's switches). *)
Inductive TCGCond : Type :=
| TCG_COND_EQ | TCG_COND_NE
| TCG_COND_LT | TCG_COND_GE | TCG_COND_LE | TCG_COND_GT
| TCG_COND_LTU | TCG_COND_GEU | TCG_COND_LEU | TCG_COND_GTU.

Definition arg_of_cond (c : TCGCond) : TCGArg :=
  match c with
  | TCG_COND_EQ => 0 | TCG_COND_NE => 1
  | TCG_COND_LT => 2 | TCG_COND_GE => 3 | TCG_COND_LE => 4 | TCG_COND_GT => 5
  | TCG_COND_LTU => 6 | TCG_COND_GEU => 7 | TCG_COND_LEU => 8 | TCG_COND_GTU => 9
  end.

Definition cond_of_arg (a : TCGArg) : option TCGCond :=
  match a with
  | 0 => Some TCG_COND_EQ | 1 => Some TCG_COND_NE
  | 2 => Some TCG_COND_LT | 3 => Some TCG_COND_GE
  | 4 => Some TCG_COND_LE | 5 => Some TCG_COND_GT
  | 6 => Some TCG_COND_LTU | 7 => Some TCG_COND_GEU
  | 8 => Some TCG_COND_LEU | 9 => Some TCG_COND_GTU
  | _ => None
  end.

(** Modelled from the spec: exchanging the operands of a comparison
    ([LT] and [GT], [LE] and [GE], also unsigned; [EQ], [NE] unchanged). *)
Definition swap_cond (c : TCGCond) : TCGCond :=
  match c with
  | TCG_COND_EQ => TCG_COND_EQ | TCG_COND_NE => TCG_COND_NE
  | TCG_COND_LT => TCG_COND_GT | TCG_COND_GT => TCG_COND_LT
  | TCG_COND_LE => TCG_COND_GE | TCG_COND_GE => TCG_COND_LE
  | TCG_COND_LTU => TCG_COND_GTU | TCG_COND_GTU => TCG_COND_LTU
  | TCG_COND_LEU => TCG_COND_GEU | TCG_COND_GEU => TCG_COND_LEU
  end.

(** Modelled from the spec: the negation of a comparison. *)
Definition invert_cond (c : TCGCond) : TCGCond :=
  match c with
  | TCG_COND_EQ => TCG_COND_NE | TCG_COND_NE => TCG_COND_EQ
  | TCG_COND_LT => TCG_COND_GE | TCG_COND_GE => TCG_COND_LT
  | TCG_COND_LE => TCG_COND_GT | TCG_COND_GT => TCG_COND_LE
  | TCG_COND_LTU => TCG_COND_GEU | TCG_COND_GEU => TCG_COND_LTU
  | TCG_COND_LEU => TCG_COND_GTU | TCG_COND_GTU => TCG_COND_LEU
  end.

(** [tcg_swap_cond] and [tcg_invert_cond] on an argument slot; a slot that
    holds no predicate is left as it is. *)
Definition on_cond_arg (f : TCGCond -> TCGCond) (a : TCGArg) : TCGArg :=
  match cond_of_arg a with
  | Some c => arg_of_cond (f c)
  | None => a
  end.

Definition tcg_swap_cond : TCGArg -> TCGArg := on_cond_arg swap_cond.
Definition tcg_invert_cond : TCGArg -> TCGArg := on_cond_arg invert_cond.

(** ** The state of a temp *)

Inductive tcg_temp_state : Type :=
| TCG_TEMP_UNDEF
| TCG_TEMP_CONST
| TCG_TEMP_COPY.

Record tcg_temp_info : Type := {
  state : tcg_temp_state;
  prev_copy : Z;          (* uint16_t *)
  next_copy : Z;          (* uint16_t *)
  val : TCGArg
}.

Definition tcg_temp_state_eqb (a b : tcg_temp_state) : bool :=
  match a, b with
  | TCG_TEMP_UNDEF, TCG_TEMP_UNDEF => true
  | TCG_TEMP_CONST, TCG_TEMP_CONST => true
  | TCG_TEMP_COPY, TCG_TEMP_COPY => true
  | _, _ => false
  end.

Definition TCGType_eqb (a b : TCGType) : bool :=
  match a, b with
  | TCG_TYPE_I32, TCG_TYPE_I32 => true
  | TCG_TYPE_I64, TCG_TYPE_I64 => true
  | _, _ => false
  end.

(** The all-zero entry left by [memset]. *)
Definition zero_info : tcg_temp_info :=
  {| state := TCG_TEMP_UNDEF; prev_copy := 0; next_copy := 0; val := 0 |}.

(** The array [temps], indexed by a temp. *)
Definition temp_table : Type := TCGArg -> tcg_temp_info.

Definition upd (tb : temp_table) (t : TCGArg) (i : tcg_temp_info) : temp_table :=
  fun u => if u =? t then i else tb u.

Definition set_state (tb : temp_table) (t : TCGArg) (s : tcg_temp_state) : temp_table :=
  upd tb t {| state := s; prev_copy := prev_copy (tb t);
              next_copy := next_copy (tb t); val := val (tb t) |}.

Definition set_prev (tb : temp_table) (t : TCGArg) (p : Z) : temp_table :=
  upd tb t {| state := state (tb t); prev_copy := to_uint 16 p;
              next_copy := next_copy (tb t); val := val (tb t) |}.

Definition set_next (tb : temp_table) (t : TCGArg) (n : Z) : temp_table :=
  upd tb t {| state := state (tb t); prev_copy := prev_copy (tb t);
              next_copy := to_uint 16 n; val := val (tb t) |}.

Definition set_val (tb : temp_table) (t : TCGArg) (v : TCGArg) : temp_table :=
  upd tb t {| state := state (tb t); prev_copy := prev_copy (tb t);
              next_copy := next_copy (tb t); val := v |}.

Definition is_state (tb : temp_table) (t : TCGArg) (s : tcg_temp_state) : bool :=
  tcg_temp_state_eqb (state (tb t)) s.

(** [reset_temp]: detach [temp] from its ring and make it [UNDEF]; the
    last remaining mate of a ring of two loses its copy state as well. *)
Definition reset_temp (tb : temp_table) (temp : TCGArg) : temp_table :=
  let tb1 :=
    if is_state tb temp TCG_TEMP_COPY then
      if prev_copy (tb temp) =? next_copy (tb temp) then
        set_state tb (next_copy (tb temp)) TCG_TEMP_UNDEF
      else
        let tb' := set_prev tb (next_copy (tb temp)) (prev_copy (tb temp)) in
        set_next tb' (prev_copy (tb' temp)) (next_copy (tb' temp))
    else tb in
  set_state tb1 temp TCG_TEMP_UNDEF.

(** [memset(temps, 0, nb_temps * sizeof(struct tcg_temp_info))] *)
Definition memset_temps (tb : temp_table) (nb_temps : Z) : temp_table :=
  fun t => if (0 <=? t) && (t <? nb_temps) then zero_info else tb t.

(** The part of [TCGContext] the pass reads. *)
Record TCGContext : Type := {
  nb_temps : Z;
  nb_globals : Z;
  temp_type : TCGArg -> TCGType;     (* s->temps[i].type *)
  temp_local : TCGArg -> bool        (* s->temps[i].temp_local *)
}.

(** A walk over a ring:
    [for (i = start; i != temp; i = temps[i].next_copy) if (p i) return i;].
    The links are 16 bits wide, so a walk that has not come back to
    [temp] after [2 ^ 16] steps never will. *)
Fixpoint ring_scan (fuel : nat) (tb : temp_table) (temp : TCGArg)
    (p : TCGArg -> bool) (i : TCGArg) : result (option TCGArg) :=
  if i =? temp then Ok None
  else if p i then Ok (Some i)
  else match fuel with
       | O => Err no_termination
       | S fuel' => ring_scan fuel' tb temp p (next_copy (tb i))
       end.

Definition RING_FUEL : nat := Z.to_nat 65536.
#[global] Opaque RING_FUEL.

Definition find_better_copy (s : TCGContext) (tb : temp_table) (temp : TCGArg)
    : result TCGArg :=
  (* If this is already a global, we can't do better. *)
  if temp <? nb_globals s then Ok temp
  else
    (* Search for a global first. *)
    g <- ring_scan RING_FUEL tb temp (fun i => i <? nb_globals s)
                   (next_copy (tb temp)) ;;
    match g with
    | Some i => Ok i
    | None =>
        (* If it is a temp, search for a temp local. *)
        if negb (temp_local s temp) then
          l <- ring_scan RING_FUEL tb temp (fun i => temp_local s i)
                         (next_copy (tb temp)) ;;
          match l with
          | Some i => Ok i
          | None => Ok temp
          end
        else Ok temp
    end.

Definition temps_are_copies (tb : temp_table) (arg1 arg2 : TCGArg) : result bool :=
  if arg1 =? arg2 then Ok true
  else if negb (is_state tb arg1 TCG_TEMP_COPY)
          || negb (is_state tb arg2 TCG_TEMP_COPY) then Ok false
  else
    r <- ring_scan RING_FUEL tb arg1 (fun i => i =? arg2) (next_copy (tb arg1)) ;;
    match r with
    | Some _ => Ok true
    | None => Ok false
    end.


(** ** The driver's state

    [temps] and [gen_opc_buf] are the global arrays of the source;
    [opparam] is the argument buffer that both [args] (the read cursor) and
    [gen_args] (the write cursor) point into. *)
Record opt_state : Type := {
  temps : temp_table;
  gen_opc_buf : nat -> TCGOpcode;
  opparam : nat -> TCGArg;
  args : nat;
  gen_args : nat;
  op_index : nat
}.

Definition updn {A : Type} (f : nat -> A) (k : nat) (v : A) : nat -> A :=
  fun i => if Nat.eqb i k then v else f i.

(** [args[i]] *)
Definition arg (st : opt_state) (i : nat) : TCGArg :=
  opparam st (args st + i)%nat.

(** [args[i] = v] *)
Definition set_arg (st : opt_state) (i : nat) (v : TCGArg) : opt_state :=
  {| temps := temps st; gen_opc_buf := gen_opc_buf st;
     opparam := updn (opparam st) (args st + i) v;
     args := args st; gen_args := gen_args st; op_index := op_index st |}.

(** [gen_args[i] = v] *)
Definition set_gen_arg (st : opt_state) (i : nat) (v : TCGArg) : opt_state :=
  {| temps := temps st; gen_opc_buf := gen_opc_buf st;
     opparam := updn (opparam st) (gen_args st + i) v;
     args := args st; gen_args := gen_args st; op_index := op_index st |}.

(** [gen_opc_buf[op_index + k] = op] *)
Definition set_opc_at (st : opt_state) (k : nat) (op : TCGOpcode) : opt_state :=
  {| temps := temps st;
     gen_opc_buf := updn (gen_opc_buf st) (op_index st + k) op;
     opparam := opparam st;
     args := args st; gen_args := gen_args st; op_index := op_index st |}.

Definition set_opc (st : opt_state) (op : TCGOpcode) : opt_state :=
  set_opc_at st 0 op.

Definition set_temps (st : opt_state) (tb : temp_table) : opt_state :=
  {| temps := tb; gen_opc_buf := gen_opc_buf st; opparam := opparam st;
     args := args st; gen_args := gen_args st; op_index := op_index st |}.

(** The end of one turn of the loop: [args += n; gen_args += m;] and the
    loop's [op_index++], after [k] extra increments in the body. *)
Definition next_op (st : opt_state) (n m k : nat) : opt_state :=
  {| temps := temps st; gen_opc_buf := gen_opc_buf st; opparam := opparam st;
     args := (args st + n)%nat; gen_args := (gen_args st + m)%nat;
     op_index := (op_index st + k + 1)%nat |}.

Definition is_const (st : opt_state) (t : TCGArg) : bool :=
  is_state (temps st) t TCG_TEMP_CONST.

Definition const_zero (st : opt_state) (t : TCGArg) : bool :=
  is_const st t && (val (temps st t) =? 0).

(** ** The pass, for a host word size and an opcode table *)

Section Pass.

Variable TCG_TARGET_REG_BITS : Z.
Variable tcg_op_defs : TCGOpcode -> TCGOpDef.

(** Conversion of a C value to [TCGArg]. *)
Definition wrap (x : Z) : TCGArg := x mod 2 ^ TCG_TARGET_REG_BITS.

Definition op_bits (op : TCGOpcode) : Z :=
  if Z.land (flags (tcg_op_defs op)) TCG_OPF_64BIT =? 0 then 32 else 64.

Definition op_to_movi (op : TCGOpcode) : result TCGOpcode :=
  match op_bits op with
  | 32 => Ok INDEX_op_movi_i32
  | 64 => Ok INDEX_op_movi_i64
  | _ => Err tcg_abort
  end.

Definition op_to_mov (op : TCGOpcode) : result TCGOpcode :=
  match op_bits op with
  | 32 => Ok INDEX_op_mov_i32
  | 64 => Ok INDEX_op_mov_i64
  | _ => Err tcg_abort
  end.

Definition type_bits (w : TCGType) : Z :=
  match w with TCG_TYPE_I32 => 32 | TCG_TYPE_I64 => 64 end.

Definition do_constant_folding_2 (op : TCGOpcode) (x y : TCGArg) : result TCGArg :=
  match op with
  | INDEX_op_add _ => Ok (wrap (x + y))
  | INDEX_op_sub _ => Ok (wrap (x - y))
  | INDEX_op_mul _ => Ok (wrap (x * y))
  | INDEX_op_and _ => Ok (Z.land x y)
  | INDEX_op_or _ => Ok (Z.lor x y)
  | INDEX_op_xor _ => Ok (Z.lxor x y)
  | INDEX_op_shl w =>
      let n := type_bits w in
      r <- c_shl n (to_uint n x) (to_uint n y) ;; Ok (wrap r)
  | INDEX_op_shr w =>
      let n := type_bits w in
      r <- c_shr n (to_uint n x) (to_uint n y) ;; Ok (wrap r)
  | INDEX_op_sar w =>
      let n := type_bits w in
      r <- c_sar n (to_int n x) (to_int n y) ;; Ok (wrap r)
  | INDEX_op_rotr w =>
      let n := type_bits w in
      a <- c_shl n (to_uint n x) (wrap (n - y)) ;;
      b <- c_shr n (to_uint n x) y ;;
      Ok (wrap (Z.lor a b))
  | INDEX_op_rotl w =>
      let n := type_bits w in
      a <- c_shl n (to_uint n x) y ;;
      b <- c_shr n (to_uint n x) (wrap (n - y)) ;;
      Ok (wrap (Z.lor a b))
  | INDEX_op_not _ => Ok (wrap (Z.lnot x))
  | INDEX_op_neg _ => Ok (wrap (- x))
  | INDEX_op_andc _ => Ok (Z.land x (wrap (Z.lnot y)))
  | INDEX_op_orc _ => Ok (Z.lor x (wrap (Z.lnot y)))
  | INDEX_op_eqv _ => Ok (wrap (Z.lnot (Z.lxor x y)))
  | INDEX_op_nand _ => Ok (wrap (Z.lnot (Z.land x y)))
  | INDEX_op_nor _ => Ok (wrap (Z.lnot (Z.lor x y)))
  | INDEX_op_ext8s _ => Ok (wrap (to_int 8 x))
  | INDEX_op_ext16s _ => Ok (wrap (to_int 16 x))
  | INDEX_op_ext8u _ => Ok (wrap (to_uint 8 x))
  | INDEX_op_ext16u _ => Ok (wrap (to_uint 16 x))
  | INDEX_op_ext32s_i64 => Ok (wrap (to_int 32 x))
  | INDEX_op_ext32u_i64 => Ok (wrap (to_uint 32 x))
  | _ => Err tcg_abort
  end.

Definition do_constant_folding (op : TCGOpcode) (x y : TCGArg) : result TCGArg :=
  res <- do_constant_folding_2 op x y ;;
  if op_bits op =? 32 then Ok (Z.land res 4294967295) else Ok res.

(** The comparison of two [n]-bit values under the predicate in slot [c]. *)
Definition fold_cond_bits (n : Z) (x y : Z) (c : TCGArg) : result bool :=
  let ux := to_uint n x in
  let uy := to_uint n y in
  let sx := to_int n x in
  let sy := to_int n y in
  match cond_of_arg c with
  | Some TCG_COND_EQ => Ok (ux =? uy)
  | Some TCG_COND_NE => Ok (negb (ux =? uy))
  | Some TCG_COND_LT => Ok (sx <? sy)
  | Some TCG_COND_GE => Ok (sx >=? sy)
  | Some TCG_COND_LE => Ok (sx <=? sy)
  | Some TCG_COND_GT => Ok (sx >? sy)
  | Some TCG_COND_LTU => Ok (ux <? uy)
  | Some TCG_COND_GEU => Ok (ux >=? uy)
  | Some TCG_COND_LEU => Ok (ux <=? uy)
  | Some TCG_COND_GTU => Ok (ux >? uy)
  | None => Err tcg_abort
  end.

Definition do_constant_folding_cond_32 : Z -> Z -> TCGArg -> result bool :=
  fold_cond_bits 32.

Definition do_constant_folding_cond_64 : Z -> Z -> TCGArg -> result bool :=
  fold_cond_bits 64.

Definition do_constant_folding_cond_eq (c : TCGArg) : result bool :=
  match cond_of_arg c with
  | Some TCG_COND_GT | Some TCG_COND_LTU | Some TCG_COND_LT
  | Some TCG_COND_GTU | Some TCG_COND_NE => Ok false
  | Some TCG_COND_GE | Some TCG_COND_GEU | Some TCG_COND_LE
  | Some TCG_COND_LEU | Some TCG_COND_EQ => Ok true
  | None => Err tcg_abort
  end.

Definition of_bool (b : bool) : TCGArg := if b then 1 else 0.

(** Returns 2 if the condition can't be simplified, and the result of the
    condition (0 or 1) if it can. *)
Definition do_constant_folding_cond (tb : temp_table) (op : TCGOpcode)
    (x y : TCGArg) (c : TCGArg) : result TCGArg :=
  if is_state tb x TCG_TEMP_CONST && is_state tb y TCG_TEMP_CONST then
    match op_bits op with
    | 32 => b <- do_constant_folding_cond_32 (val (tb x)) (val (tb y)) c ;;
            Ok (of_bool b)
    | 64 => b <- do_constant_folding_cond_64 (val (tb x)) (val (tb y)) c ;;
            Ok (of_bool b)
    | _ => Err tcg_abort
    end
  else
    cp <- temps_are_copies tb x y ;;
    if cp then
      b <- do_constant_folding_cond_eq c ;; Ok (of_bool b)
    else if is_state tb y TCG_TEMP_CONST && (val (tb y) =? 0) then
      match cond_of_arg c with
      | Some TCG_COND_LTU => Ok 0
      | Some TCG_COND_GEU => Ok 1
      | _ => Ok 2
      end
    else Ok 2.

(** [((uint64_t)h << 32) | (uint32_t)l] *)
Definition compose64 (h l : Z) : Z :=
  Z.lor (to_uint 64 (Z.shiftl (to_uint 64 h) 32)) (to_uint 32 l).

Definition do_constant_folding_cond2 (tb : temp_table)
    (al ah bl bh : TCGArg) (c : TCGArg) : result TCGArg :=
  let by_copies :=
    cl <- temps_are_copies tb al bl ;;
    ch <- (if cl then temps_are_copies tb ah bh else Ok false) ;;
    if ch then b <- do_constant_folding_cond_eq c ;; Ok (of_bool b)
    else Ok 2 in
  if is_state tb bl TCG_TEMP_CONST && is_state tb bh TCG_TEMP_CONST then
    let b := compose64 (val (tb bh)) (val (tb bl)) in
    if is_state tb al TCG_TEMP_CONST && is_state tb ah TCG_TEMP_CONST then
      let a := compose64 (val (tb ah)) (val (tb al)) in
      r <- do_constant_folding_cond_64 a b c ;; Ok (of_bool r)
    else if b =? 0 then
      match cond_of_arg c with
      | Some TCG_COND_LTU => Ok 0
      | Some TCG_COND_GEU => Ok 1
      | _ => by_copies
      end
    else by_copies
  else by_copies.


(** *** Recording a move and a constant *)

(** The body of [if (s->temps[src].type == s->temps[dst].type)] in
    [tcg_opt_gen_mov]: [src] becomes a ring of its own unless it is in one,
    and [dst] is linked in right after [src]. *)
Definition link_copy (tb : temp_table) (dst src : TCGArg) : temp_table :=
  let tb1 :=
    if negb (is_state tb src TCG_TEMP_COPY) then
      set_prev (set_next (set_state tb src TCG_TEMP_COPY) src src) src src
    else tb in
  let tb2 := set_state tb1 dst TCG_TEMP_COPY in
  let tb3 := set_next tb2 dst (next_copy (tb2 src)) in
  let tb4 := set_prev tb3 dst src in
  let tb5 := set_prev tb4 (next_copy (tb4 dst)) dst in
  set_next tb5 src dst.

Definition tcg_opt_gen_mov (s : TCGContext) (st : opt_state)
    (dst src : TCGArg) : result opt_state :=
  let tb := reset_temp (temps st) dst in
  if is_state tb src TCG_TEMP_CONST then Err assert_failed
  else
    let tb' :=
      if TCGType_eqb (temp_type s src) (temp_type s dst) then
        link_copy tb dst src
      else tb in
    Ok (set_gen_arg (set_gen_arg (set_temps st tb') 0 dst) 1 src).

(** [tcg_opt_gen_movi(&gen_args[off], dst, val)] *)
Definition tcg_opt_gen_movi (st : opt_state) (off : nat)
    (dst v : TCGArg) : opt_state :=
  let tb := reset_temp (temps st) dst in
  let tb := set_val (set_state tb dst TCG_TEMP_CONST) dst v in
  set_gen_arg (set_gen_arg (set_temps st tb) off dst) (off + 1) v.

(** *** Phase 1: copy propagation over the input arguments *)

(** [for (i = lo; i < lo + n; i++) if (temps[args[i]].state == COPY)
      args[i] = find_better_copy(s, args[i]);] *)
Fixpoint copy_propagate (s : TCGContext) (n : nat) (i : nat)
    (st : opt_state) : result opt_state :=
  match n with
  | O => Ok st
  | S n' =>
      st' <- (if is_state (temps st) (arg st i) TCG_TEMP_COPY then
                r <- find_better_copy s (temps st) (arg st i) ;;
                Ok (set_arg st i r)
              else Ok st) ;;
      copy_propagate s n' (S i) st'
  end.

(** The output and input counts of a call, read from its first argument
    into two [int]s.  A call whose counts do not fit an [int] indexes
    outside every buffer. *)
Definition call_counts (a0 : TCGArg) : result (nat * nat) :=
  let o := Z.shiftr a0 16 in
  let i := Z.land a0 65535 in
  if (0 <=? o) && (o + i + 3 <? 2 ^ 31) then Ok (Z.to_nat o, Z.to_nat i)
  else Err undefined_behaviour.

Definition propagate_copies (s : TCGContext) (op : TCGOpcode)
    (st : opt_state) : result opt_state :=
  match op with
  | INDEX_op_call =>
      c <- call_counts (arg st 0) ;;
      copy_propagate s (snd c) (fst c + 1) st
  | _ =>
      let def := tcg_op_defs op in
      copy_propagate s (nb_iargs def) (nb_oargs def) st
  end.

(** *** Phase 2: constants to the right *)

Definition b2z (b : bool) : Z := if b then 1 else 0.

(** [swap_commutative(dest, &args[i], &args[j])] *)
Definition swap_commutative (st : opt_state) (dest : TCGArg) (i j : nat)
    : opt_state * bool :=
  let a1 := arg st i in
  let a2 := arg st j in
  let sum := b2z (is_const st a1) - b2z (is_const st a2) in
  (* Prefer the constant in second argument, and then the form
     op a, a, b, which is better handled on non-RISC hosts. *)
  if (sum >? 0) || ((sum =? 0) && (dest =? a2)) then
    (set_arg (set_arg st i a2) j a1, true)
  else (st, false).

(** [swap_commutative2(&args[i], &args[j])] *)
Definition swap_commutative2 (st : opt_state) (i j : nat) : opt_state * bool :=
  let sum := b2z (is_const st (arg st i)) + b2z (is_const st (arg st (i + 1)))
             - b2z (is_const st (arg st j)) - b2z (is_const st (arg st (j + 1))) in
  if sum >? 0 then
    let st1 := set_arg (set_arg st i (arg st j)) j (arg st i) in
    let st2 := set_arg (set_arg st1 (i + 1) (arg st1 (j + 1))) (j + 1)
                       (arg st1 (i + 1)) in
    (st2, true)
  else (st, false).

(** [if (swapped) args[k] = f(args[k]);] *)
Definition fix_cond (r : opt_state * bool) (k : nat) (f : TCGArg -> TCGArg)
    : opt_state :=
  let (st, swapped) := r in
  if swapped then set_arg st k (f (arg st k)) else st.

Definition canonicalize (op : TCGOpcode) (st : opt_state) : opt_state :=
  match op with
  | INDEX_op_add _ | INDEX_op_mul _ | INDEX_op_and _ | INDEX_op_or _
  | INDEX_op_xor _ | INDEX_op_eqv _ | INDEX_op_nand _ | INDEX_op_nor _ =>
      fst (swap_commutative st (arg st 0) 1 2)
  | INDEX_op_brcond _ =>
      fix_cond (swap_commutative st (wrap (-1)) 0 1) 2 tcg_swap_cond
  | INDEX_op_setcond _ =>
      fix_cond (swap_commutative st (arg st 0) 1 2) 3 tcg_swap_cond
  | INDEX_op_movcond _ =>
      let st1 := fix_cond (swap_commutative st (wrap (-1)) 1 2) 5 tcg_swap_cond in
      (* For movcond, we canonicalize the "false" input reg to match
         the destination reg so that the tcg backend can implement
         a "move if true" operation.  *)
      fix_cond (swap_commutative st1 (arg st1 0) 4 3) 5 tcg_invert_cond
  | INDEX_op_add2_i32 =>
      let st1 := fst (swap_commutative st (arg st 0) 2 4) in
      fst (swap_commutative st1 (arg st1 1) 3 5)
  | INDEX_op_mulu2_i32 =>
      fst (swap_commutative st (arg st 0) 2 3)
  | INDEX_op_brcond2_i32 =>
      fix_cond (swap_commutative2 st 0 2) 4 tcg_swap_cond
  | INDEX_op_setcond2_i32 =>
      fix_cond (swap_commutative2 st 1 3) 5 tcg_swap_cond
  | _ => st
  end.

(** *** Phase 3: identities

    Each rule answers [Some st'] when it rewrote the operation (the
    [continue] of the source) and [None] when the next rule is to be
    tried. *)

Definition emit_movi_zero (op : TCGOpcode) (st : opt_state)
    : result (option opt_state) :=
  m <- op_to_movi op ;;
  Ok (Some (next_op (tcg_opt_gen_movi (set_opc st m) 0 (arg st 0) 0) 3 2 0)).

(** [mov r, a], or a nop when [r] is already a copy of [a] *)
Definition emit_mov_or_nop (s : TCGContext) (op : TCGOpcode) (st : opt_state)
    : result (option opt_state) :=
  cp <- temps_are_copies (temps st) (arg st 0) (arg st 1) ;;
  if cp then Ok (Some (next_op (set_opc st INDEX_op_nop) 3 0 0))
  else
    m <- op_to_mov op ;;
    st' <- tcg_opt_gen_mov s (set_opc st m) (arg st 0) (arg st 1) ;;
    Ok (Some (next_op st' 3 2 0)).

(** Simplify expressions for "shift/rot r, 0, a => movi r, 0" *)
Definition simplify_shift_of_zero (op : TCGOpcode) (st : opt_state)
    : result (option opt_state) :=
  match op with
  | INDEX_op_shl _ | INDEX_op_shr _ | INDEX_op_sar _
  | INDEX_op_rotl _ | INDEX_op_rotr _ =>
      if const_zero st (arg st 1) then emit_movi_zero op st else Ok None
  | _ => Ok None
  end.

(** Simplify expression for "op r, a, 0 => mov r, a" cases *)
Definition simplify_op_zero_mov (s : TCGContext) (op : TCGOpcode)
    (st : opt_state) : result (option opt_state) :=
  match op with
  | INDEX_op_add _ | INDEX_op_sub _ | INDEX_op_shl _ | INDEX_op_shr _
  | INDEX_op_sar _ | INDEX_op_rotl _ | INDEX_op_rotr _ | INDEX_op_or _
  | INDEX_op_xor _ =>
      if is_const st (arg st 1) then
        (* Proceed with possible constant folding. *)
        Ok None
      else if const_zero st (arg st 2) then emit_mov_or_nop s op st
      else Ok None
  | _ => Ok None
  end.

(** Simplify expression for "op r, a, 0 => movi r, 0" cases *)
Definition simplify_op_zero_movi (op : TCGOpcode) (st : opt_state)
    : result (option opt_state) :=
  match op with
  | INDEX_op_and _ | INDEX_op_mul _ =>
      if const_zero st (arg st 2) then emit_movi_zero op st else Ok None
  | _ => Ok None
  end.

(** Simplify expression for "op r, a, a => mov r, a" cases *)
Definition simplify_op_same_mov (s : TCGContext) (op : TCGOpcode)
    (st : opt_state) : result (option opt_state) :=
  match op with
  | INDEX_op_or _ | INDEX_op_and _ =>
      cp <- temps_are_copies (temps st) (arg st 1) (arg st 2) ;;
      if cp then emit_mov_or_nop s op st else Ok None
  | _ => Ok None
  end.

(** Simplify expression for "op r, a, a => movi r, 0" cases *)
Definition simplify_op_same_movi (op : TCGOpcode) (st : opt_state)
    : result (option opt_state) :=
  match op with
  | INDEX_op_sub _ | INDEX_op_xor _ =>
      cp <- temps_are_copies (temps st) (arg st 1) (arg st 2) ;;
      if cp then emit_movi_zero op st else Ok None
  | _ => Ok None
  end.

(** *** Phase 5: the default case *)

(** [for (i = 0; i < n; i++) reset_temp(i);] *)
Fixpoint reset_upto (n : nat) (tb : temp_table) : temp_table :=
  match n with
  | O => tb
  | S k => reset_temp (reset_upto k tb) (Z.of_nat k)
  end.

(** [for (i = 0; i < n; i++) reset_temp(args[base + i]);] *)
Fixpoint reset_args (n : nat) (base : nat) (st : opt_state)
    (tb : temp_table) : temp_table :=
  match n with
  | O => tb
  | S k => reset_temp (reset_args k base st tb) (arg st (base + k))
  end.

(** [for (k = 0; k < n; k++) gen_args[i + k] = args[i + k];] *)
Fixpoint copy_args (n : nat) (i : nat) (st : opt_state) : opt_state :=
  match n with
  | O => st
  | S k => copy_args k (S i) (set_gen_arg st i (arg st i))
  end.

Definition bb_end (op : TCGOpcode) : bool :=
  negb (Z.land (flags (tcg_op_defs op)) TCG_OPF_BB_END =? 0).

(** Default case: we know nothing about operation (or were unable to
    compute the operation result) so no propagation is done.  We trash
    everything if the operation is the end of a basic block, otherwise we
    only trash the output args. *)
Definition do_default (s : TCGContext) (op : TCGOpcode) (st : opt_state)
    : opt_state :=
  let def := tcg_op_defs op in
  let tb :=
    if bb_end op then memset_temps (temps st) (nb_temps s)
    else reset_args (nb_oargs def) 0 st (temps st) in
  let st' := copy_args (nb_args def) 0 (set_temps st tb) in
  next_op st' (nb_args def) (nb_args def) 0.

(** *** Phase 4: folding and propagation *)

Definition fold_to_movi (op : TCGOpcode) (st : opt_state) (v : TCGArg)
    (n : nat) : result opt_state :=
  m <- op_to_movi op ;;
  Ok (next_op (tcg_opt_gen_movi (set_opc st m) 0 (arg st 0) v) n 2 0).

(** A branch whose condition folded to [tmp]: an unconditional branch to
    the label in [args[lbl]] after forgetting every temp, or a nop. *)
Definition fold_branch (s : TCGContext) (st : opt_state) (tmp : TCGArg)
    (lbl : nat) (n : nat) : opt_state :=
  if tmp =? 0 then next_op (set_opc st INDEX_op_nop) n 0 0
  else
    let st1 := set_temps st (memset_temps (temps st) (nb_temps s)) in
    let st2 := set_opc st1 INDEX_op_br in
    next_op (set_gen_arg st2 0 (arg st2 lbl)) n 1 0.

(** The two [movi_i32] that replace a folded double-word operation whose
    64-bit result is [r]; the second takes the slot of the following nop. *)
Definition fold_to_movi2 (st : opt_state) (r : Z) (n : nat) : result opt_state :=
  (* We emit the extra nop when we emit the add2/sub2.  *)
  match gen_opc_buf st (op_index st + 1) with
  | INDEX_op_nop =>
      let rl := arg st 0 in
      let rh := arg st 1 in
      let st1 := set_opc_at (set_opc st INDEX_op_movi_i32) 1 INDEX_op_movi_i32 in
      let st2 := tcg_opt_gen_movi st1 0 rl (to_uint 32 r) in
      let st3 := tcg_opt_gen_movi st2 2 rh (to_uint 32 (Z.shiftr r 32)) in
      Ok (next_op st3 n 4 1)
  | _ => Err assert_failed
  end.

Definition is_lt_or_ge (c : TCGArg) : bool :=
  (c =? arg_of_cond TCG_COND_LT) || (c =? arg_of_cond TCG_COND_GE).

Definition fold_op (s : TCGContext) (op : TCGOpcode) (st : opt_state)
    : result opt_state :=
  match op with
  | INDEX_op_mov _ =>
      cp <- temps_are_copies (temps st) (arg st 0) (arg st 1) ;;
      if cp then Ok (next_op (set_opc st INDEX_op_nop) 2 0 0)
      else if negb (is_const st (arg st 1)) then
        st' <- tcg_opt_gen_mov s st (arg st 0) (arg st 1) ;;
        Ok (next_op st' 2 2 0)
      else
        (* Source argument is constant.  Rewrite the operation and
           let movi case handle it. *)
        m <- op_to_movi op ;;
        let st1 := set_opc st m in
        let st2 := set_arg st1 1 (val (temps st1 (arg st1 1))) in
        Ok (next_op (tcg_opt_gen_movi st2 0 (arg st2 0) (arg st2 1)) 2 2 0)
  | INDEX_op_movi _ =>
      Ok (next_op (tcg_opt_gen_movi st 0 (arg st 0) (arg st 1)) 2 2 0)
  | INDEX_op_not _ | INDEX_op_neg _ | INDEX_op_ext8s _ | INDEX_op_ext8u _
  | INDEX_op_ext16s _ | INDEX_op_ext16u _
  | INDEX_op_ext32s_i64 | INDEX_op_ext32u_i64 =>
      if is_const st (arg st 1) then
        m <- op_to_movi op ;;
        tmp <- do_constant_folding op (val (temps st (arg st 1))) 0 ;;
        Ok (next_op (tcg_opt_gen_movi (set_opc st m) 0 (arg st 0) tmp) 2 2 0)
      else Ok (do_default s op st)
  | INDEX_op_add _ | INDEX_op_sub _ | INDEX_op_mul _ | INDEX_op_or _
  | INDEX_op_and _ | INDEX_op_xor _ | INDEX_op_shl _ | INDEX_op_shr _
  | INDEX_op_sar _ | INDEX_op_rotl _ | INDEX_op_rotr _ | INDEX_op_andc _
  | INDEX_op_orc _ | INDEX_op_eqv _ | INDEX_op_nand _ | INDEX_op_nor _ =>
      if is_const st (arg st 1) && is_const st (arg st 2) then
        m <- op_to_movi op ;;
        tmp <- do_constant_folding op (val (temps st (arg st 1)))
                                   (val (temps st (arg st 2))) ;;
        Ok (next_op (tcg_opt_gen_movi (set_opc st m) 0 (arg st 0) tmp) 3 2 0)
      else Ok (do_default s op st)
  | INDEX_op_deposit _ =>
      if is_const st (arg st 1) && is_const st (arg st 2) then
        m <- op_to_movi op ;;
        one <- c_shl 64 1 (arg st 4) ;;
        let tmp := wrap (one - 1) in
        hole <- c_shl TCG_TARGET_REG_BITS tmp (arg st 3) ;;
        ins <- c_shl TCG_TARGET_REG_BITS
                     (Z.land (val (temps st (arg st 2))) tmp) (arg st 3) ;;
        let tmp := Z.lor (Z.land (val (temps st (arg st 1))) (wrap (Z.lnot hole)))
                         ins in
        Ok (next_op (tcg_opt_gen_movi (set_opc st m) 0 (arg st 0) tmp) 5 2 0)
      else Ok (do_default s op st)
  | INDEX_op_setcond _ =>
      tmp <- do_constant_folding_cond (temps st) op (arg st 1) (arg st 2)
                                      (arg st 3) ;;
      if negb (tmp =? 2) then fold_to_movi op st tmp 4
      else Ok (do_default s op st)
  | INDEX_op_brcond _ =>
      tmp <- do_constant_folding_cond (temps st) op (arg st 0) (arg st 1)
                                      (arg st 2) ;;
      if negb (tmp =? 2) then Ok (fold_branch s st tmp 3 4)
      else Ok (do_default s op st)
  | INDEX_op_movcond _ =>
      tmp <- do_constant_folding_cond (temps st) op (arg st 1) (arg st 2)
                                      (arg st 5) ;;
      if negb (tmp =? 2) then
        let v := arg st (4 - Z.to_nat tmp) in
        cp <- temps_are_copies (temps st) (arg st 0) v ;;
        if cp then Ok (next_op (set_opc st INDEX_op_nop) 6 0 0)
        else if is_const st v then
          m <- op_to_movi op ;;
          Ok (next_op (tcg_opt_gen_movi (set_opc st m) 0 (arg st 0)
                                        (val (temps st v))) 6 2 0)
        else
          m <- op_to_mov op ;;
          st' <- tcg_opt_gen_mov s (set_opc st m) (arg st 0) v ;;
          Ok (next_op st' 6 2 0)
      else Ok (do_default s op st)
  | INDEX_op_add2_i32 | INDEX_op_sub2_i32 =>
      if is_const st (arg st 2) && is_const st (arg st 3)
         && is_const st (arg st 4) && is_const st (arg st 5) then
        let al := to_uint 32 (val (temps st (arg st 2))) in
        let ah := to_uint 32 (val (temps st (arg st 3))) in
        let bl := to_uint 32 (val (temps st (arg st 4))) in
        let bh := to_uint 32 (val (temps st (arg st 5))) in
        let a := compose64 ah al in
        let b := compose64 bh bl in
        let a := match op with
                 | INDEX_op_add2_i32 => to_uint 64 (a + b)
                 | _ => to_uint 64 (a - b)
                 end in
        fold_to_movi2 st a 6
      else Ok (do_default s op st)
  | INDEX_op_mulu2_i32 =>
      if is_const st (arg st 2) && is_const st (arg st 3) then
        let a := to_uint 32 (val (temps st (arg st 2))) in
        let b := to_uint 32 (val (temps st (arg st 3))) in
        fold_to_movi2 st (to_uint 64 (a * b)) 4
      else Ok (do_default s op st)
  | INDEX_op_brcond2_i32 =>
      tmp <- do_constant_folding_cond2 (temps st) (arg st 0) (arg st 1)
                                       (arg st 2) (arg st 3) (arg st 4) ;;
      if negb (tmp =? 2) then Ok (fold_branch s st tmp 5 6)
      else if is_lt_or_ge (arg st 4)
              && const_zero st (arg st 2) && const_zero st (arg st 3) then
        (* Simplify LT/GE comparisons vs zero to a single compare
           vs the high word of the input.  *)
        let st1 := set_temps st (memset_temps (temps st) (nb_temps s)) in
        let st2 := set_opc st1 INDEX_op_brcond_i32 in
        let st3 := set_gen_arg st2 0 (arg st2 1) in
        let st4 := set_gen_arg st3 1 (arg st3 3) in
        let st5 := set_gen_arg st4 2 (arg st4 4) in
        let st6 := set_gen_arg st5 3 (arg st5 5) in
        Ok (next_op st6 6 4 0)
      else Ok (do_default s op st)
  | INDEX_op_setcond2_i32 =>
      tmp <- do_constant_folding_cond2 (temps st) (arg st 1) (arg st 2)
                                       (arg st 3) (arg st 4) (arg st 5) ;;
      if negb (tmp =? 2) then
        let st1 := set_opc st INDEX_op_movi_i32 in
        Ok (next_op (tcg_opt_gen_movi st1 0 (arg st1 0) tmp) 6 2 0)
      else if is_lt_or_ge (arg st 5)
              && const_zero st (arg st 3) && const_zero st (arg st 4) then
        (* Simplify LT/GE comparisons vs zero to a single compare
           vs the high word of the input.  *)
        let st2 := set_opc st INDEX_op_setcond_i32 in
        let st3 := set_gen_arg st2 0 (arg st2 0) in
        let st4 := set_gen_arg st3 1 (arg st3 2) in
        let st5 := set_gen_arg st4 2 (arg st4 4) in
        let st6 := set_gen_arg st5 3 (arg st5 5) in
        Ok (next_op st6 6 4 0)
      else Ok (do_default s op st)
  | INDEX_op_call =>
      c <- call_counts (arg st 0) ;;
      let nb_call_args := (fst c + snd c)%nat in
      let tb :=
        if Z.land (arg st (nb_call_args + 1))
                  (Z.lor TCG_CALL_NO_READ_GLOBALS TCG_CALL_NO_WRITE_GLOBALS) =? 0
        then reset_upto (Z.to_nat (nb_globals s)) (temps st)
        else temps st in
      let tb := reset_args (fst c) 1 st tb in
      let n := (nb_call_args + 3)%nat in
      Ok (next_op (copy_args n 0 (set_temps st tb)) n n 0)
  | _ => Ok (do_default s op st)
  end.

(** *** One turn of the loop and the whole pass *)

Definition or_else (r : result (option opt_state)) (k : result opt_state)
    : result opt_state :=
  match r with
  | Ok (Some st) => Ok st
  | Ok None => k
  | Err e => Err e
  end.

(** The state after phases 1 and 2 for the operation at [op_index]. *)
Definition prepare (s : TCGContext) (st : opt_state) : result opt_state :=
  let op := gen_opc_buf st (op_index st) in
  st1 <- propagate_copies s op st ;;
  Ok (canonicalize op st1).

(** Phases 3 to 5 on a prepared state. *)
Definition rewrite (s : TCGContext) (op : TCGOpcode) (st : opt_state)
    : result opt_state :=
  or_else (simplify_shift_of_zero op st)
  (or_else (simplify_op_zero_mov s op st)
  (or_else (simplify_op_zero_movi op st)
  (or_else (simplify_op_same_mov s op st)
  (or_else (simplify_op_same_movi op st)
  (fold_op s op st))))).

Definition step (s : TCGContext) (st : opt_state) : result opt_state :=
  st1 <- prepare s st ;;
  rewrite s (gen_opc_buf st (op_index st)) st1.

(** [for (op_index = 0; op_index < nb_ops; op_index++) ...]: every turn
    moves [op_index] forward, so [nb_ops] turns are enough. *)
Fixpoint run (fuel : nat) (s : TCGContext) (nb_ops : nat) (st : opt_state)
    : result opt_state :=
  match fuel with
  | O => Ok st
  | S fuel' =>
      if Nat.ltb (op_index st) nb_ops then
        st' <- step s st ;; run fuel' s nb_ops st'
      else Ok st
  end.

(** The state in which the loop starts: [temps] zeroed up to [nb_temps],
    [gen_args = args], [op_index = 0]. *)
Definition entry (s : TCGContext) (st : opt_state) : opt_state :=
  {| temps := memset_temps (temps st) (nb_temps s);
     gen_opc_buf := gen_opc_buf st; opparam := opparam st;
     args := args st; gen_args := args st; op_index := 0 |}.

(** Propagate constants and copies, fold constant expressions.  [st] holds
    the arrays at entry and the [args] the pass is called with; the result
    holds the rewritten arrays and, in [gen_args], the returned cursor. *)
Definition tcg_constant_folding (s : TCGContext) (nb_ops : nat)
    (st : opt_state) : result opt_state :=
  run nb_ops s nb_ops (entry s st).

Definition tcg_optimize (s : TCGContext) (nb_ops : nat) (st : opt_state)
    : result opt_state :=
  tcg_constant_folding s nb_ops st.

End Pass.

(** ** A concrete opcode table and concrete streams *)

Definition flag_of_type (w : TCGType) : Z :=
  match w with TCG_TYPE_I32 => 0 | TCG_TYPE_I64 => TCG_OPF_64BIT end.

Definition mk_def (f : Z) (o i c : nat) : TCGOpDef :=
  {| flags := f; nb_oargs := o; nb_iargs := i; nb_cargs := c;
     nb_args := (o + i + c)%nat |}.

(** Modelled from the spec: the opcode table (tcg-opc.h is not among the
    sources).  Arguments come as outputs, inputs, then immediates
    (section 6); the 64-bit variants carry the width flag and the
    branches end a basic block (section 4.A).  [INDEX_op_other n] stands
    for an operation with [n] inputs and nothing else. *)
Definition std_op_defs (op : TCGOpcode) : TCGOpDef :=
  match op with
  | INDEX_op_nop => mk_def 0 0 0 0
  | INDEX_op_call => mk_def 0 0 1 2
  | INDEX_op_br => mk_def TCG_OPF_BB_END 0 0 1
  | INDEX_op_mov w => mk_def (flag_of_type w) 1 1 0
  | INDEX_op_movi w => mk_def (flag_of_type w) 1 0 1
  | INDEX_op_add w | INDEX_op_sub w | INDEX_op_mul w | INDEX_op_and w
  | INDEX_op_or w | INDEX_op_xor w | INDEX_op_shl w | INDEX_op_shr w
  | INDEX_op_sar w | INDEX_op_rotl w | INDEX_op_rotr w | INDEX_op_andc w
  | INDEX_op_orc w | INDEX_op_eqv w | INDEX_op_nand w | INDEX_op_nor w =>
      mk_def (flag_of_type w) 1 2 0
  | INDEX_op_not w | INDEX_op_neg w | INDEX_op_ext8s w | INDEX_op_ext16s w
  | INDEX_op_ext8u w | INDEX_op_ext16u w => mk_def (flag_of_type w) 1 1 0
  | INDEX_op_ext32s_i64 | INDEX_op_ext32u_i64 => mk_def TCG_OPF_64BIT 1 1 0
  | INDEX_op_deposit w => mk_def (flag_of_type w) 1 2 2
  | INDEX_op_setcond w => mk_def (flag_of_type w) 1 2 1
  | INDEX_op_brcond w => mk_def (Z.lor TCG_OPF_BB_END (flag_of_type w)) 0 2 2
  | INDEX_op_movcond w => mk_def (flag_of_type w) 1 4 1
  | INDEX_op_add2_i32 | INDEX_op_sub2_i32 => mk_def 0 2 4 0
  | INDEX_op_mulu2_i32 => mk_def 0 2 2 0
  | INDEX_op_brcond2_i32 => mk_def TCG_OPF_BB_END 0 4 2
  | INDEX_op_setcond2_i32 => mk_def 0 1 4 1
  | INDEX_op_other n => mk_def 0 0 n 0
  end.

(** The arrays at entry for a stream given as two lists, in an otherwise
    zeroed memory. *)
Definition load (ops : list TCGOpcode) (params : list TCGArg) : opt_state :=
  {| temps := fun _ => zero_info;
     gen_opc_buf := fun i => nth i ops INDEX_op_nop;
     opparam := fun i => nth i params 0;
     args := 0; gen_args := 0; op_index := 0 |}.

(** The opcodes and the arguments the pass leaves behind. *)
Definition out_ops (nb_ops : nat) (st : opt_state) : list TCGOpcode :=
  map (gen_opc_buf st) (seq 0 nb_ops).

Definition out_args (st : opt_state) : list TCGArg :=
  map (opparam st) (seq 0 (gen_args st)).

Definition optimize_stream (bits : Z) (s : TCGContext)
    (ops : list TCGOpcode) (params : list TCGArg)
    : result (list TCGOpcode * list TCGArg) :=
  st <- tcg_optimize bits std_op_defs s (length ops) (load ops params) ;;
  Ok (out_ops (length ops) st, out_args st).

(** A context of [n] temps of 32 bits, the first [g] of them global. *)
Definition ctx32 (n g : Z) : TCGContext :=
  {| nb_temps := n; nb_globals := g;
     temp_type := fun _ => TCG_TYPE_I32; temp_local := fun _ => false |}.

(** ** The folding algebra as the specification states it (section 4.D)

    These definitions follow the words of the specification, at the width
    [w] of the operation, and are compared with the code below. *)

(** Sign extension of the low [n] bits of [x] to [w] bits. *)
Definition sign_extend (n w x : Z) : Z :=
  Z.land x (Z.ones n) + (if Z.testbit x (n - 1) then 2 ^ w - 2 ^ n else 0).

(** Zero extension: the low [n] bits of [x], the upper bits cleared. *)
Definition zero_extend (n x : Z) : Z := Z.land x (Z.ones n).

(** The value of an operation of the families add/sub/mul, the bitwise
    ones, not/neg and the extensions on constants [x] and [y]. *)
Definition spec_fold (op : TCGOpcode) (w x y : Z) : option Z :=
  match op with
  | INDEX_op_add _ => Some ((x + y) mod 2 ^ w)
  | INDEX_op_sub _ => Some ((x - y) mod 2 ^ w)
  | INDEX_op_mul _ => Some ((x * y) mod 2 ^ w)
  | INDEX_op_and _ => Some (Z.land x y mod 2 ^ w)
  | INDEX_op_or _ => Some (Z.lor x y mod 2 ^ w)
  | INDEX_op_xor _ => Some (Z.lxor x y mod 2 ^ w)
  | INDEX_op_andc _ => Some (Z.land x (Z.lnot y) mod 2 ^ w)
  | INDEX_op_orc _ => Some (Z.lor x (Z.lnot y) mod 2 ^ w)
  | INDEX_op_eqv _ => Some (Z.lnot (Z.lxor x y) mod 2 ^ w)
  | INDEX_op_nand _ => Some (Z.lnot (Z.land x y) mod 2 ^ w)
  | INDEX_op_nor _ => Some (Z.lnot (Z.lor x y) mod 2 ^ w)
  | INDEX_op_not _ => Some (Z.lnot x mod 2 ^ w)
  | INDEX_op_neg _ => Some ((- x) mod 2 ^ w)
  | INDEX_op_ext8s _ => Some (sign_extend 8 w x)
  | INDEX_op_ext16s _ => Some (sign_extend 16 w x)
  | INDEX_op_ext32s_i64 => Some (sign_extend 32 w x)
  | INDEX_op_ext8u _ => Some (zero_extend 8 x)
  | INDEX_op_ext16u _ => Some (zero_extend 16 x)
  | INDEX_op_ext32u_i64 => Some (zero_extend 32 x)
  | _ => None
  end.


(** The answer of a comparison of a value with itself, which depends on
    the predicate only: 1 for [EQ], [GE], [GEU], [LE], [LEU] and 0 for
    [NE], [LT], [LTU], [GT], [GTU]. *)
Definition cond_on_equal (c : TCGCond) : TCGArg :=
  match c with
  | TCG_COND_EQ | TCG_COND_GE | TCG_COND_GEU | TCG_COND_LE | TCG_COND_LEU => 1
  | TCG_COND_NE | TCG_COND_LT | TCG_COND_LTU | TCG_COND_GT | TCG_COND_GTU => 0
  end.

(** ** The run-time meaning of a stream

    Modelled from the spec: what executing operations does to the values
    of the temps (the code that executes a stream is generated by the
    backends and is not among the sources).  [movi] and [mov] write a
    constant and a copy, the arithmetic families compute [spec_fold] at
    their width, [setcond] writes 1 or 0 for a comparison at its width and
    [setcond2] for a comparison of two 64-bit values given in halves.
    Operations outside this fragment have no meaning here. *)

Definition spec_compare (n : Z) (c : TCGCond) (x y : Z) : bool :=
  match c with
  | TCG_COND_EQ => to_uint n x =? to_uint n y
  | TCG_COND_NE => negb (to_uint n x =? to_uint n y)
  | TCG_COND_LT => to_int n x <? to_int n y
  | TCG_COND_GE => to_int n y <=? to_int n x
  | TCG_COND_LE => to_int n x <=? to_int n y
  | TCG_COND_GT => to_int n y <? to_int n x
  | TCG_COND_LTU => to_uint n x <? to_uint n y
  | TCG_COND_GEU => to_uint n y <=? to_uint n x
  | TCG_COND_LEU => to_uint n x <=? to_uint n y
  | TCG_COND_GTU => to_uint n y <? to_uint n x
  end.

Definition env : Type := TCGArg -> Z.

Definition env_set (e : env) (t : TCGArg) (v : Z) : env :=
  fun u => if u =? t then v else e u.

Definition exec_op (op : TCGOpcode) (a : list TCGArg) (e : env) : option env :=
  let w := op_bits std_op_defs op in
  match op, a with
  | INDEX_op_nop, [] => Some e
  | INDEX_op_movi _, [d; v] => Some (env_set e d (v mod 2 ^ w))
  | INDEX_op_mov _, [d; x] => Some (env_set e d (e x))
  | INDEX_op_setcond _, [d; x; y; c] =>
      match cond_of_arg c with
      | Some c => Some (env_set e d (if spec_compare w c (e x) (e y) then 1 else 0))
      | None => None
      end
  | INDEX_op_setcond2_i32, [d; al; ah; bl; bh; c] =>
      match cond_of_arg c with
      | Some c =>
          let x := to_uint 32 (e ah) * 2 ^ 32 + to_uint 32 (e al) in
          let y := to_uint 32 (e bh) * 2 ^ 32 + to_uint 32 (e bl) in
          Some (env_set e d (if spec_compare 64 c x y then 1 else 0))
      | None => None
      end
  | _, [d; x] =>
      match spec_fold op w (e x) 0 with
      | Some v => Some (env_set e d v)
      | None => None
      end
  | _, [d; x; y] =>
      match spec_fold op w (e x) (e y) with
      | Some v => Some (env_set e d v)
      | None => None
      end
  | _, _ => None
  end.

(** Executing a stream: each operation takes as many arguments as the
    table says. *)
Fixpoint exec_stream (ops : list TCGOpcode) (params : list TCGArg) (e : env)
    : option env :=
  match ops with
  | [] => Some e
  | op :: ops' =>
      let n := nb_args (std_op_defs op) in
      match exec_op op (firstn n params) e with
      | Some e' => exec_stream ops' (skipn n params) e'
      | None => None
      end
  end.

(** A stream that compares a 64-bit value with zero into a temp that held
    a constant, and then copies that temp into the global 0. *)
Definition setcond2_stream : list TCGOpcode * list TCGArg :=
  ([INDEX_op_movi_i32; INDEX_op_movi_i32; INDEX_op_movi_i32;
    INDEX_op_setcond2_i32; INDEX_op_mov_i32],
   [1; 7;  2; 0;  3; 0;  1; 4; 5; 2; 3; arg_of_cond TCG_COND_LT;  0; 1]).

(** [movi t1, 5; and_i32 t2, t1, t1] *)
Definition and_const_stream : list TCGOpcode * list TCGArg :=
  ([INDEX_op_movi_i32; INDEX_op_and_i32], [1; 5;  2; 1; 1]).

(** ** Well-formed rings and streams *)

(** The links of every temp below [n] that is in [COPY] state lead to
    temps below [n] in [COPY] state and are inverse to each other. *)
Definition ring_ok (n : Z) (tb : temp_table) : Prop :=
  forall t, 0 <= t < n -> state (tb t) = TCG_TEMP_COPY ->
    0 <= next_copy (tb t) < n
    /\ 0 <= prev_copy (tb t) < n
    /\ state (tb (next_copy (tb t))) = TCG_TEMP_COPY
    /\ state (tb (prev_copy (tb t))) = TCG_TEMP_COPY
    /\ prev_copy (tb (next_copy (tb t))) = t
    /\ next_copy (tb (prev_copy (tb t))) = t.


(** [walk tb m t]: the temp reached from [t] after [m] steps along the
    [next_copy] links. *)
Definition walk (tb : temp_table) (m : nat) (t : TCGArg) : TCGArg :=
  Nat.iter m (fun u => next_copy (tb u)) t.

(** The arities of the opcodes the pass names are those of the table
    above (their flags are free); any other opcode has its outputs and
    inputs among its arguments. *)
Definition arity_ok (defs : TCGOpcode -> TCGOpDef) : Prop :=
  forall op,
    match op with
    | INDEX_op_call => True
    | INDEX_op_other _ =>
        (nb_oargs (defs op) + nb_iargs (defs op) <= nb_args (defs op))%nat
    | _ => nb_oargs (defs op) = nb_oargs (std_op_defs op)
           /\ nb_iargs (defs op) = nb_iargs (std_op_defs op)
           /\ nb_args (defs op) = nb_args (std_op_defs op)
    end.

Definition temp_in_range (n : Z) (x : TCGArg) : bool := (0 <=? x) && (x <? n).

(** The argument slots of the operation [op] at offset [pos] that hold
    temps (its outputs and inputs) hold temps below [n]. *)
Definition slots_in_range (defs : TCGOpcode -> TCGOpDef) (n : Z)
    (op : TCGOpcode) (buf : nat -> TCGArg) (pos : nat) : bool :=
  match op with
  | INDEX_op_call =>
      match call_counts (buf pos) with
      | Ok (o, i) =>
          forallb (fun j => temp_in_range n (buf (pos + 1 + j)%nat)) (seq 0 (o + i))
      | Err _ => true
      end
  | _ =>
      forallb (fun j => temp_in_range n (buf (pos + j)%nat))
              (seq 0 (nb_oargs (defs op) + nb_iargs (defs op)))
  end.

(** The number of arguments of the operation [op] at offset [pos]. *)
Definition op_len (defs : TCGOpcode -> TCGOpDef) (op : TCGOpcode)
    (buf : nat -> TCGArg) (pos : nat) : nat :=
  match op with
  | INDEX_op_call =>
      match call_counts (buf pos) with
      | Ok (o, i) => (o + i + 3)%nat
      | Err _ => 0%nat
      end
  | _ => nb_args (defs op)
  end.

(** A well-formed stream: [count] operations from index [k] on, with
    their arguments from offset [pos] on, name temps of the context only. *)
Fixpoint wf_stream (defs : TCGOpcode -> TCGOpDef) (n : Z)
    (opc : nat -> TCGOpcode) (buf : nat -> TCGArg) (count k pos : nat) : bool :=
  match count with
  | O => true
  | S count' =>
      slots_in_range defs n (opc k) buf pos
      && wf_stream defs n opc buf count' (S k) (pos + op_len defs (opc k) buf pos)
  end.

(** A turn of the loop moves the read cursor at least as far as the write
    cursor, and moves [op_index] forward. *)
Definition advanced (st st' : opt_state) : Prop :=
  (gen_args st' + args st <= args st' + gen_args st)%nat
  /\ (gen_args st <= gen_args st')%nat
  /\ (op_index st < op_index st')%nat.

(** The argument slots selected by [P] hold temps below [n]. *)
Definition slots_ok (n : Z) (P : nat -> Prop) (st : opt_state) : Prop :=
  forall j, P j -> 0 <= arg st j < n.

(** What a turn of the loop on an operation of [len] arguments leaves of
    the buffers: the arguments from the new read cursor on and the opcodes
    from the new [op_index] on are untouched, and [op_index] moves by one,
    or by two over a nop. *)
Definition framed (st st' : opt_state) (len : nat) : Prop :=
  args st' = (args st + len)%nat
  /\ (forall p, (args st' <= p)%nat -> opparam st' p = opparam st p)
  /\ (forall j, (op_index st' <= j)%nat -> gen_opc_buf st' j = gen_opc_buf st j)
  /\ (op_index st' = (op_index st + 1)%nat
      \/ (op_index st' = (op_index st + 2)%nat
          /\ gen_opc_buf st (op_index st + 1) = INDEX_op_nop)).

(** The loop invariant: well-formed rings, the write cursor not ahead of
    the read cursor, and a well-formed rest of the stream. *)
Definition loop_inv (defs : TCGOpcode -> TCGOpDef) (n : Z) (nb : nat)
    (st : opt_state) : Prop :=
  ring_ok n (temps st)
  /\ (gen_args st <= args st)%nat
  /\ wf_stream defs n (gen_opc_buf st) (opparam st)
       (nb - op_index st) (op_index st) (args st) = true.

(** ** Notions that the further properties are stated with *)

(** The double word with high half [h] and low half [l]. *)
Definition pair64 (h l : Z) : Z := to_uint 32 h * 2 ^ 32 + to_uint 32 l.

(** The table is true of the values [e] that the first [n] temps hold at
    run time: a constant holds its value and copies hold the same value. *)
Definition agrees (n : Z) (tb : temp_table) (e : env) : Prop :=
  (forall t, 0 <= t < n -> state (tb t) = TCG_TEMP_CONST -> e t = val (tb t))
  /\ (forall x y, 0 <= x < n -> 0 <= y < n ->
        temps_are_copies tb x y = Ok true -> e x = e y).

(** [x] and [y] are the same temp or members of one ring of copies. *)
Definition same_ring (tb : temp_table) (x y : TCGArg) : Prop :=
  x = y
  \/ (state (tb x) = TCG_TEMP_COPY /\ state (tb y) = TCG_TEMP_COPY
      /\ exists m, walk tb m x = y).

(** The two-operand families that the folder evaluates without a shift. *)
Definition is_binary_arith (op : TCGOpcode) : bool :=
  match op with
  | INDEX_op_add _ | INDEX_op_sub _ | INDEX_op_mul _ | INDEX_op_and _
  | INDEX_op_or _ | INDEX_op_xor _ | INDEX_op_andc _ | INDEX_op_orc _
  | INDEX_op_eqv _ | INDEX_op_nand _ | INDEX_op_nor _ => true
  | _ => false
  end.

(** The two families with the rule [op r, a, a => mov r, a]. *)
Definition is_and_or (op : TCGOpcode) : bool :=
  match op with
  | INDEX_op_and _ | INDEX_op_or _ => true
  | _ => false
  end.

(** The one-operand families that the folder evaluates. *)
Definition is_unary_arith (op : TCGOpcode) : bool :=
  match op with
  | INDEX_op_not _ | INDEX_op_neg _ | INDEX_op_ext8s _ | INDEX_op_ext8u _
  | INDEX_op_ext16s _ | INDEX_op_ext16u _
  | INDEX_op_ext32s_i64 | INDEX_op_ext32u_i64 => true
  | _ => false
  end.

(** The operations for which a zero second operand changes nothing. *)
Definition has_right_identity_zero (op : TCGOpcode) : bool :=
  match op with
  | INDEX_op_add _ | INDEX_op_sub _ | INDEX_op_shl _ | INDEX_op_shr _
  | INDEX_op_sar _ | INDEX_op_rotl _ | INDEX_op_rotr _ | INDEX_op_or _
  | INDEX_op_xor _ => true
  | _ => false
  end.

(** ** The instruction cache of a SPARC host

    [flush_icache_range] of tcg/sparc/tcg-target.h.  An [unsigned long]
    and a [tcg_target_ulong] have the [bits] of a host register; the
    [flush] instruction is seen as the address it is given, and the
    function as the list of the addresses flushed, in order. *)

(** [for (; p < stop; p += 8) flush(p);] *)
Fixpoint flush_loop (fuel : nat) (bits p stop : Z) : result (list Z) :=
  if p <? stop then
    match fuel with
    | O => Err no_termination
    | S fuel' =>
        r <- flush_loop fuel' bits (to_uint bits (p + 8)) stop ;;
        Ok (p :: r)
    end
  else Ok [].

Definition flush_icache_range (bits start stop : Z) : result (list Z) :=
  let p := Z.land start (to_uint bits (Z.lnot (to_uint bits (8 - 1)))) in
  let stop := Z.land (to_uint bits (stop + to_uint bits (8 - 1)))
                     (to_uint bits (Z.lnot (to_uint bits (8 - 1)))) in
  (* the distance to [stop] bounds the number of turns *)
  flush_loop (Z.to_nat (stop - p)) bits p stop.

(** ** Asynchronous file I/O on Windows

    [win32_aio_submit], [win32_aio_process_completion] and
    [win32_aio_flush_cb] of block/win32-aio.c.  Memory is seen as the
    bytes it holds: an I/O vector is the list of the contents of its
    elements, a buffer the list of its bytes.  What the operating system
    and the rest of QEMU answer ([qemu_blockalign], [ReadFile],
    [WriteFile], [GetLastError], [event_notifier_get_handle],
    [qemu_iovec_memset]) is given to the functions as arguments. *)

Module Win32.

(** An [int] and an [int64_t] that an arithmetic result must fit. *)
Definition int_ok (x : Z) : bool := (- 2 ^ 31 <=? x) && (x <? 2 ^ 31).
Definition int64_ok (x : Z) : bool := (- 2 ^ 63 <=? x) && (x <? 2 ^ 63).

Record QEMUIOVector : Type := {
  iov : list (list Z);     (* the iov_len bytes at each iov_base *)
  size : Z                 (* qiov->size *)
}.

Definition niov (q : QEMUIOVector) : Z := Z.of_nat (length (iov q)).

Record OVERLAPPED : Type := {
  Internal : Z;
  Offset : Z;              (* DWORD *)
  OffsetHigh : Z;          (* DWORD *)
  hEvent : Z
}.

Record QEMUWin32AIOState : Type := {
  hIOCP : Z;
  count : Z                (* int *)
}.

Record QEMUWin32AIOCB : Type := {
  nbytes : Z;              (* int *)
  ov : OVERLAPPED;
  qiov : QEMUIOVector;
  buf : list Z;
  is_read : bool;
  is_linear : bool
}.

(** [memcpy(buf + off, src, len)]: writing past the end of [buf] is
    undefined. *)
Definition memcpy_at (b : list Z) (off : nat) (src : list Z) : result (list Z) :=
  if (off + length src <=? length b)%nat then
    Ok (firstn off b ++ src ++ skipn (off + length src) b)
  else Err undefined_behaviour.

(** [p = buf; for (i = 0; i < qiov->niov; ++i) {
       memcpy(p, qiov->iov[i].iov_base, qiov->iov[i].iov_len);
       p += qiov->iov[i].iov_len; }] *)
Fixpoint gather (v : list (list Z)) (off : nat) (b : list Z) : result (list Z) :=
  match v with
  | [] => Ok b
  | e :: v' => b' <- memcpy_at b off e ;; gather v' (off + length e) b'
  end.

(** The operating system call that a submission ends in. *)
Inductive io_call : Type :=
| ReadFile (b : list Z) (n : Z) (o : OVERLAPPED)
| WriteFile (b : list Z) (n : Z) (o : OVERLAPPED).

Definition call_buf (c : io_call) : list Z :=
  match c with ReadFile b _ _ | WriteFile b _ _ => b end.

Definition call_len (c : io_call) : Z :=
  match c with ReadFile _ n _ | WriteFile _ n _ => n end.

Definition call_ov (c : io_call) : OVERLAPPED :=
  match c with ReadFile _ _ o | WriteFile _ _ o => o end.

(** What the environment answers during a submission. *)
Record submit_env : Type := {
  blockalign : list Z;     (* the memory that qemu_blockalign returns *)
  event_handle : Z;        (* event_notifier_get_handle(&aio->e) *)
  rc : Z;                  (* the result of ReadFile or WriteFile *)
  last_error : Z           (* GetLastError() *)
}.

Section Submit.

Variables QEMU_AIO_READ QEMU_AIO_WRITE ERROR_IO_PENDING : Z.

Definition win32_aio_submit (aio : QEMUWin32AIOState) (sector_num : Z)
    (q : QEMUIOVector) (nb_sectors : Z) (type : Z) (env : submit_env)
    : result (QEMUWin32AIOState * io_call * option QEMUWin32AIOCB) :=
  offset <- (if int64_ok (sector_num * 512)
             then Ok (to_uint 64 (sector_num * 512))
             else Err undefined_behaviour) ;;
  n <- (if int_ok (nb_sectors * 512) then Ok (nb_sectors * 512)
        else Err undefined_behaviour) ;;
  bl <- (if niov q >? 1 then
           b <- (if negb (Z.land type QEMU_AIO_WRITE =? 0)
                 then gather (iov q) 0 (blockalign env)
                 else Ok (blockalign env)) ;;
           Ok (b, false)
         else
           (* buf = qiov->iov[0].iov_base *)
           match iov q with
           | e :: _ => Ok (e, true)
           | [] => Err undefined_behaviour
           end) ;;
  let o := {| Internal := 0;
              Offset := to_uint 32 offset;
              OffsetHigh := to_uint 32 (Z.shiftr offset 32);
              hEvent := event_handle env |} in
  let waiocb := {| nbytes := n; ov := o; qiov := q; buf := fst bl;
                   is_read := type =? QEMU_AIO_READ; is_linear := snd bl |} in
  c <- (if int_ok (count aio + 1) then Ok (count aio + 1)
        else Err undefined_behaviour) ;;
  let call := if negb (Z.land type QEMU_AIO_READ =? 0)
              then ReadFile (fst bl) n o else WriteFile (fst bl) n o in
  if (rc env =? 0) && negb (last_error env =? ERROR_IO_PENDING) then
    (* out_dec_count *)
    Ok ({| hIOCP := hIOCP aio; count := c - 1 |}, call, None)
  else
    Ok ({| hIOCP := hIOCP aio; count := c |}, call, Some waiocb).

End Submit.

Definition win32_aio_flush_cb (s : QEMUWin32AIOState) : Z :=
  if count s >? 0 then 1 else 0.

(** What a completion does besides calling the callback with [ret] and
    releasing the request. *)
Record completion : Type := {
  ret : Z;
  cb_qiov : QEMUIOVector;          (* the vector when the callback runs *)
  freed : option (list Z)          (* the bounce buffer given to g_free *)
}.

Section Completion.

Variables EIO EINVAL : Z.
Variable SIZE_BITS : Z.            (* the width of a size_t *)
Variable qemu_iovec_memset : QEMUIOVector -> Z -> Z -> Z -> QEMUIOVector.

Definition win32_aio_process_completion (s : QEMUWin32AIOState)
    (waiocb : QEMUWin32AIOCB) (cnt : Z)
    : result (QEMUWin32AIOState * completion) :=
  c <- (if int_ok (count s - 1) then Ok (count s - 1)
        else Err undefined_behaviour) ;;
  let s' := {| hIOCP := hIOCP s; count := c |} in
  let '(r, q) :=
    if negb (Internal (ov waiocb) =? 0) then (- EIO, qiov waiocb)
    else if cnt <? to_uint 32 (nbytes waiocb) then
      (* Short reads mean EOF, pad with zeros. *)
      if is_read waiocb then
        (0, qemu_iovec_memset (qiov waiocb) cnt 0
              (to_uint SIZE_BITS (size (qiov waiocb) - cnt)))
      else (- EINVAL, qiov waiocb)
    else (0, qiov waiocb) in
  if negb (is_linear waiocb) && (r =? 0) && is_read waiocb then
    b <- gather (iov q) 0 (buf waiocb) ;;
    Ok (s', {| ret := r; cb_qiov := q; freed := Some b |})
  else Ok (s', {| ret := r; cb_qiov := q; freed := None |}).

End Completion.

End Win32.

(** ** Concrete tables and requests *)

(** A table in which temp 1 holds the constant 5, temp 2 the constant 7
    and temp 3 the constant 0, and nothing else is known. *)
Definition const_table : temp_table :=
  set_state
    (set_val (set_state
               (set_val (set_state (fun _ => zero_info) 1 TCG_TEMP_CONST) 1 5)
               2 TCG_TEMP_CONST) 2 7)
    3 TCG_TEMP_CONST.

(** A table in which temps 1 and 2 are copies of each other. *)
Definition copy_table : temp_table := link_copy (fun _ => zero_info) 2 1.

(** The state of the driver in front of one operation, with a table. *)
Definition before (tb : temp_table) (op : TCGOpcode) (params : list TCGArg)
    : opt_state :=
  set_temps (load [op] params) tb.

(** A request to write two sectors at sector 2 ^ 23 + 1 from a vector of
    two elements, which the operating system takes. *)
Definition sample_env : Win32.submit_env :=
  {| Win32.blockalign := [0; 0; 0]; Win32.event_handle := 7;
     Win32.rc := 0; Win32.last_error := 997 |}.

Definition sample_qiov : Win32.QEMUIOVector :=
  {| Win32.iov := [[1; 2]; [3]]; Win32.size := 3 |}.

Definition sample_aio : Win32.QEMUWin32AIOState :=
  {| Win32.hIOCP := 1; Win32.count := 0 |}.

(** * Properties *)

(** ** Arithmetic of words *)

Lemma mask32_ones : 4294967295 = Z.ones 32.
Proof. reflexivity. Qed.

Lemma mod_mod_pow2 a n m : 0 <= n <= m -> (a mod 2 ^ m) mod 2 ^ n = a mod 2 ^ n.
Proof.
  intros H. apply Z.bits_inj'. intros i Hi.
  rewrite !Z.testbit_mod_pow2 by lia.
  destruct (Z.ltb_spec i n), (Z.ltb_spec i m); try reflexivity; lia.
Qed.

Lemma mod_pow2_small a n m : 0 <= n <= m -> (a mod 2 ^ n) mod 2 ^ m = a mod 2 ^ n.
Proof.
  intros H. apply Z.bits_inj'. intros i Hi.
  rewrite !Z.testbit_mod_pow2 by lia.
  destruct (Z.ltb_spec i n), (Z.ltb_spec i m); try reflexivity; lia.
Qed.

Lemma testbit_high x n i : 0 <= x < 2 ^ n -> 0 <= n <= i -> Z.testbit x i = false.
Proof.
  intros Hx Hi. rewrite <- (Z.mod_small x (2 ^ n)) by lia.
  apply Z.mod_pow2_bits_high. lia.
Qed.

Lemma land_mod_l x y n : 0 <= n -> 0 <= x < 2 ^ n -> Z.land x y mod 2 ^ n = Z.land x y.
Proof.
  intros Hn Hx. apply Z.bits_inj'. intros i Hi.
  rewrite Z.testbit_mod_pow2, Z.land_spec by lia.
  destruct (Z.ltb_spec i n); [reflexivity|].
  rewrite (testbit_high x n i) by lia. reflexivity.
Qed.

Lemma lor_mod x y n : 0 <= n -> 0 <= x < 2 ^ n -> 0 <= y < 2 ^ n ->
  Z.lor x y mod 2 ^ n = Z.lor x y.
Proof.
  intros Hn Hx Hy. apply Z.bits_inj'. intros i Hi.
  rewrite Z.testbit_mod_pow2, Z.lor_spec by lia.
  destruct (Z.ltb_spec i n); [reflexivity|].
  rewrite (testbit_high x n i), (testbit_high y n i) by lia. reflexivity.
Qed.

Lemma lxor_mod x y n : 0 <= n -> 0 <= x < 2 ^ n -> 0 <= y < 2 ^ n ->
  Z.lxor x y mod 2 ^ n = Z.lxor x y.
Proof.
  intros Hn Hx Hy. apply Z.bits_inj'. intros i Hi.
  rewrite Z.testbit_mod_pow2, Z.lxor_spec by lia.
  destruct (Z.ltb_spec i n); [reflexivity|].
  rewrite (testbit_high x n i), (testbit_high y n i) by lia. reflexivity.
Qed.

Lemma land_mod_r x y n : 0 <= n -> Z.land x (y mod 2 ^ n) = Z.land x y mod 2 ^ n.
Proof.
  intros Hn. apply Z.bits_inj'. intros i Hi.
  rewrite Z.land_spec, !Z.testbit_mod_pow2, Z.land_spec by lia.
  destruct (i <? n), (Z.testbit x i), (Z.testbit y i); reflexivity.
Qed.

Lemma lor_mod_r x y n : 0 <= n -> 0 <= x < 2 ^ n ->
  Z.lor x (y mod 2 ^ n) = Z.lor x y mod 2 ^ n.
Proof.
  intros Hn Hx. apply Z.bits_inj'. intros i Hi.
  rewrite Z.lor_spec, !Z.testbit_mod_pow2, Z.lor_spec by lia.
  destruct (Z.ltb_spec i n).
  - reflexivity.
  - rewrite (testbit_high x n i) by lia. reflexivity.
Qed.

(** The C cast to a signed type of [n] bits, seen from a width [w]. *)
Lemma to_int_sign_extend n w x : 0 < n <= w ->
  to_int n x mod 2 ^ w = sign_extend n w x.
Proof.
  intros H. unfold to_int, sign_extend.
  rewrite Z.land_ones by lia.
  assert (Hn : 0 < 2 ^ n) by (apply Z.pow_pos_nonneg; lia).
  assert (Hn1 : 0 < 2 ^ (n - 1)) by (apply Z.pow_pos_nonneg; lia).
  assert (Hw : 2 ^ n <= 2 ^ w) by (apply Z.pow_le_mono_r; lia).
  assert (E : 2 ^ n = 2 * 2 ^ (n - 1)).
  { rewrite <- Z.pow_succ_r by lia. f_equal. lia. }
  pose proof (Z.mod_pos_bound x (2 ^ n) Hn) as Hu.
  assert (Hb : Z.testbit x (n - 1) = negb (x mod 2 ^ n <? 2 ^ (n - 1))).
  { rewrite <- (Z.mod_pow2_bits_low x n (n - 1)) by lia.
    rewrite Z.testbit_eqb by lia.
    destruct (Z.ltb_spec (x mod 2 ^ n) (2 ^ (n - 1))).
    - rewrite Z.div_small by lia. reflexivity.
    - replace ((x mod 2 ^ n) / 2 ^ (n - 1)) with 1; [reflexivity|].
      apply Z.div_unique with (r := x mod 2 ^ n - 2 ^ (n - 1)); lia. }
  rewrite Hb. destruct (Z.ltb_spec (x mod 2 ^ n) (2 ^ (n - 1))); simpl.
  - rewrite Z.mod_small by lia. lia.
  - rewrite <- (Z_mod_plus_full _ 1). rewrite Z.mod_small by lia. lia.
Qed.

Lemma sign_extend_range n w x : 0 < n <= w -> 0 <= sign_extend n w x < 2 ^ w.
Proof.
  intros H. rewrite <- to_int_sign_extend by lia. apply Z.mod_pos_bound.
  apply Z.pow_pos_nonneg; lia.
Qed.

Lemma op_bits_cases defs op : op_bits defs op = 32 \/ op_bits defs op = 64.
Proof. unfold op_bits. destruct (_ =? 0); auto. Qed.

Section Folding.

Variable bits : Z.
Variable defs : TCGOpcode -> TCGOpDef.
Hypothesis bits_ok : bits = 32 \/ bits = 64.

Let w (op : TCGOpcode) : Z := op_bits defs op.

(** The value that [do_constant_folding] returns once the inner function
    returned [r]: [r] reduced to the operation's width. *)
Lemma fold_mask op r :
  w op <= bits -> 0 <= r < 2 ^ bits ->
  (if w op =? 32 then Ok (Z.land r 4294967295) else Ok r)
  = @Ok Z (r mod 2 ^ w op).
Proof.
  intros Hw Hr. destruct (op_bits_cases defs op) as [E|E]; unfold w in *; rewrite E in *; simpl.
  - rewrite mask32_ones, Z.land_ones by lia. reflexivity.
  - assert (bits = 64) by lia. subst bits. rewrite Z.mod_small by lia. reflexivity.
Qed.

(** C2: for every opcode of the families add/sub/mul, and/or/xor/andc/orc/
    eqv/nand/nor, not/neg and the sign and zero extensions, and all
    constants [x] and [y], [do_constant_folding] returns the value the
    specification defines at the width of the opcode; in particular the
    result is reduced to 32 bits when the opcode's declared width is 32.
    A 64-bit operation exists on a 64-bit host only. *)
Theorem do_constant_folding_spec op x y v :
  w op <= bits ->
  0 <= x < 2 ^ bits -> 0 <= y < 2 ^ bits ->
  spec_fold op (w op) x y = Some v ->
  do_constant_folding bits defs op x y = Ok v /\ 0 <= v < 2 ^ w op.
Proof.
  intros Hw Hx Hy Hs.
  assert (Hb : 0 < 2 ^ bits) by (apply Z.pow_pos_nonneg; lia).
  assert (Hwp : 0 < 2 ^ w op) by (apply Z.pow_pos_nonneg; destruct (op_bits_cases defs op); unfold w; lia).
  assert (Hw0 : 0 <= w op <= bits) by (destruct (op_bits_cases defs op); unfold w in *; lia).
  assert (H32 : 32 <= w op) by (destruct (op_bits_cases defs op); unfold w in *; lia).
  assert (Hfold : forall r e, 0 <= r < 2 ^ bits -> r mod 2 ^ w op = e ->
     (if op_bits defs op =? 32 then Ok (Z.land r 4294967295) else Ok r) = @Ok Z e /\ 0 <= e < 2 ^ w op).
  { intros r e Hr He. split.
    - fold (w op). rewrite fold_mask by assumption. congruence.
    - subst e. apply Z.mod_pos_bound. assumption. }
  unfold do_constant_folding.
  destruct op; simpl in Hs; try discriminate; injection Hs as <-;
    simpl; unfold wrap, zero_extend, to_uint; apply Hfold;
    try (apply Z.mod_pos_bound; assumption);
    rewrite ?mod_mod_pow2 by lia; try reflexivity.
  all: try (rewrite <- to_int_sign_extend by lia; reflexivity).
  all: try (rewrite ?Z.land_ones by lia; rewrite ?mod_mod_pow2 by lia).
  - rewrite <- (land_mod_l x y bits) by lia. apply Z.mod_pos_bound; lia.
  - rewrite <- (lor_mod x y bits) by lia. apply Z.mod_pos_bound; lia.
  - rewrite <- (lxor_mod x y bits) by lia. apply Z.mod_pos_bound; lia.
  - rewrite <- (land_mod_l x _ bits) by lia. apply Z.mod_pos_bound; lia.
  - rewrite land_mod_r by lia. rewrite mod_mod_pow2 by lia. reflexivity.
  - rewrite lor_mod_r by lia. apply Z.mod_pos_bound; lia.
  - rewrite lor_mod_r by lia. rewrite mod_mod_pow2 by lia. reflexivity.
  - apply mod_pow2_small. lia.
  - apply mod_pow2_small. lia.
  - apply mod_pow2_small. lia.
Qed.
End Folding.

Lemma do_constant_folding_spec_witness :
  do_constant_folding 64 std_op_defs (INDEX_op_sub TCG_TYPE_I32) 3 5
    = Ok 4294967294
  /\ 0 <= 4294967294 < 2 ^ op_bits std_op_defs (INDEX_op_sub TCG_TYPE_I32).
Proof.
  assert (H1 : op_bits std_op_defs (INDEX_op_sub TCG_TYPE_I32) <= 64)
    by (vm_compute; intro; discriminate).
  assert (H2 : 0 <= 3 < 2 ^ 64) by lia.
  assert (H3 : 0 <= 5 < 2 ^ 64) by lia.
  assert (H4 : spec_fold (INDEX_op_sub TCG_TYPE_I32)
                 (op_bits std_op_defs (INDEX_op_sub TCG_TYPE_I32)) 3 5
               = Some 4294967294) by (vm_compute; reflexivity).
  exact (do_constant_folding_spec 64 std_op_defs (or_intror eq_refl)
           (INDEX_op_sub TCG_TYPE_I32) 3 5 4294967294 H1 H2 H3 H4).
Defined.

(** ** Rotations *)

(** C3, at a rotation amount of zero: the source shifts the other way by
    the whole width ([32 - 0] or [64 - 0]), which C leaves undefined, so
    folding [rotl] or [rotr] by zero has no defined result, on a host of
    either word size. *)
Theorem rotate_by_zero_undefined defs w x :
  do_constant_folding 32 defs (INDEX_op_rotl w) x 0 = Err undefined_behaviour
  /\ do_constant_folding 32 defs (INDEX_op_rotr w) x 0 = Err undefined_behaviour
  /\ do_constant_folding 64 defs (INDEX_op_rotl w) x 0 = Err undefined_behaviour
  /\ do_constant_folding 64 defs (INDEX_op_rotr w) x 0 = Err undefined_behaviour.
Proof.
  unfold do_constant_folding, do_constant_folding_2, c_shl, c_shr.
  destruct w; repeat split; reflexivity.
Qed.

Lemma testbit_range r n :
  0 <= n -> (forall i, n <= i -> Z.testbit r i = false) -> 0 <= r ->
  r mod 2 ^ n = r.
Proof.
  intros Hn H Hr. apply Z.bits_inj'. intros i Hi.
  rewrite Z.testbit_mod_pow2 by lia.
  destruct (Z.ltb_spec i n); [reflexivity|]. symmetry. apply H. lia.
Qed.

(** X1: for a rotation amount strictly between 0 and the width the fold
    is the rotation: bit [i] of the result of [rotl] is bit [i - y] of [x],
    and of [rotr] bit [i + y], counted modulo the width. *)
Lemma rotate_fold_nonzero bits defs w x y :
  bits = 32 \/ bits = 64 ->
  type_bits w <= bits ->
  op_bits defs (INDEX_op_rotl w) = type_bits w ->
  op_bits defs (INDEX_op_rotr w) = type_bits w ->
  0 < y < type_bits w ->
  exists rl rr,
    do_constant_folding bits defs (INDEX_op_rotl w) x y = Ok rl
    /\ do_constant_folding bits defs (INDEX_op_rotr w) x y = Ok rr
    /\ 0 <= rl < 2 ^ type_bits w /\ 0 <= rr < 2 ^ type_bits w
    /\ forall i, 0 <= i < type_bits w ->
         Z.testbit rl i = Z.testbit x ((i - y) mod type_bits w)
         /\ Z.testbit rr i = Z.testbit x ((i + y) mod type_bits w).
Proof.
  intros Hb Hw Hl Hr Hy.
  set (n := type_bits w) in *.
  assert (Hn : n = 32 \/ n = 64) by (destruct w; cbn in n; subst n; auto).
  assert (Hn0 : 0 < n) by lia.
  assert (Hwrap : wrap bits (n - y) = n - y).
  { unfold wrap. apply Z.mod_small. split; [lia|].
    assert (n < 2 ^ bits) by (destruct Hb as [-> | ->], Hn as [-> | ->]; cbn; lia).
    lia. }
  set (X := to_uint n x).
  set (rl := Z.lor (Z.shiftl X y mod 2 ^ n) (Z.shiftr X (n - y))).
  set (rr := Z.lor (Z.shiftl X (n - y) mod 2 ^ n) (Z.shiftr X y)).
  assert (HX : 0 <= X < 2 ^ n) by (apply Z.mod_pos_bound, Z.pow_pos_nonneg; lia).
  assert (Bl : forall i, 0 <= i ->
            Z.testbit rl i = (i <? n) && Z.testbit x ((i - y) mod n)).
  { intros i Hi. unfold rl, X, to_uint.
    rewrite Z.lor_spec, Z.testbit_mod_pow2, Z.shiftl_spec, Z.shiftr_spec by lia.
    rewrite !Z.testbit_mod_pow2 by lia.
    destruct (Z.ltb_spec i n).
    - destruct (Z.ltb_spec i y).
      + rewrite (Z.testbit_neg_r _ (i - y)) by lia.
        replace ((i - y) mod n) with (i + (n - y))
          by (apply Z.mod_unique with (q := -1); lia).
        destruct (Z.ltb_spec (i + (n - y)) n); [|lia].
        rewrite andb_false_r. reflexivity.
      + rewrite (Z.mod_small (i - y) n) by lia.
        destruct (Z.ltb_spec (i - y) n); [|lia].
        destruct (Z.ltb_spec (i + (n - y)) n); [lia|].
        cbn. rewrite orb_false_r. reflexivity.
    - cbn. destruct (Z.ltb_spec (i + (n - y)) n); [lia|]. reflexivity. }
  assert (Br : forall i, 0 <= i ->
            Z.testbit rr i = (i <? n) && Z.testbit x ((i + y) mod n)).
  { intros i Hi. unfold rr, X, to_uint.
    rewrite Z.lor_spec, Z.testbit_mod_pow2, Z.shiftl_spec, Z.shiftr_spec by lia.
    rewrite !Z.testbit_mod_pow2 by lia.
    destruct (Z.ltb_spec i n).
    - destruct (Z.ltb_spec (i + y) n).
      + rewrite (Z.testbit_neg_r _ (i - (n - y))) by lia.
        rewrite (Z.mod_small (i + y) n) by lia.
        rewrite andb_false_r. reflexivity.
      + replace ((i + y) mod n) with (i - (n - y))
          by (apply Z.mod_unique with (q := 1); lia).
        destruct (Z.ltb_spec (i - (n - y)) n); [|lia].
        cbn. rewrite orb_false_r. reflexivity.
    - cbn. destruct (Z.ltb_spec (i + y) n); [lia|]. reflexivity. }
  assert (Rl : 0 <= rl).
  { apply Z.lor_nonneg. split; [apply Z.mod_pos_bound; lia|].
    apply Z.shiftr_nonneg. lia. }
  assert (Rr : 0 <= rr).
  { apply Z.lor_nonneg. split; [apply Z.mod_pos_bound; lia|].
    apply Z.shiftr_nonneg. lia. }
  assert (Ml : rl mod 2 ^ n = rl).
  { apply testbit_range; try lia. intros i Hi. rewrite Bl by lia.
    destruct (Z.ltb_spec i n); [lia|reflexivity]. }
  assert (Mr : rr mod 2 ^ n = rr).
  { apply testbit_range; try lia. intros i Hi. rewrite Br by lia.
    destruct (Z.ltb_spec i n); [lia|reflexivity]. }
  assert (Pl : 0 <= rl < 2 ^ n) by (rewrite <- Ml; apply Z.mod_pos_bound; lia).
  assert (Pr : 0 <= rr < 2 ^ n) by (rewrite <- Mr; apply Z.mod_pos_bound; lia).
  assert (P2 : 2 ^ n <= 2 ^ bits) by (apply Z.pow_le_mono_r; lia).
  assert (Fin : forall op r, op_bits defs op = n -> 0 <= r < 2 ^ n ->
            (if op_bits defs op =? 32 then Ok (Z.land (wrap bits r) 4294967295)
             else Ok (wrap bits r)) = @Ok Z r).
  { intros op r Ho Hr'. unfold wrap. rewrite (Z.mod_small r (2 ^ bits)) by lia.
    rewrite Ho. destruct Hn as [E|E]; rewrite E in *; cbn.
    - rewrite mask32_ones, Z.land_ones by lia. rewrite Z.mod_small by lia.
      reflexivity.
    - reflexivity. }
  exists rl, rr.
  split.
  { unfold do_constant_folding, do_constant_folding_2, c_shl, c_shr.
    fold n. fold X. rewrite Hwrap.
    destruct (Z.leb_spec 0 y); [|lia]. destruct (Z.ltb_spec y n); [|lia].
    destruct (Z.leb_spec 0 (n - y)); [|lia]. destruct (Z.ltb_spec (n - y) n); [|lia].
    cbn [andb bind]. fold rl. apply Fin; assumption. }
  split.
  { unfold do_constant_folding, do_constant_folding_2, c_shl, c_shr.
    fold n. fold X. rewrite Hwrap.
    destruct (Z.leb_spec 0 y); [|lia]. destruct (Z.ltb_spec y n); [|lia].
    destruct (Z.leb_spec 0 (n - y)); [|lia]. destruct (Z.ltb_spec (n - y) n); [|lia].
    cbn [andb bind]. fold rr. apply Fin; assumption. }
  split; [exact Pl|]. split; [exact Pr|].
  intros i Hi. rewrite Bl, Br by lia.
  destruct (Z.ltb_spec i n); [|lia]. auto.
Qed.

(** ** Comparisons of copies *)

Lemma fold_cond_bits_same n v c :
  fold_cond_bits n v v (arg_of_cond c) = Ok (cond_on_equal c =? 1).
Proof.
  unfold fold_cond_bits.
  destruct c; simpl; unfold Z.geb, Z.gtb;
    rewrite ?Z.eqb_refl, ?Z.ltb_irrefl, ?Z.leb_refl, ?Z.compare_refl;
    reflexivity.
Qed.

Lemma cond_eq_on_equal c :
  do_constant_folding_cond_eq (arg_of_cond c) = Ok (cond_on_equal c =? 1).
Proof. destruct c; reflexivity. Qed.

Lemma of_bool_on_equal c : of_bool (cond_on_equal c =? 1) = cond_on_equal c.
Proof. destruct c; reflexivity. Qed.

(** Where [temps_are_copies] answers true the fold is the answer of the
    predicate alone, also when both arguments are the same constant. *)
Lemma fold_cond_of_copies defs tb op x y c :
  temps_are_copies tb x y = Ok true ->
  do_constant_folding_cond defs tb op x y (arg_of_cond c)
    = Ok (cond_on_equal c).
Proof.
  intros H. unfold do_constant_folding_cond.
  destruct (is_state tb x TCG_TEMP_CONST && is_state tb y TCG_TEMP_CONST) eqn:E.
  - assert (x = y) as <-.
    { unfold temps_are_copies in H.
      destruct (Z.eqb_spec x y); [assumption|].
      apply andb_true_iff in E as [Ex _].
      assert (is_state tb x TCG_TEMP_COPY = false) as Ec
        by (unfold is_state in *; destruct (state (tb x));
            (discriminate || reflexivity)).
      rewrite Ec in H. cbn [negb orb] in H. discriminate. }
    unfold do_constant_folding_cond_32, do_constant_folding_cond_64.
    destruct (op_bits_cases defs op) as [-> | ->];
      rewrite fold_cond_bits_same; simpl; rewrite of_bool_on_equal; reflexivity.
  - rewrite H. simpl. rewrite cond_eq_on_equal. simpl.
    rewrite of_bool_on_equal. reflexivity.
Qed.

(** ** Two streams on which the pass goes wrong *)

(** C9, which the code violates: on [movi t1, 5; and_i32 t2, t1, t1] the
    rule "op r, a, a => mov r, a" calls [tcg_opt_gen_mov] with the constant
    temp [t1] as source, and the assertion at its top fails. *)
Theorem gen_mov_assertion_fires :
  optimize_stream 32 (ctx32 8 1) (fst and_const_stream) (snd and_const_stream)
    = Err assert_failed
  /\ optimize_stream 64 (ctx32 8 1) (fst and_const_stream) (snd and_const_stream)
    = Err assert_failed.
Proof. split; vm_compute; reflexivity. Qed.

(** C1, which the code violates: the rewrite of [setcond2_i32] into
    [setcond_i32] leaves the old state of the destination in the table, so
    the later [mov t0, t1] becomes [movi t0, 7]; whatever the values at
    entry, the original stream leaves 0 or 1 in the global 0 and the
    rewritten stream leaves 7. *)
Theorem setcond2_breaks_semantics :
  let ops' := [INDEX_op_movi_i32; INDEX_op_movi_i32; INDEX_op_movi_i32;
               INDEX_op_setcond_i32; INDEX_op_movi_i32] in
  let params' := [1; 7;  2; 0;  3; 0;  1; 5; 3; arg_of_cond TCG_COND_LT;  0; 7] in
  optimize_stream 32 (ctx32 8 1) (fst setcond2_stream) (snd setcond2_stream)
    = Ok (ops', params')
  /\ forall e : env, exists e1 e2,
       exec_stream (fst setcond2_stream) (snd setcond2_stream) e = Some e1
       /\ exec_stream ops' params' e = Some e2
       /\ (e1 0 = 0 \/ e1 0 = 1) /\ e2 0 = 7.
Proof.
  split.
  - vm_compute. reflexivity.
  - intros e. eexists. eexists. split; [reflexivity|]. split; [reflexivity|].
    split.
    + cbv [env_set]. simpl.
      match goal with |- context [if ?b then 1 else 0] => destruct b end; auto.
    + reflexivity.
Qed.

(** ** The cursors *)

Ltac case_ok H :=
  repeat match type of H with
  | bind ?r _ = Ok _ =>
      let E := fresh "E" in destruct r eqn:E; cbn [bind] in H; [|discriminate H]
  | (if ?b then _ else _) = Ok _ =>
      let E := fresh "E" in destruct b eqn:E
  | match ?x with _ => _ end = Ok _ =>
      let E := fresh "E" in destruct x eqn:E
  | Err _ = Ok _ => discriminate H
  end.

Section Cursors.

Variable bits : Z.
Variable defs : TCGOpcode -> TCGOpDef.
Variable s : TCGContext.

Lemma gen_mov_args st d x st' :
  tcg_opt_gen_mov s st d x = Ok st' ->
  args st' = args st /\ gen_args st' = gen_args st /\ op_index st' = op_index st.
Proof.
  unfold tcg_opt_gen_mov. intros H. case_ok H. injection H as <-. auto.
Qed.

Lemma copy_args_cursors n : forall i st,
  args (copy_args n i st) = args st
  /\ gen_args (copy_args n i st) = gen_args st
  /\ op_index (copy_args n i st) = op_index st.
Proof.
  induction n as [|n IH]; intros i st; simpl; [auto|].
  destruct (IH (S i) (set_gen_arg st i (arg st i))) as (-> & -> & ->). auto.
Qed.

Lemma copy_propagate_cursors n : forall i st st',
  copy_propagate s n i st = Ok st' ->
  args st' = args st /\ gen_args st' = gen_args st /\ op_index st' = op_index st.
Proof.
  induction n as [|n IH]; intros i st st' H; simpl in H.
  - injection H as <-. auto.
  - case_ok H. apply IH in H. case_ok E; injection E as <-; exact H.
Qed.

Lemma canonicalize_cursors op st :
  args (canonicalize bits op st) = args st
  /\ gen_args (canonicalize bits op st) = gen_args st
  /\ op_index (canonicalize bits op st) = op_index st.
Proof.
  destruct op; simpl; unfold fix_cond, swap_commutative, swap_commutative2;
    repeat match goal with
           | |- context [if ?b then _ else _] => destruct b
           end; simpl; auto.
Qed.

Lemma prepare_cursors st st' :
  prepare bits defs s st = Ok st' ->
  args st' = args st /\ gen_args st' = gen_args st /\ op_index st' = op_index st.
Proof.
  unfold prepare, propagate_copies. intros H. case_ok H. injection H as <-.
  match goal with
  | |- context [canonicalize bits ?op ?o] =>
      destruct (canonicalize_cursors op o) as (-> & -> & ->)
  end.
  case_ok E; apply copy_propagate_cursors in E; exact E.
Qed.

Ltac cursors_leaf :=
  unfold advanced, fold_branch, do_default, set_opc, tcg_opt_gen_movi in *;
  repeat match goal with
         | H : tcg_opt_gen_mov _ _ _ _ = Ok _ |- _ =>
             apply gen_mov_args in H; destruct H as (? & ? & ?)
         | |- context [copy_args ?n ?i ?st] =>
             let a := fresh in let b := fresh in let c := fresh in
             destruct (copy_args_cursors n i st) as (a & b & c);
             generalize dependent (copy_args n i st); intros
         | |- context [if ?b then _ else _] => destruct b
         end;
  cbn [args gen_args op_index next_op set_gen_arg set_arg set_opc_at set_temps] in *;
  lia.

Lemma rewrite_advanced op st st' :
  rewrite bits defs s op st = Ok st' -> advanced st st'.
Proof.
  unfold rewrite, or_else.
  unfold simplify_shift_of_zero, simplify_op_zero_mov, simplify_op_zero_movi,
    simplify_op_same_mov, simplify_op_same_movi, emit_movi_zero, emit_mov_or_nop,
    fold_op, fold_to_movi, fold_to_movi2.
  intros H.
  destruct op; case_ok H; try discriminate;
  repeat match goal with
         | H : Ok _ = Ok _ |- _ => injection H as <-
         | H : Some _ = Some _ |- _ => injection H as <-
         | H : bind _ _ = Ok _ |- _ => case_ok H
         | H : (if _ then _ else _) = Ok _ |- _ => case_ok H
         end; try discriminate.
  all: cursors_leaf.
Qed.


Lemma step_advanced st st' : step bits defs s st = Ok st' -> advanced st st'.
Proof.
  unfold step. intros H. case_ok H.
  apply prepare_cursors in E. destruct E as (E1 & E2 & E3).
  apply rewrite_advanced in H. unfold advanced in *. lia.
Qed.

Lemma run_cursors fuel : forall nb st st',
  run bits defs fuel s nb st = Ok st' ->
  (gen_args st' + args st <= args st' + gen_args st)%nat
  /\ (gen_args st <= gen_args st')%nat.
Proof.
  induction fuel as [|fuel IH]; intros nb st st' H; simpl in H.
  - injection H as <-. lia.
  - case_ok H.
    + apply step_advanced in E0. apply IH in H. unfold advanced in *. lia.
    + injection H as <-. lia.
Qed.

(** With [nb_ops] turns allowed the loop runs to its end. *)
Lemma run_complete fuel : forall nb st st',
  run bits defs fuel s nb st = Ok st' ->
  (nb <= op_index st + fuel)%nat -> (nb <= op_index st')%nat.
Proof.
  induction fuel as [|fuel IH]; intros nb st st' H Hf; simpl in H.
  - injection H as <-. lia.
  - case_ok H.
    + apply step_advanced in E0. apply IH in H; [exact H|].
      unfold advanced in *. lia.
    + injection H as <-. apply Nat.ltb_ge in E. exact E.
Qed.

(** C5: at every turn of the driver's loop the write cursor [gen_args] is
    at most the read cursor [args], so the pass never writes more
    arguments than it has read, and the cursor it returns is at most the
    number of arguments of the input. *)
Theorem gen_args_never_passes_args nb_ops st :
  (forall k st', run bits defs k s nb_ops (entry s st) = Ok st' ->
     (args st <= gen_args st' <= args st')%nat)
  /\ (forall st', tcg_optimize bits defs s nb_ops st = Ok st' ->
        (gen_args st' - args st <= args st' - args st)%nat
        /\ (nb_ops <= op_index st')%nat).
Proof.
  split.
  - intros k st' H. apply run_cursors in H. simpl in H. lia.
  - intros st' H. unfold tcg_optimize, tcg_constant_folding in H. split.
    + apply run_cursors in H. simpl in H. lia.
    + apply run_complete in H; [exact H | simpl; lia].
Qed.

End Cursors.

Lemma gen_args_never_passes_args_witness :
  exists st',
    tcg_optimize 64 std_op_defs (ctx32 8 1) 2 (load (fst and_const_stream) [1; 5; 2; 1; 3]) = Ok st'
    /\ (gen_args st' - 0 <= args st' - 0)%nat /\ (2 <= op_index st')%nat.
Proof.
  destruct (tcg_optimize 64 std_op_defs (ctx32 8 1) 2
              (load (fst and_const_stream) [1; 5; 2; 1; 3])) as [st'|e] eqn:E.
  - exists st'. split; [reflexivity|].
    exact (proj2 (gen_args_never_passes_args 64 std_op_defs (ctx32 8 1) 2
                    (load (fst and_const_stream) [1; 5; 2; 1; 3])) st' E).
  - vm_compute in E. discriminate E.
Defined.

(** ** Branches and double-word comparisons *)

(** Read a slot of a buffer after a series of writes. *)
Ltac decide_slots :=
  unfold arg, set_gen_arg, set_arg, set_opc, set_opc_at, set_temps, next_op, updn;
  cbn [temps gen_opc_buf opparam args gen_args op_index];
  repeat match goal with
         | |- context [Nat.eqb ?a ?b] => destruct (Nat.eqb_spec a b); try lia
         end.

Section Branches.

Variable bits : Z.
Variable defs : TCGOpcode -> TCGOpDef.
Variable s : TCGContext.

Lemma copy_propagate_temps n : forall i st st',
  copy_propagate s n i st = Ok st' ->
  temps st' = temps st /\ gen_opc_buf st' = gen_opc_buf st.
Proof.
  induction n as [|n IH]; intros i st st' H; simpl in H.
  - injection H as <-. auto.
  - case_ok H. apply IH in H. case_ok E; injection E as <-; exact H.
Qed.

Lemma canonicalize_temps op st :
  temps (canonicalize bits op st) = temps st
  /\ gen_opc_buf (canonicalize bits op st) = gen_opc_buf st.
Proof.
  destruct op; simpl; unfold fix_cond, swap_commutative, swap_commutative2;
    repeat match goal with
           | |- context [if ?b then _ else _] => destruct b
           end; simpl; auto.
Qed.

(** Phases 1 and 2 rewrite arguments only. *)
Lemma prepare_temps st st' :
  prepare bits defs s st = Ok st' ->
  temps st' = temps st /\ gen_opc_buf st' = gen_opc_buf st.
Proof.
  unfold prepare, propagate_copies. intros H. case_ok H. injection H as <-.
  match goal with
  | |- context [canonicalize bits ?op ?o] =>
      destruct (canonicalize_temps op o) as (-> & ->)
  end.
  case_ok E; apply copy_propagate_temps in E; exact E.
Qed.

(** C10: when the condition of a [brcond] (of either width) or of a
    [brcond2_i32] folds to false, the operation becomes a nop, nothing is
    written to the output and the table of temps is exactly as it was
    before the operation; when it folds to true the operation becomes a
    [br] and the whole table is reset.  The condition is the one the
    driver evaluates, on the arguments as phases 1 and 2 left them. *)
Theorem folded_branch_and_table st st1 :
  prepare bits defs s st = Ok st1 ->
  (forall w tmp,
     gen_opc_buf st (op_index st) = INDEX_op_brcond w ->
     do_constant_folding_cond defs (temps st1) (INDEX_op_brcond w)
       (arg st1 0) (arg st1 1) (arg st1 2) = Ok tmp ->
     (tmp = 0 ->
      exists st', step bits defs s st = Ok st'
        /\ temps st' = temps st
        /\ gen_opc_buf st' (op_index st) = INDEX_op_nop
        /\ gen_args st' = gen_args st /\ args st' = (args st + 4)%nat
        /\ opparam st' = opparam st1)
     /\ (tmp = 1 ->
         exists st', step bits defs s st = Ok st'
           /\ temps st' = memset_temps (temps st) (nb_temps s)
           /\ gen_opc_buf st' (op_index st) = INDEX_op_br
           /\ opparam st' (gen_args st) = arg st1 3
           /\ gen_args st' = (gen_args st + 1)%nat))
  /\ (forall tmp,
        gen_opc_buf st (op_index st) = INDEX_op_brcond2_i32 ->
        do_constant_folding_cond2 (temps st1) (arg st1 0) (arg st1 1)
          (arg st1 2) (arg st1 3) (arg st1 4) = Ok tmp ->
        (tmp = 0 ->
         exists st', step bits defs s st = Ok st'
           /\ temps st' = temps st
           /\ gen_opc_buf st' (op_index st) = INDEX_op_nop
           /\ gen_args st' = gen_args st /\ args st' = (args st + 6)%nat
           /\ opparam st' = opparam st1)
        /\ (tmp = 1 ->
            exists st', step bits defs s st = Ok st'
              /\ temps st' = memset_temps (temps st) (nb_temps s)
              /\ gen_opc_buf st' (op_index st) = INDEX_op_br
              /\ opparam st' (gen_args st) = arg st1 5
              /\ gen_args st' = (gen_args st + 1)%nat)).
Proof.
  intros Hp.
  destruct (prepare_temps _ _ Hp) as (Ht & Ho).
  destruct (prepare_cursors _ _ _ _ _ Hp) as (Ha & Hg & Hi).
  split.
  - intros w tmp Hop Hc. unfold step. rewrite Hp, Hop. cbn [bind].
    unfold rewrite. cbn [simplify_shift_of_zero simplify_op_zero_mov
      simplify_op_zero_movi simplify_op_same_mov simplify_op_same_movi
      or_else fold_op].
    rewrite Hc. cbn [bind]. split; intros ->.
    + eexists. split; [reflexivity|]. unfold fold_branch.
      cbn. unfold updn. rewrite Ht, Ha, Hg, Hi, !Nat.add_0_r, Nat.eqb_refl. auto.
    + eexists. split; [reflexivity|]. unfold fold_branch, arg.
      cbn. unfold updn. rewrite Ht, Ha, Hg, Hi, !Nat.add_0_r, !Nat.eqb_refl. auto.
  - intros tmp Hop Hc. unfold step. rewrite Hp, Hop. cbn [bind].
    unfold rewrite. cbn [simplify_shift_of_zero simplify_op_zero_mov
      simplify_op_zero_movi simplify_op_same_mov simplify_op_same_movi
      or_else fold_op].
    rewrite Hc. cbn [bind]. split; intros ->.
    + eexists. split; [reflexivity|]. unfold fold_branch.
      cbn. unfold updn. rewrite Ht, Ha, Hg, Hi, !Nat.add_0_r, Nat.eqb_refl. auto.
    + eexists. split; [reflexivity|]. unfold fold_branch, arg.
      cbn. unfold updn. rewrite Ht, Ha, Hg, Hi, !Nat.add_0_r, !Nat.eqb_refl. auto.
Qed.


(** C7: a [brcond2_i32] or [setcond2_i32] whose comparison does not fold,
    whose right-hand halves are both the constant zero and whose predicate
    is LT or GE becomes a [brcond_i32] (resp. [setcond_i32]) on the two
    high halves, with the same predicate and the same label (resp.
    destination).  The arguments are those the driver sees after phases 1
    and 2; the write cursor is not ahead of the read cursor. *)
Theorem double_word_compare_with_zero st st1 :
  prepare bits defs s st = Ok st1 ->
  (gen_args st <= args st)%nat ->
  (gen_opc_buf st (op_index st) = INDEX_op_brcond2_i32 ->
   do_constant_folding_cond2 (temps st1) (arg st1 0) (arg st1 1)
     (arg st1 2) (arg st1 3) (arg st1 4) = Ok 2 ->
   is_lt_or_ge (arg st1 4) = true ->
   const_zero st1 (arg st1 2) = true ->
   const_zero st1 (arg st1 3) = true ->
   exists st', step bits defs s st = Ok st'
     /\ gen_opc_buf st' (op_index st) = INDEX_op_brcond_i32
     /\ opparam st' (gen_args st) = arg st1 1
     /\ opparam st' (gen_args st + 1) = arg st1 3
     /\ opparam st' (gen_args st + 2) = arg st1 4
     /\ opparam st' (gen_args st + 3) = arg st1 5
     /\ gen_args st' = (gen_args st + 4)%nat
     /\ args st' = (args st + 6)%nat)
  /\ (gen_opc_buf st (op_index st) = INDEX_op_setcond2_i32 ->
      do_constant_folding_cond2 (temps st1) (arg st1 1) (arg st1 2)
        (arg st1 3) (arg st1 4) (arg st1 5) = Ok 2 ->
      is_lt_or_ge (arg st1 5) = true ->
      const_zero st1 (arg st1 3) = true ->
      const_zero st1 (arg st1 4) = true ->
      exists st', step bits defs s st = Ok st'
        /\ gen_opc_buf st' (op_index st) = INDEX_op_setcond_i32
        /\ opparam st' (gen_args st) = arg st1 0
        /\ opparam st' (gen_args st + 1) = arg st1 2
        /\ opparam st' (gen_args st + 2) = arg st1 4
        /\ opparam st' (gen_args st + 3) = arg st1 5
        /\ gen_args st' = (gen_args st + 4)%nat
        /\ args st' = (args st + 6)%nat).
Proof.
  intros Hp Hle.
  destruct (prepare_temps _ _ Hp) as (Ht & Ho).
  destruct (prepare_cursors _ _ _ _ _ Hp) as (Ha & Hg & Hi).
  split; intros Hop Hc Hlt Hz1 Hz2; unfold step; rewrite Hp, Hop; cbn [bind];
    unfold rewrite; cbn [simplify_shift_of_zero simplify_op_zero_mov
      simplify_op_zero_movi simplify_op_same_mov simplify_op_same_movi
      or_else fold_op];
    rewrite Hc; cbn [bind]; rewrite Hlt, Hz1, Hz2;
    change (negb (2 =? 2)) with false; cbn [andb];
    eexists; (split; [reflexivity|]);
    rewrite <- Hg, <- Hi, <- Ha in *;
    repeat split; decide_slots; reflexivity.
Qed.

End Branches.

Lemma folded_branch_and_table_witness :
  let st := load [INDEX_op_brcond_i32] [1; 1; arg_of_cond TCG_COND_NE; 77] in
  exists st', step 64 std_op_defs (ctx32 8 1) st = Ok st'
    /\ temps st' = temps st
    /\ gen_opc_buf st' (op_index st) = INDEX_op_nop
    /\ gen_args st' = gen_args st /\ args st' = (args st + 4)%nat
    /\ opparam st' = opparam st.
Proof.
  intros st.
  assert (Hp : prepare 64 std_op_defs (ctx32 8 1) st = Ok st)
    by (vm_compute; reflexivity).
  assert (Hc : do_constant_folding_cond std_op_defs (temps st) INDEX_op_brcond_i32
                 (arg st 0) (arg st 1) (arg st 2) = Ok 0)
    by (vm_compute; reflexivity).
  exact (proj1 (proj1 (folded_branch_and_table 64 std_op_defs (ctx32 8 1) st st Hp)
                  TCG_TYPE_I32 0 eq_refl Hc) eq_refl).
Defined.

Lemma double_word_compare_with_zero_witness :
  let st := tcg_opt_gen_movi
              (tcg_opt_gen_movi
                 (load [INDEX_op_brcond2_i32]
                       [4; 5; 2; 3; arg_of_cond TCG_COND_LT; 77]) 6 2 0) 8 3 0 in
  exists st', step 32 std_op_defs (ctx32 8 1) st = Ok st'
    /\ gen_opc_buf st' 0%nat = INDEX_op_brcond_i32
    /\ opparam st' 0%nat = 5
    /\ opparam st' 1%nat = 3
    /\ opparam st' 2%nat = arg_of_cond TCG_COND_LT
    /\ opparam st' 3%nat = 77
    /\ gen_args st' = 4%nat
    /\ args st' = 6%nat.
Proof.
  intros st.
  assert (Hp : prepare 32 std_op_defs (ctx32 8 1) st = Ok st)
    by (vm_compute; reflexivity).
  assert (Hle : (gen_args st <= args st)%nat) by (vm_compute; lia).
  assert (Hc : do_constant_folding_cond2 (temps st) (arg st 0) (arg st 1)
                 (arg st 2) (arg st 3) (arg st 4) = Ok 2)
    by (vm_compute; reflexivity).
  exact (proj1 (double_word_compare_with_zero 32 std_op_defs (ctx32 8 1) st st Hp Hle)
           eq_refl Hc eq_refl eq_refl eq_refl).
Defined.

(** ** The rings of copies *)

Lemma to_uint16_small x : 0 <= x < 65536 -> to_uint 16 x = x.
Proof. intros H. unfold to_uint. apply Z.mod_small. exact H. Qed.

(** *** Reading a table after an update *)

Section TableUpdates.

Variable tb : temp_table.
Variables t u : TCGArg.

Lemma state_set_state s :
  state (set_state tb t s u) = if u =? t then s else state (tb u).
Proof. unfold set_state, upd. destruct (u =? t); reflexivity. Qed.

Lemma next_set_state s : next_copy (set_state tb t s u) = next_copy (tb u).
Proof. unfold set_state, upd. destruct (Z.eqb_spec u t); subst; reflexivity. Qed.

Lemma prev_set_state s : prev_copy (set_state tb t s u) = prev_copy (tb u).
Proof. unfold set_state, upd. destruct (Z.eqb_spec u t); subst; reflexivity. Qed.

Lemma state_set_prev p : state (set_prev tb t p u) = state (tb u).
Proof. unfold set_prev, upd. destruct (Z.eqb_spec u t); subst; reflexivity. Qed.

Lemma next_set_prev p : next_copy (set_prev tb t p u) = next_copy (tb u).
Proof. unfold set_prev, upd. destruct (Z.eqb_spec u t); subst; reflexivity. Qed.

Lemma prev_set_prev p :
  prev_copy (set_prev tb t p u) = if u =? t then to_uint 16 p else prev_copy (tb u).
Proof. unfold set_prev, upd. destruct (u =? t); reflexivity. Qed.

Lemma state_set_next p : state (set_next tb t p u) = state (tb u).
Proof. unfold set_next, upd. destruct (Z.eqb_spec u t); subst; reflexivity. Qed.

Lemma prev_set_next p : prev_copy (set_next tb t p u) = prev_copy (tb u).
Proof. unfold set_next, upd. destruct (Z.eqb_spec u t); subst; reflexivity. Qed.

Lemma next_set_next p :
  next_copy (set_next tb t p u) = if u =? t then to_uint 16 p else next_copy (tb u).
Proof. unfold set_next, upd. destruct (u =? t); reflexivity. Qed.

Lemma state_set_val v : state (set_val tb t v u) = state (tb u).
Proof. unfold set_val, upd. destruct (Z.eqb_spec u t); subst; reflexivity. Qed.

Lemma next_set_val v : next_copy (set_val tb t v u) = next_copy (tb u).
Proof. unfold set_val, upd. destruct (Z.eqb_spec u t); subst; reflexivity. Qed.

Lemma prev_set_val v : prev_copy (set_val tb t v u) = prev_copy (tb u).
Proof. unfold set_val, upd. destruct (Z.eqb_spec u t); subst; reflexivity. Qed.

End TableUpdates.

Create Rewrite HintDb table.
#[global] Hint Rewrite state_set_state next_set_state prev_set_state
  state_set_prev next_set_prev prev_set_prev
  state_set_next prev_set_next next_set_next
  state_set_val next_set_val prev_set_val : table.

Lemma is_state_true tb t s : is_state tb t s = true <-> state (tb t) = s.
Proof.
  unfold is_state. destruct (state (tb t)), s; simpl; split; congruence.
Qed.

Lemma is_state_false tb t s : is_state tb t s = false <-> state (tb t) <> s.
Proof.
  unfold is_state. destruct (state (tb t)), s; simpl; split; congruence.
Qed.

(** Destruct every test on temps that occurs in the goal. *)
Ltac table_cases :=
  repeat match goal with
         | |- context [?a =? ?b] => destruct (Z.eqb_spec a b)
         end.

(** *** [reset_temp] *)

Section ResetTemp.

Variable n : Z.
Hypothesis n_small : n <= 65536.
Variable tb : temp_table.
Hypothesis tb_ok : ring_ok n tb.
Variable d : TCGArg.
Hypothesis d_range : 0 <= d < n.

Lemma reset_temp_not_copy :
  state (tb d) <> TCG_TEMP_COPY ->
  reset_temp tb d = set_state tb d TCG_TEMP_UNDEF.
Proof.
  intros H. unfold reset_temp. apply is_state_false in H. rewrite H. reflexivity.
Qed.

Lemma reset_temp_pair :
  state (tb d) = TCG_TEMP_COPY -> prev_copy (tb d) = next_copy (tb d) ->
  reset_temp tb d
  = set_state (set_state tb (next_copy (tb d)) TCG_TEMP_UNDEF) d TCG_TEMP_UNDEF.
Proof.
  intros H E. unfold reset_temp. apply is_state_true in H. rewrite H.
  rewrite E, Z.eqb_refl. reflexivity.
Qed.

Lemma reset_temp_unlink :
  state (tb d) = TCG_TEMP_COPY -> prev_copy (tb d) <> next_copy (tb d) ->
  reset_temp tb d
  = set_state (set_next (set_prev tb (next_copy (tb d)) (prev_copy (tb d)))
                        (prev_copy (tb d)) (next_copy (tb d))) d TCG_TEMP_UNDEF.
Proof.
  intros H E. unfold reset_temp.
  destruct (tb_ok d d_range H) as (D1 & D2 & D3 & D4 & D5 & D6).
  apply is_state_true in H. rewrite H.
  destruct (Z.eqb_spec (prev_copy (tb d)) (next_copy (tb d))); [contradiction|].
  assert (Nd : next_copy (tb d) <> d) by congruence.
  rewrite prev_set_prev, next_set_prev.
  destruct (Z.eqb_spec d (next_copy (tb d))); [congruence|]. reflexivity.
Qed.

Lemma reset_temp_ring_ok : ring_ok n (reset_temp tb d).
Proof.
  destruct (tcg_temp_state_eqb (state (tb d)) TCG_TEMP_COPY) eqn:Sd.
  - apply (is_state_true tb d) in Sd.
    destruct (tb_ok d d_range Sd) as (D1 & D2 & D3 & D4 & D5 & D6).
    destruct (Z.eq_dec (prev_copy (tb d)) (next_copy (tb d))) as [E|E].
    + rewrite (reset_temp_pair Sd E). intros t Ht.
      autorewrite with table.
      pose proof (tb_ok t Ht) as Ft.
      table_cases; try discriminate; intros St;
        destruct (Ft St) as (F1 & F2 & F3 & F4 & F5 & F6);
        repeat split; try lia; try congruence.
    + rewrite (reset_temp_unlink Sd E). intros t Ht.
      autorewrite with table. rewrite !to_uint16_small by lia.
      pose proof (tb_ok t Ht) as Ft.
      table_cases; try discriminate; intros St;
        try destruct (Ft St) as (F1 & F2 & F3 & F4 & F5 & F6);
        repeat split; try lia; try congruence.
  - apply (is_state_false tb d) in Sd.
    rewrite (reset_temp_not_copy Sd). intros t Ht.
    autorewrite with table.
    pose proof (tb_ok t Ht) as Ft.
    table_cases; try discriminate; intros St;
      destruct (Ft St) as (F1 & F2 & F3 & F4 & F5 & F6);
      repeat split; try lia; try congruence.
Qed.

End ResetTemp.

(** *** What [reset_temp] leaves of the other temps *)

Lemma reset_temp_state_self tb d : state (reset_temp tb d d) = TCG_TEMP_UNDEF.
Proof. unfold reset_temp. rewrite state_set_state, Z.eqb_refl. reflexivity. Qed.

(** A temp that is not the last mate of [d] keeps its state. *)
Lemma reset_temp_state_other tb d u :
  u <> d ->
  ~ (state (tb d) = TCG_TEMP_COPY /\ prev_copy (tb d) = next_copy (tb d)
     /\ u = next_copy (tb d)) ->
  state (reset_temp tb d u) = state (tb u).
Proof.
  intros Hu Hm. unfold reset_temp. rewrite state_set_state.
  destruct (Z.eqb_spec u d); [contradiction|].
  destruct (is_state tb d TCG_TEMP_COPY) eqn:Sd; [|reflexivity].
  apply is_state_true in Sd.
  destruct (Z.eqb_spec (prev_copy (tb d)) (next_copy (tb d))).
  - rewrite state_set_state. destruct (Z.eqb_spec u (next_copy (tb d))); [|reflexivity].
    exfalso. apply Hm. auto.
  - rewrite state_set_next, state_set_prev. reflexivity.
Qed.

(** [reset_temp] never turns a temp into a copy or a constant. *)
Lemma reset_temp_state_weak tb d u :
  state (reset_temp tb d u) = state (tb u)
  \/ state (reset_temp tb d u) = TCG_TEMP_UNDEF.
Proof.
  unfold reset_temp. rewrite state_set_state.
  destruct (u =? d); [auto|].
  destruct (is_state tb d TCG_TEMP_COPY); [|auto].
  destruct (prev_copy (tb d) =? next_copy (tb d)).
  - rewrite state_set_state. destruct (u =? _); auto.
  - rewrite state_set_next, state_set_prev. auto.
Qed.

(** *** Constants and fresh rings *)

Section NonCopy.

Variable n : Z.
Variable tb : temp_table.
Hypothesis tb_ok : ring_ok n tb.
Variable d : TCGArg.
Hypothesis d_free : state (tb d) <> TCG_TEMP_COPY.

Lemma set_state_ring_ok s :
  s <> TCG_TEMP_COPY -> ring_ok n (set_state tb d s).
Proof.
  intros Hs t Ht. autorewrite with table.
  pose proof (tb_ok t Ht) as Ft.
  table_cases; try congruence; intros St;
    destruct (Ft St) as (F1 & F2 & F3 & F4 & F5 & F6);
    repeat split; try lia; congruence.
Qed.

Lemma self_loop_ring_ok :
  0 <= d < n -> n <= 65536 ->
  ring_ok n (set_prev (set_next (set_state tb d TCG_TEMP_COPY) d d) d d).
Proof.
  intros Hd Hn t Ht. autorewrite with table. rewrite !to_uint16_small by lia.
  pose proof (tb_ok t Ht) as Ft.
  table_cases; try congruence; intros St;
    try destruct (Ft St) as (F1 & F2 & F3 & F4 & F5 & F6);
    repeat split; try lia; congruence.
Qed.

End NonCopy.

Lemma set_val_ring_ok n tb d v : ring_ok n tb -> ring_ok n (set_val tb d v).
Proof.
  intros H t Ht. autorewrite with table. apply H. exact Ht.
Qed.

(** *** Linking a copy *)

Lemma link_after_ring_ok n tb dst src :
  n <= 65536 -> ring_ok n tb ->
  0 <= dst < n -> 0 <= src < n -> src <> dst ->
  state (tb src) = TCG_TEMP_COPY -> state (tb dst) <> TCG_TEMP_COPY ->
  let tb2 := set_state tb dst TCG_TEMP_COPY in
  let tb3 := set_next tb2 dst (next_copy (tb2 src)) in
  let tb4 := set_prev tb3 dst src in
  let tb5 := set_prev tb4 (next_copy (tb4 dst)) dst in
  ring_ok n (set_next tb5 src dst).
Proof.
  intros Hn H Hd Hs Hne Ss Sd tb2 tb3 tb4 tb5 t Ht.
  subst tb2 tb3 tb4 tb5.
  destruct (H src Hs Ss) as (S1 & S2 & S3 & S4 & S5 & S6).
  assert (Nd : next_copy (tb src) <> dst) by congruence.
  autorewrite with table.
  destruct (Z.eqb_spec dst src); [congruence|].
  rewrite ?Z.eqb_refl.
  rewrite ?(to_uint16_small (next_copy (tb src))) by lia.
  rewrite ?(to_uint16_small src), ?(to_uint16_small dst) by lia.
  pose proof (H t Ht) as Ft.
  table_cases; try congruence; intros St;
    try destruct (Ft St) as (F1 & F2 & F3 & F4 & F5 & F6);
    repeat split; try lia; try congruence.
Qed.

Lemma link_copy_ring_ok n tb dst src :
  n <= 65536 -> ring_ok n tb ->
  0 <= dst < n -> 0 <= src < n -> src <> dst ->
  state (tb dst) <> TCG_TEMP_COPY ->
  ring_ok n (link_copy tb dst src).
Proof.
  intros Hn H Hd Hs Hne Sd. unfold link_copy.
  destruct (is_state tb src TCG_TEMP_COPY) eqn:Ss; cbn [negb].
  - apply is_state_true in Ss. apply link_after_ring_ok; assumption.
  - apply is_state_false in Ss. apply link_after_ring_ok; try assumption.
    + apply self_loop_ring_ok; assumption.
    + autorewrite with table. rewrite Z.eqb_refl. reflexivity.
    + autorewrite with table. destruct (Z.eqb_spec dst src); congruence.
Qed.

Lemma link_copy_links n tb dst src :
  n <= 65536 -> ring_ok n tb ->
  0 <= dst < n -> 0 <= src < n -> src <> dst ->
  state (tb dst) <> TCG_TEMP_COPY ->
  let tb' := link_copy tb dst src in
  state (tb' dst) = TCG_TEMP_COPY /\ state (tb' src) = TCG_TEMP_COPY
  /\ next_copy (tb' src) = dst /\ prev_copy (tb' dst) = src.
Proof.
  intros Hn H Hd Hs Hne Sd. unfold link_copy.
  destruct (is_state tb src TCG_TEMP_COPY) eqn:Ss; cbn [negb].
  - apply is_state_true in Ss.
    destruct (H src Hs Ss) as (S1 & S2 & S3 & S4 & S5 & S6).
    assert (Nd : next_copy (tb src) <> dst) by congruence.
    cbv zeta. autorewrite with table.
    rewrite ?Z.eqb_refl. rewrite ?to_uint16_small by lia.
    table_cases; repeat split; congruence.
  - apply is_state_false in Ss.
    cbv zeta. autorewrite with table.
    rewrite ?Z.eqb_refl.
    rewrite ?(to_uint16_small src), ?(to_uint16_small dst) by lia.
    table_cases; repeat split; congruence.
Qed.

(** *** [temps_are_copies] *)

Lemma ring_scan_eq fuel tb temp p i :
  ring_scan fuel tb temp p i
  = if i =? temp then Ok None
    else if p i then Ok (Some i)
    else match fuel with
         | O => Err no_termination
         | S fuel' => ring_scan fuel' tb temp p (next_copy (tb i))
         end.
Proof. destruct fuel; reflexivity. Qed.

Lemma temps_are_copies_next tb a b :
  a <> b -> state (tb a) = TCG_TEMP_COPY -> state (tb b) = TCG_TEMP_COPY ->
  next_copy (tb a) = b -> temps_are_copies tb a b = Ok true.
Proof.
  intros Hne Sa Sb Hn. unfold temps_are_copies.
  destruct (Z.eqb_spec a b); [reflexivity|].
  apply is_state_true in Sa, Sb. rewrite Sa, Sb. cbn [negb orb].
  rewrite ring_scan_eq, Hn.
  destruct (Z.eqb_spec b a); [congruence|]. rewrite Z.eqb_refl. reflexivity.
Qed.

Lemma temps_are_copies_undef tb a b :
  a <> b -> state (tb a) <> TCG_TEMP_COPY \/ state (tb b) <> TCG_TEMP_COPY ->
  temps_are_copies tb a b = Ok false.
Proof.
  intros Hne H. unfold temps_are_copies.
  destruct (Z.eqb_spec a b); [contradiction|].
  destruct H as [H|H]; apply is_state_false in H; rewrite H; cbn [negb orb];
    rewrite ?orb_true_r; reflexivity.
Qed.

(** *** [tcg_opt_gen_mov] *)

(** C8: a move recorded by [tcg_opt_gen_mov] at one of the driver's call
    sites (the two temps are not known copies of each other and the source
    is not a constant) is always written to the output; [dst] joins the
    ring of [src], right after it, when the two temps have the same
    declared type, and when the types differ nothing is recorded: [dst] is
    left [UNDEF], the state of [src] is as before and the two are not
    copies of each other. *)
Theorem tcg_opt_gen_mov_records_copy s st dst src n :
  n <= 65536 -> ring_ok n (temps st) ->
  0 <= dst < n -> 0 <= src < n ->
  temps_are_copies (temps st) dst src = Ok false ->
  is_state (temps st) src TCG_TEMP_CONST = false ->
  exists st',
    tcg_opt_gen_mov s st dst src = Ok st'
    /\ opparam st' (gen_args st) = dst
    /\ opparam st' (gen_args st + 1) = src
    /\ ring_ok n (temps st')
    /\ (temp_type s src = temp_type s dst ->
        state (temps st' dst) = TCG_TEMP_COPY
        /\ state (temps st' src) = TCG_TEMP_COPY
        /\ next_copy (temps st' src) = dst
        /\ prev_copy (temps st' dst) = src
        /\ temps_are_copies (temps st') src dst = Ok true)
    /\ (temp_type s src <> temp_type s dst ->
        state (temps st' dst) = TCG_TEMP_UNDEF
        /\ state (temps st' src) = state (temps st src)
        /\ temps_are_copies (temps st') dst src = Ok false
        /\ temps_are_copies (temps st') src dst = Ok false).
Proof.
  intros Hn H Hd Hs Hcp Hc.
  assert (Hne : src <> dst).
  { intros ->. unfold temps_are_copies in Hcp. rewrite Z.eqb_refl in Hcp.
    discriminate. }
  pose proof (reset_temp_ring_ok n Hn (temps st) H dst Hd) as H1.
  pose proof (reset_temp_state_self (temps st) dst) as Sd.
  assert (Ss : state (reset_temp (temps st) dst src) = state (temps st src)).
  { apply reset_temp_state_other; [exact Hne|].
    intros (C1 & C2 & C3).
    destruct (H dst Hd C1) as (D1 & D2 & D3 & D4 & D5 & D6).
    rewrite (temps_are_copies_next (temps st) dst src) in Hcp;
      congruence. }
  apply is_state_false in Hc.
  unfold tcg_opt_gen_mov.
  assert (Hc' : is_state (reset_temp (temps st) dst) src TCG_TEMP_CONST = false)
    by (apply is_state_false; congruence).
  rewrite Hc'.
  eexists. split; [reflexivity|].
  split; [decide_slots; reflexivity|].
  split; [decide_slots; reflexivity|].
  cbn [temps set_gen_arg set_temps].
  destruct (TCGType_eqb (temp_type s src) (temp_type s dst)) eqn:Ety.
  - assert (Sd' : state (reset_temp (temps st) dst dst) <> TCG_TEMP_COPY)
      by congruence.
    split; [apply link_copy_ring_ok; assumption|].
    split.
    + intros _.
      destruct (link_copy_links n _ dst src Hn H1 Hd Hs Hne Sd') as (L1 & L2 & L3 & L4).
      repeat split; try assumption.
      apply temps_are_copies_next; assumption.
    + intros Hty. exfalso. apply Hty.
      destruct (temp_type s src), (temp_type s dst); (reflexivity || discriminate).
  - split; [exact H1|]. split.
    + intros Hty. rewrite Hty in Ety.
      destruct (temp_type s dst); discriminate.
    + intros _. repeat split; try assumption.
      * apply temps_are_copies_undef; [congruence|]. left. congruence.
      * apply temps_are_copies_undef; [congruence|]. right. congruence.
Qed.

(** ** The driver keeps the rings well formed *)

Section RingSteps.

Variable bits : Z.
Variable defs : TCGOpcode -> TCGOpDef.
Variable s : TCGContext.
Hypothesis defs_ok : arity_ok defs.
Hypothesis temps_small : nb_temps s <= 65536.
Hypothesis globals_ok : 0 <= nb_globals s <= nb_temps s.

Let n := nb_temps s.

Local Abbreviation slots_ok := (slots_ok n).

Lemma ring_scan_range fuel : forall tb temp p i r,
  ring_ok n tb -> 0 <= i < n -> state (tb i) = TCG_TEMP_COPY ->
  ring_scan fuel tb temp p i = Ok (Some r) -> 0 <= r < n.
Proof.
  induction fuel as [|fuel IH]; intros tb temp p i r H Hi Si E;
    rewrite ring_scan_eq in E;
    (destruct (i =? temp); [discriminate|]);
    (destruct (p i); [injection E as <-; exact Hi|]); [discriminate|].
  destruct (H i Hi Si) as (F1 & F2 & F3 & F4 & F5 & F6).
  exact (IH tb temp p _ r H F1 F3 E).
Qed.

Lemma find_better_copy_range tb t r :
  ring_ok n tb -> 0 <= t < n -> state (tb t) = TCG_TEMP_COPY ->
  find_better_copy s tb t = Ok r -> 0 <= r < n.
Proof.
  intros H Ht St E. unfold find_better_copy in E.
  destruct (H t Ht St) as (F1 & F2 & F3 & F4 & F5 & F6).
  case_ok E; injection E as <-; try exact Ht.
  all: match goal with
       | E : ring_scan _ _ _ _ _ = Ok (Some _) |- _ =>
           exact (ring_scan_range _ _ _ _ _ _ H F1 F3 E)
       end.
Qed.

Lemma copy_propagate_slots (P : nat -> Prop) k : forall i st st',
  ring_ok n (temps st) ->
  (forall j, (i <= j < i + k)%nat -> P j) ->
  slots_ok P st ->
  copy_propagate s k i st = Ok st' -> slots_ok P st'.
Proof.
  induction k as [|k IH]; intros i st st' H HP Hs E; simpl in E.
  - injection E as <-. exact Hs.
  - match type of E with bind ?r _ = _ => destruct r as [st1|] eqn:E0 end;
      cbn [bind] in E; [|discriminate].
    assert (H1 : temps st1 = temps st /\ slots_ok P st1).
    { destruct (is_state (temps st) (arg st i) TCG_TEMP_COPY) eqn:E1.
      - destruct (find_better_copy s (temps st) (arg st i)) as [r|] eqn:E2;
          cbn [bind] in E0; [|discriminate].
        injection E0 as <-. split; [reflexivity|].
        intros j Hj. unfold arg, set_arg, updn. cbn.
        destruct (Nat.eqb_spec (args st + j) (args st + i)).
        + apply is_state_true in E1.
          refine (find_better_copy_range _ _ _ H _ E1 E2).
          apply Hs. apply HP. lia.
        + apply Hs. exact Hj.
      - injection E0 as <-. auto. }
    destruct H1 as (H1 & H2).
    refine (IH (S i) st1 st' _ _ H2 E).
    + rewrite H1. exact H.
    + intros j Hj. apply HP. lia.
Qed.


Ltac slot_goal Hs :=
  match goal with
  | |- 0 <= opparam ?st (args ?st + ?k)%nat < _ =>
      apply (Hs k); cbv beta; lia
  | |- 0 <= arg ?st ?k < _ => apply (Hs k); cbv beta; lia
  end.

Lemma canonicalize_slots op st :
  op <> INDEX_op_call ->
  slots_ok (fun j => (j < nb_oargs (defs op) + nb_iargs (defs op))%nat) st ->
  slots_ok (fun j => (j < nb_oargs (defs op) + nb_iargs (defs op))%nat)
           (canonicalize bits op st).
Proof.
  intros Hop Hs. pose proof (defs_ok op) as Hd.
  destruct op; try exact Hs; cbn in Hd; destruct Hd as (Ho & Hi & _);
    rewrite Ho, Hi in *; cbn [Nat.add] in *;
    cbn [canonicalize]; unfold fix_cond, swap_commutative, swap_commutative2;
    repeat match goal with
           | |- context [if ?b then _ else _] => destruct b
           end; cbn [fst]; try exact Hs;
    intros j Hj; unfold arg, set_arg, updn;
    cbn [temps gen_opc_buf opparam args gen_args op_index];
    repeat match goal with
           | |- context [Nat.eqb ?a ?b] => destruct (Nat.eqb_spec a b); try lia
           end;
    try slot_goal Hs.
Qed.


Lemma memset_ring_ok tb : ring_ok n (memset_temps tb n).
Proof.
  intros t Ht St. unfold memset_temps in St.
  destruct (Z.leb_spec 0 t); [|lia]. destruct (Z.ltb_spec t n); [|lia].
  discriminate St.
Qed.

Lemma gen_movi_ring_ok st off d v :
  ring_ok n (temps st) -> 0 <= d < n ->
  ring_ok n (temps (tcg_opt_gen_movi st off d v)).
Proof.
  intros H Hd. unfold tcg_opt_gen_movi. cbn [temps set_gen_arg set_temps].
  apply set_val_ring_ok. apply set_state_ring_ok.
  - apply reset_temp_ring_ok; assumption.
  - rewrite reset_temp_state_self. discriminate.
  - discriminate.
Qed.

Lemma temps_are_copies_false_neq tb a b :
  temps_are_copies tb a b = Ok false -> a <> b.
Proof.
  intros H ->. unfold temps_are_copies in H. rewrite Z.eqb_refl in H.
  discriminate.
Qed.

Lemma gen_mov_ring_ok st d x st' :
  ring_ok n (temps st) -> 0 <= d < n -> 0 <= x < n -> d <> x ->
  tcg_opt_gen_mov s st d x = Ok st' -> ring_ok n (temps st').
Proof.
  intros H Hd Hx Hne E. unfold tcg_opt_gen_mov in E.
  case_ok E; injection E as <-; cbn [temps set_gen_arg set_temps].
  destruct (TCGType_eqb (temp_type s x) (temp_type s d)).
  - apply link_copy_ring_ok; try assumption.
    + apply reset_temp_ring_ok; assumption.
    + congruence.
    + rewrite reset_temp_state_self. discriminate.
  - apply reset_temp_ring_ok; assumption.
Qed.

Lemma reset_args_ring_ok cnt base st tb :
  ring_ok n tb ->
  (forall k, (k < cnt)%nat -> 0 <= arg st (base + k) < n) ->
  ring_ok n (reset_args cnt base st tb).
Proof.
  intros H. induction cnt as [|cnt IH]; intros Hk; simpl; [exact H|].
  apply reset_temp_ring_ok; try assumption.
  - apply IH. intros k Hlt. apply Hk. lia.
  - apply Hk. lia.
Qed.

Lemma reset_upto_ring_ok cnt tb :
  ring_ok n tb -> Z.of_nat cnt <= n -> ring_ok n (reset_upto cnt tb).
Proof.
  intros H. induction cnt as [|cnt IH]; intros Hk; simpl; [exact H|].
  apply reset_temp_ring_ok; try assumption.
  - apply IH. lia.
  - lia.
Qed.

Lemma copy_args_temps cnt : forall i st, temps (copy_args cnt i st) = temps st.
Proof.
  induction cnt as [|cnt IH]; intros i st; simpl; [reflexivity|].
  rewrite IH. reflexivity.
Qed.

Lemma do_default_ring_ok op st :
  ring_ok n (temps st) ->
  slots_ok (fun j => (j < nb_oargs (defs op) + nb_iargs (defs op))%nat) st ->
  ring_ok n (temps (do_default defs s op st)).
Proof.
  intros H Hs. unfold do_default. cbn [temps next_op].
  rewrite copy_args_temps. cbn [temps set_temps].
  destruct (bb_end defs op).
  - apply memset_ring_ok.
  - apply reset_args_ring_ok; [exact H|].
    intros k Hk. apply Hs. lia.
Qed.

Ltac slot_goal' Hs :=
  unfold arg, set_arg, set_opc, set_opc_at, updn;
  cbn [temps gen_opc_buf opparam args gen_args op_index];
  repeat match goal with
         | |- context [Nat.eqb ?a ?b] => destruct (Nat.eqb_spec a b); try lia
         end;
  match goal with
  | |- 0 <= opparam ?st (args ?st + ?k)%nat < _ =>
      apply (Hs k); cbv beta; lia
  end.

Ltac ring_leaf H Hs :=
  cbn [temps next_op set_opc set_opc_at set_gen_arg set_temps];
  repeat match goal with
         | |- context [if ?b then _ else _] => destruct b
         end;
  cbn [temps next_op set_opc set_opc_at set_gen_arg set_temps];
  first
    [ exact H
    | apply memset_ring_ok
    | apply do_default_ring_ok; [exact H | exact Hs]
    | apply gen_movi_ring_ok;
      [first [exact H | apply gen_movi_ring_ok; [exact H | slot_goal' Hs]]
      | slot_goal' Hs]
    | match goal with
      | E : tcg_opt_gen_mov _ ?st0 ?d ?x = Ok ?st' |- ring_ok _ (temps ?st') =>
          apply (gen_mov_ring_ok st0 d x st');
          [ exact H | slot_goal' Hs | slot_goal' Hs
          | eapply temps_are_copies_false_neq; eassumption | exact E ]
      end ].

Lemma rewrite_ring_ok op st st' :
  op <> INDEX_op_call ->
  ring_ok n (temps st) ->
  slots_ok (fun j => (j < nb_oargs (defs op) + nb_iargs (defs op))%nat) st ->
  rewrite bits defs s op st = Ok st' -> ring_ok n (temps st').
Proof.
  intros Hop H Hs E. pose proof (defs_ok op) as Hd.
  unfold rewrite, or_else in E.
  unfold simplify_shift_of_zero, simplify_op_zero_mov, simplify_op_zero_movi,
    simplify_op_same_mov, simplify_op_same_movi, emit_movi_zero, emit_mov_or_nop,
    fold_op, fold_to_movi, fold_to_movi2, fold_branch in E.
  destruct op; try congruence;
    try (cbn in Hd; destruct Hd as (Ho & Hi & _));
    case_ok E; try discriminate;
    repeat match goal with
           | H : Ok _ = Ok _ |- _ => injection H as <-
           | H : Some _ = Some _ |- _ => injection H as <-
           | H : bind _ _ = Ok _ |- _ => case_ok H
           | H : (if _ then _ else _) = Ok _ |- _ => case_ok H
           end; try discriminate;
    try (apply do_default_ring_ok; [exact H | exact Hs]);
    try (rewrite Ho, Hi in Hs; cbn [Nat.add] in Hs);
    try ring_leaf H Hs.
Qed.

Lemma rewrite_call_ring_ok st st' :
  ring_ok n (temps st) ->
  (forall c, call_counts (arg st 0) = Ok c ->
     slots_ok (fun j => (1 <= j < 1 + fst c + snd c)%nat) st) ->
  rewrite bits defs s INDEX_op_call st = Ok st' -> ring_ok n (temps st').
Proof.
  intros H Hs E. unfold rewrite in E. cbn in E.
  destruct (call_counts (arg st 0)) as [c|] eqn:Ec; cbn [bind] in E;
    [|discriminate].
  injection E as <-. cbn [temps next_op]. rewrite copy_args_temps.
  cbn [temps set_temps].
  apply reset_args_ring_ok.
  - match goal with |- context [if ?b then _ else _] => destruct b end;
      [|exact H].
    apply reset_upto_ring_ok; [exact H|]. unfold n. lia.
  - intros k Hk. apply (Hs c eq_refl). lia.
Qed.

Lemma Ok_inj (A : Type) (a b : A) : Ok a = Ok b -> a = b.
Proof. intros H. injection H as ->. reflexivity. Qed.

Lemma copy_propagate_below k : forall i st st',
  copy_propagate s k i st = Ok st' ->
  forall j, (j < i)%nat -> arg st' j = arg st j.
Proof.
  induction k as [|k IH]; intros i st st' E j Hj; simpl in E.
  - injection E as <-. reflexivity.
  - match type of E with bind ?r _ = _ => destruct r as [st1|] eqn:E0 end;
      cbn [bind] in E; [|discriminate].
    rewrite (IH (S i) st1 st' E j) by lia.
    case_ok E0; injection E0 as <-; [|reflexivity].
    unfold arg, set_arg, updn. cbn.
    destruct (Nat.eqb_spec (args st + j) (args st + i)); [lia|reflexivity].
Qed.

Lemma forallb_seq_spec (f : nat -> bool) m :
  forallb f (seq 0 m) = true <-> forall j, (j < m)%nat -> f j = true.
Proof.
  rewrite forallb_forall. split.
  - intros H j Hj. apply H. apply in_seq. lia.
  - intros H j Hj. apply H. apply in_seq in Hj. lia.
Qed.

Lemma temp_in_range_spec x : temp_in_range n x = true <-> 0 <= x < n.
Proof. unfold temp_in_range. rewrite andb_true_iff. lia. Qed.

(** One turn of the loop on an operation whose temps are temps of the
    context keeps the rings well formed. *)
Lemma step_ring_ok st st' :
  ring_ok n (temps st) ->
  slots_in_range defs n (gen_opc_buf st (op_index st)) (opparam st) (args st)
    = true ->
  step bits defs s st = Ok st' -> ring_ok n (temps st').
Proof.
  intros H Hs E. unfold step in E.
  destruct (prepare bits defs s st) as [st1|] eqn:Ep; cbn [bind] in E;
    [|discriminate].
  destruct (prepare_temps _ _ _ _ _ Ep) as (Ht & _).
  rewrite <- Ht in H.
  unfold prepare, propagate_copies in Ep.
  destruct (gen_opc_buf st (op_index st)) eqn:Eop.
  2: { (* call *)
    destruct (call_counts (arg st 0)) as [c|] eqn:Ec; cbn [bind] in Ep;
      [|discriminate].
    match type of Ep with bind ?r _ = _ => destruct r as [st2|] eqn:E2 end;
      cbn [bind] in Ep; [|discriminate].
    injection Ep as <-. cbn [canonicalize] in *.
    apply (rewrite_call_ring_ok st2 st' H); [|exact E].
    intros c' Ec'.
    rewrite (copy_propagate_below _ _ _ _ E2 0%nat) in Ec' by lia.
    assert (c' = c) as -> by congruence.
    refine (copy_propagate_slots _ _ _ _ _ _ _ _ E2).
    - rewrite Ht in H. exact H.
    - intros j Hj. lia.
    - intros j Hj. unfold slots_in_range in Hs. unfold arg in Ec.
      rewrite Nat.add_0_r in Ec. rewrite Ec in Hs. destruct c as [o i].
      rewrite forallb_seq_spec in Hs. cbn [fst snd] in Hj.
      specialize (Hs (j - 1)%nat ltac:(lia)).
      apply temp_in_range_spec in Hs. unfold arg.
      replace (args st + j)%nat with (args st + 1 + (j - 1))%nat by lia.
      exact Hs. }
  all: match type of Ep with bind ?r _ = _ => destruct r as [st2|] eqn:E2 end;
    cbn [bind] in Ep; [|discriminate];
    apply Ok_inj in Ep; subst st1;
    match type of E with
    | rewrite _ _ _ ?op _ = _ =>
        refine (rewrite_ring_ok op _ st' _ H _ E); [discriminate|];
        apply canonicalize_slots; [discriminate|];
        refine (copy_propagate_slots _ _ _ _ _ _ _ _ E2);
        [ rewrite Ht in H; exact H
        | intros j Hj; lia
        | intros j Hj; unfold slots_in_range in Hs;
          rewrite forallb_seq_spec in Hs; specialize (Hs j Hj);
          apply temp_in_range_spec in Hs; exact Hs ]
    end.
Qed.



(** *** What a turn of the loop leaves of the buffers *)

Lemma copy_propagate_frame k : forall i st st',
  copy_propagate s k i st = Ok st' ->
  gen_opc_buf st' = gen_opc_buf st
  /\ forall p, (p < args st + i \/ args st + i + k <= p)%nat ->
       opparam st' p = opparam st p.
Proof.
  induction k as [|k IH]; intros i st st' E; simpl in E.
  - injection E as <-. auto.
  - match type of E with bind ?r _ = _ => destruct r as [st1|] eqn:E0 end;
      cbn [bind] in E; [|discriminate].
    destruct (IH (S i) st1 st' E) as (I1 & I2).
    case_ok E0; injection E0 as <-; cbn in *.
    + split; [exact I1|]. intros p Hp. rewrite I2 by lia.
      unfold updn. destruct (Nat.eqb_spec p (args st + i)); [lia|reflexivity].
    + split; [exact I1|]. intros p Hp. apply I2. lia.
Qed.

Lemma canonicalize_frame op st :
  forall p, (args st + nb_args (std_op_defs op) <= p)%nat ->
    opparam (canonicalize bits op st) p = opparam st p.
Proof.
  intros p Hp.
  destruct op; try reflexivity; cbn in Hp;
    cbn [canonicalize]; unfold fix_cond, swap_commutative, swap_commutative2;
    repeat match goal with
           | |- context [if ?b then _ else _] => destruct b
           end; cbn [fst]; try reflexivity;
    unfold arg, set_arg, updn;
    cbn [temps gen_opc_buf opparam args gen_args op_index];
    repeat match goal with
           | |- context [Nat.eqb ?a ?b] => destruct (Nat.eqb_spec a b); try lia
           end; reflexivity.
Qed.

Lemma arity_args op :
  op <> INDEX_op_call ->
  (nb_oargs (defs op) + nb_iargs (defs op) <= nb_args (defs op))%nat.
Proof.
  intros Hop. pose proof (defs_ok op) as Hd.
  destruct op; try congruence; cbn in Hd; try lia.
Qed.

Lemma prepare_frame st st1 :
  prepare bits defs s st = Ok st1 ->
  let op := gen_opc_buf st (op_index st) in
  (op = INDEX_op_call -> arg st1 0 = arg st 0)
  /\ forall p, (args st + op_len defs op (opparam st) (args st) <= p)%nat ->
       opparam st1 p = opparam st p.
Proof.
  intros Ep op. unfold prepare, propagate_copies in Ep. fold op in Ep.
  pose proof (arity_args op) as Hd. pose proof (defs_ok op) as Hd'.
  destruct op eqn:Eop.
  2: { destruct (call_counts (arg st 0)) as [c|] eqn:Ec; cbn [bind] in Ep;
         [|discriminate].
       match type of Ep with bind ?r _ = _ => destruct r as [st2|] eqn:E2 end;
         cbn [bind] in Ep; [|discriminate].
       apply Ok_inj in Ep; subst st1. cbn [canonicalize].
       destruct (copy_propagate_frame _ _ _ _ E2) as (F1 & F2).
       split; [intros _; apply (copy_propagate_below _ _ _ _ E2); lia|].
       intros p Hp. apply F2. unfold op_len in Hp. unfold arg in Ec.
       rewrite Nat.add_0_r in Ec. rewrite Ec in Hp. destruct c as [o i].
       cbn [fst snd]. lia. }
  all: match type of Ep with bind ?r _ = _ => destruct r as [st2|] eqn:E2 end;
    cbn [bind] in Ep; [|discriminate];
    apply Ok_inj in Ep; subst st1;
    destruct (copy_propagate_frame _ _ _ _ E2) as (F1 & F2);
    destruct (copy_propagate_cursors _ _ _ _ _ E2) as (C1 & C2 & C3);
    specialize (Hd ltac:(discriminate));
    (split; [discriminate|]); unfold op_len; intros p Hp;
    first
      [ cbn [canonicalize]; apply F2; lia
      | cbn in Hd'; destruct Hd' as (Ho & Hi & Ha);
        rewrite canonicalize_frame by (cbn; lia); apply F2; lia ].
Qed.


Lemma gen_mov_shape st d x st' :
  tcg_opt_gen_mov s st d x = Ok st' ->
  exists tb, st' = set_gen_arg (set_gen_arg (set_temps st tb) 0 d) 1 x.
Proof.
  unfold tcg_opt_gen_mov. intros E. case_ok E. injection E as <-.
  eexists. reflexivity.
Qed.

Lemma copy_args_frame k : forall i st,
  gen_opc_buf (copy_args k i st) = gen_opc_buf st
  /\ forall p, (p < gen_args st + i \/ gen_args st + i + k <= p)%nat ->
       opparam (copy_args k i st) p = opparam st p.
Proof.
  induction k as [|k IH]; intros i st; simpl; [auto|].
  destruct (IH (S i) (set_gen_arg st i (arg st i))) as (I1 & I2).
  split; [exact I1|]. intros p Hp. rewrite I2 by (cbn; lia).
  cbn. unfold updn. destruct (Nat.eqb_spec p (gen_args st + i)); [lia|reflexivity].
Qed.

Ltac frame_leaf :=
  unfold framed, do_default;
  repeat match goal with
         | E : tcg_opt_gen_mov _ _ _ _ = Ok ?a |- _ =>
             apply gen_mov_shape in E; destruct E as (? & ->)
         end;
  repeat match goal with
         | |- context [if ?b then _ else _] => destruct b
         end;
  unfold tcg_opt_gen_movi;
  repeat match goal with
         | |- context [copy_args ?k ?i ?st] =>
             let a := fresh in let b := fresh in let c := fresh in
             let f := fresh in let g := fresh in
             destruct (copy_args_cursors k i st) as (a & b & c);
             destruct (copy_args_frame k i st) as (f & g);
             cbn [temps gen_opc_buf opparam args gen_args op_index
                  next_op set_gen_arg set_arg set_opc set_opc_at set_temps] in *;
             generalize dependent (copy_args k i st); intros
         end;
  cbn [temps gen_opc_buf opparam args gen_args op_index
       next_op set_gen_arg set_arg set_opc set_opc_at set_temps] in *;
  ((split; [|split; [|split]]);
  [ lia
  | intros p Hp; unfold updn;
    repeat match goal with
           | |- context [Nat.eqb ?a ?b] => destruct (Nat.eqb_spec a b); try lia
           end;
    try reflexivity;
    match goal with
    | G : forall p, _ -> opparam _ p = _ |- _ => rewrite G by lia; reflexivity
    end
  | intros j Hj; unfold updn;
    repeat match goal with
           | |- context [Nat.eqb ?a ?b] => destruct (Nat.eqb_spec a b); try lia
           end;
    try reflexivity; congruence
  | first [ left; lia | right; split; [lia | assumption] ] ]).

Lemma do_default_frame op st :
  (gen_args st <= args st)%nat ->
  framed st (do_default defs s op st) (nb_args (defs op)).
Proof. intros Hle. frame_leaf. Qed.

Lemma rewrite_frame op st st' :
  op <> INDEX_op_call ->
  (gen_args st <= args st)%nat ->
  rewrite bits defs s op st = Ok st' ->
  framed st st' (nb_args (defs op)).
Proof.
  intros Hop Hle E. pose proof (defs_ok op) as Hd.
  unfold rewrite, or_else in E.
  unfold simplify_shift_of_zero, simplify_op_zero_mov, simplify_op_zero_movi,
    simplify_op_same_mov, simplify_op_same_movi, emit_movi_zero, emit_mov_or_nop,
    fold_op, fold_to_movi, fold_to_movi2, fold_branch in E.
  destruct op; try congruence;
    try (cbn in Hd; destruct Hd as (_ & _ & Ha));
    case_ok E; try discriminate;
    repeat match goal with
           | H : Ok _ = Ok _ |- _ => injection H as <-
           | H : Some _ = Some _ |- _ => injection H as <-
           | H : bind _ _ = Ok _ |- _ => case_ok H
           | H : (if _ then _ else _) = Ok _ |- _ => case_ok H
           end; try discriminate.
  all: try (apply do_default_frame; exact Hle).
  all: try solve [frame_leaf].
Qed.

Lemma rewrite_call_frame st st' :
  (gen_args st <= args st)%nat ->
  rewrite bits defs s INDEX_op_call st = Ok st' ->
  framed st st' (op_len defs INDEX_op_call (opparam st) (args st)).
Proof.
  intros Hle E. unfold rewrite in E. cbn in E. unfold op_len.
  unfold arg in E at 1. rewrite Nat.add_0_r in E.
  destruct (call_counts (opparam st (args st))) as [[o i]|] eqn:Ec;
    cbn [bind fst snd] in E; [|discriminate].
  injection E as <-. frame_leaf.
Qed.

(** A turn of the loop reads the arguments of its operation and writes
    below its new read cursor; it rewrites the opcode of its operation
    and, after a folded double-word operation, of the nop that follows. *)
Lemma step_frame st st' :
  (gen_args st <= args st)%nat ->
  step bits defs s st = Ok st' ->
  framed st st'
    (op_len defs (gen_opc_buf st (op_index st)) (opparam st) (args st)).
Proof.
  intros Hle E. unfold step in E.
  destruct (prepare bits defs s st) as [st1|] eqn:Ep; cbn [bind] in E;
    [|discriminate].
  destruct (prepare_temps _ _ _ _ _ Ep) as (_ & Ho).
  destruct (prepare_cursors _ _ _ _ _ Ep) as (Ca & Cg & Ci).
  destruct (prepare_frame _ _ Ep) as (P0 & P1).
  assert (F : framed st1 st'
                (op_len defs (gen_opc_buf st (op_index st)) (opparam st) (args st))).
  { destruct (gen_opc_buf st (op_index st)) eqn:Eop.
    2: { replace (op_len defs INDEX_op_call (opparam st) (args st))
           with (op_len defs INDEX_op_call (opparam st1) (args st1)).
         - apply rewrite_call_frame; [lia | exact E].
         - unfold op_len. specialize (P0 eq_refl). unfold arg in P0.
           rewrite !Nat.add_0_r in P0. rewrite P0. reflexivity. }
    all: apply rewrite_frame; [discriminate | lia | exact E]. }
  destruct F as (F1 & F2 & F3 & F4). unfold framed.
  rewrite Ca in F1. rewrite Ci, Ho in F4. rewrite Ho in F3.
  split; [exact F1|]. split; [|split; [exact F3 | exact F4]].
  intros p Hp. rewrite F2 by exact Hp. apply P1. lia.
Qed.



(** *** Well-formed streams stay well formed *)

Lemma forallb_seq_ext (f g : nat -> bool) m : forall a,
  (forall j, f j = g j) -> forallb f (seq a m) = forallb g (seq a m).
Proof.
  induction m as [|m IH]; intros a H; simpl; [reflexivity|].
  rewrite H, (IH (S a) H). reflexivity.
Qed.

Lemma slots_in_range_ext op buf buf' pos :
  (forall p, (pos <= p)%nat -> buf' p = buf p) ->
  slots_in_range defs n op buf' pos = slots_in_range defs n op buf pos
  /\ op_len defs op buf' pos = op_len defs op buf pos.
Proof.
  intros H. unfold slots_in_range, op_len.
  rewrite (H pos) by lia.
  destruct op; try (split; [|reflexivity]; apply forallb_seq_ext; intros j;
                    rewrite H by lia; reflexivity).
  destruct (call_counts (buf pos)) as [[o i]|]; split; try reflexivity.
  apply forallb_seq_ext. intros j. rewrite H by lia. reflexivity.
Qed.

Lemma wf_stream_ext count : forall k pos opc opc' buf buf',
  (forall j, (k <= j)%nat -> opc' j = opc j) ->
  (forall p, (pos <= p)%nat -> buf' p = buf p) ->
  wf_stream defs n opc' buf' count k pos = wf_stream defs n opc buf count k pos.
Proof.
  induction count as [|count IH]; intros k pos opc opc' buf buf' Ho Hb; simpl;
    [reflexivity|].
  rewrite (Ho k) by lia.
  destruct (slots_in_range_ext (opc k) buf buf' pos Hb) as (-> & ->).
  f_equal. apply IH.
  - intros j Hj. apply Ho. lia.
  - intros p Hp. apply Hb. lia.
Qed.

Local Abbreviation loop_inv := (loop_inv defs n).

Lemma step_loop_inv nb st st' :
  (op_index st < nb)%nat ->
  loop_inv nb st -> step bits defs s st = Ok st' -> loop_inv nb st'.
Proof.
  intros Hlt (H & Hle & Hwf) E.
  destruct (nb - op_index st)%nat as [|c] eqn:Ec; [lia|].
  simpl in Hwf. apply andb_true_iff in Hwf as (Hs & Hwf).
  pose proof (step_advanced _ _ _ _ _ E) as (A1 & A2 & A3).
  destruct (step_frame _ _ Hle E) as (F1 & F2 & F3 & F4).
  split; [exact (step_ring_ok _ _ H Hs E)|]. split; [lia|].
  destruct F4 as [F4|(F4 & Fn)].
  - replace (nb - op_index st')%nat with c by lia.
    rewrite F4, F1, Nat.add_1_r.
    rewrite <- Hwf. apply wf_stream_ext.
    + intros j Hj. apply F3. lia.
    + intros p Hp. apply F2. lia.
  - destruct c as [|c].
    + replace (nb - op_index st')%nat with 0%nat by lia. reflexivity.
    + replace (nb - op_index st')%nat with c by lia.
      simpl in Hwf. apply andb_true_iff in Hwf as (_ & Hwf).
      rewrite Nat.add_1_r in Fn. rewrite Fn in Hwf. cbn [op_len] in Hwf.
      pose proof (defs_ok INDEX_op_nop) as (_ & _ & Hn). cbn in Hn.
      rewrite Hn, Nat.add_0_r in Hwf.
      rewrite F4, F1. replace (op_index st + 2)%nat with (S (S (op_index st))) by lia.
      rewrite <- Hwf. apply wf_stream_ext.
      * intros j Hj. apply F3. lia.
      * intros p Hp. apply F2. lia.
Qed.

Lemma run_loop_inv fuel : forall nb st st',
  loop_inv nb st -> run bits defs fuel s nb st = Ok st' -> loop_inv nb st'.
Proof.
  induction fuel as [|fuel IH]; intros nb st st' HJ E; simpl in E.
  - injection E as <-. exact HJ.
  - destruct (Nat.ltb_spec (op_index st) nb).
    + destruct (step bits defs s st) as [st1|] eqn:E1; cbn [bind] in E;
        [|discriminate].
      apply (IH nb st1 st'); [|exact E].
      apply (step_loop_inv nb st st1); assumption.
    + injection E as <-. exact HJ.
Qed.

Lemma entry_loop_inv nb st :
  wf_stream defs n (gen_opc_buf st) (opparam st) nb 0 (args st) = true ->
  loop_inv nb (entry s st).
Proof.
  intros Hwf. unfold loop_inv, entry. cbn. split; [apply memset_ring_ok|].
  split; [lia|]. rewrite Nat.sub_0_r. exact Hwf.
Qed.

End RingSteps.

(** *** Rings are cycles *)

Section Cycles.

Variable n : Z.
Variable tb : temp_table.
Hypothesis tb_ok : ring_ok n tb.
Variable t : TCGArg.
Hypothesis t_range : 0 <= t < n.
Hypothesis t_copy : state (tb t) = TCG_TEMP_COPY.

Lemma walk_S m : walk tb (S m) t = next_copy (tb (walk tb m t)).
Proof. reflexivity. Qed.

Lemma walk_copy m :
  0 <= walk tb m t < n /\ state (tb (walk tb m t)) = TCG_TEMP_COPY.
Proof.
  induction m as [|m (IH1 & IH2)]; [auto|].
  rewrite walk_S. destruct (tb_ok _ IH1 IH2) as (F1 & F2 & F3 & F4 & F5 & F6).
  auto.
Qed.

Lemma walk_pred i j :
  walk tb (S i) t = walk tb (S j) t -> walk tb i t = walk tb j t.
Proof.
  rewrite !walk_S. intros E.
  destruct (walk_copy i) as (I1 & I2). destruct (walk_copy j) as (J1 & J2).
  destruct (tb_ok _ I1 I2) as (_ & _ & _ & _ & F5 & _).
  destruct (tb_ok _ J1 J2) as (_ & _ & _ & _ & G5 & _).
  congruence.
Qed.

Lemma walk_shift i : forall d, walk tb i t = walk tb (i + d) t -> t = walk tb d t.
Proof.
  induction i as [|i IH]; intros d E; [exact E|].
  apply IH. apply walk_pred. exact E.
Qed.

(** Walking along the [next_copy] links from a copy comes back to it,
    after at most as many steps as there are temps. *)
Lemma walk_returns :
  exists m, (0 < m <= Z.to_nat n)%nat /\ walk tb m t = t.
Proof.
  set (N := Z.to_nat n).
  destruct (existsb (fun m => walk tb (S m) t =? t) (seq 0 N)) eqn:Ex.
  - apply existsb_exists in Ex as (m & Hin & Hm). exists (S m).
    apply in_seq in Hin. split; [lia|]. apply Z.eqb_eq. exact Hm.
  - exfalso.
    assert (Hno : forall m, (m < N)%nat -> walk tb (S m) t <> t).
    { intros m Hm Eq.
      assert (In m (seq 0 N)) as Hin by (apply in_seq; lia).
      rewrite <- not_true_iff_false in Ex. apply Ex.
      apply existsb_exists. exists m. split; [exact Hin|].
      apply Z.eqb_eq. exact Eq. }
    clear Ex.
    set (l := map (fun m => walk tb m t) (seq 0 (S N))).
    assert (Hl : length l = S N)
      by (unfold l; rewrite length_map, length_seq; reflexivity).
    assert (Hnth : forall i, (i < S N)%nat -> nth i l (walk tb 0 t) = walk tb i t).
    { intros i Hi. unfold l.
      rewrite (map_nth (fun m => walk tb m t) (seq 0 (S N)) 0%nat i).
      rewrite seq_nth by exact Hi. reflexivity. }
    assert (Hinj : forall i j, (i <= j)%nat -> (j < S N)%nat ->
                     walk tb i t = walk tb j t -> i = j).
    { intros i j Hij Hj Eq.
      destruct (Nat.eq_dec i j) as [|Hne]; [assumption|].
      exfalso. apply (Hno (j - i - 1)%nat); [lia|].
      replace (S (j - i - 1)) with (j - i)%nat by lia.
      symmetry. apply (walk_shift i). rewrite Eq. f_equal. lia. }
    assert (Hnd : NoDup l).
    { apply (NoDup_nth l (walk tb 0 t)). rewrite Hl. intros i j Hi Hj Eq.
      rewrite !Hnth in Eq by assumption.
      destruct (Nat.le_ge_cases i j).
      - apply Hinj; assumption.
      - symmetry. apply Hinj; [assumption | assumption | congruence]. }
    assert (Hincl : incl l (map Z.of_nat (seq 0 N))).
    { intros x Hx. unfold l in Hx. apply in_map_iff in Hx as (m & <- & _).
      destruct (walk_copy m) as (W1 & _).
      apply in_map_iff. exists (Z.to_nat (walk tb m t)). split; [lia|].
      apply in_seq. unfold N. lia. }
    pose proof (NoDup_incl_length Hnd Hincl) as Hlen.
    rewrite Hl, length_map, length_seq in Hlen. lia.
Qed.

(** *** Ring walks of the code end, and find what is in the ring *)

Lemma walk_period P a : walk tb P t = t -> walk tb (a + P) t = walk tb a t.
Proof. intros H. unfold walk in *. rewrite Nat.iter_add, H. reflexivity. Qed.

Lemma walk_mod P m :
  (0 < P)%nat -> walk tb P t = t -> walk tb m t = walk tb (m mod P) t.
Proof.
  intros HP H. rewrite (Nat.div_mod_eq m P) at 1.
  generalize (m / P)%nat as q. intros q.
  induction q as [|q IH].
  - f_equal. lia.
  - replace (P * S q + m mod P)%nat with ((P * q + m mod P) + P)%nat by lia.
    rewrite walk_period by exact H. exact IH.
Qed.

Section Scan.

Variable p : TCGArg -> bool.

Lemma ring_scan_total d : forall fuel j,
  walk tb (j + d) t = t -> (d <= fuel)%nat ->
  exists r, ring_scan fuel tb t p (walk tb j t) = Ok r.
Proof.
  induction d as [|d IH]; intros fuel j Hr Hf; rewrite ring_scan_eq.
  - rewrite Nat.add_0_r in Hr. rewrite Hr, Z.eqb_refl. eexists. reflexivity.
  - destruct (walk tb j t =? t); [eexists; reflexivity|].
    destruct (p (walk tb j t)); [eexists; reflexivity|].
    destruct fuel as [|fuel]; [lia|].
    rewrite <- walk_S. apply IH; [|lia].
    replace (S j + d)%nat with (j + S d)%nat by lia. exact Hr.
Qed.

Lemma ring_scan_some fuel : forall j r,
  ring_scan fuel tb t p (walk tb j t) = Ok (Some r) ->
  p r = true /\ exists m, walk tb m t = r.
Proof.
  induction fuel as [|fuel IH]; intros j r E; rewrite ring_scan_eq in E;
    (destruct (walk tb j t =? t); [discriminate|]);
    (destruct (p (walk tb j t)) eqn:Ep;
      [injection E as <-; split; [exact Ep | eexists; reflexivity]|]);
    [discriminate|].
  rewrite <- walk_S in E. exact (IH (S j) r E).
Qed.

Lemma ring_scan_none fuel : forall j,
  ring_scan fuel tb t p (walk tb j t) = Ok None ->
  exists d, walk tb (j + d) t = t
            /\ forall d', (d' < d)%nat -> p (walk tb (j + d') t) = false.
Proof.
  induction fuel as [|fuel IH]; intros j E; rewrite ring_scan_eq in E;
    (destruct (Z.eqb_spec (walk tb j t) t) as [Et|Et];
      [exists 0%nat; rewrite Nat.add_0_r; split; [exact Et | intros; lia]|]);
    (destruct (p (walk tb j t)) eqn:Ep; [discriminate|]);
    [discriminate|].
  rewrite <- walk_S in E. destruct (IH (S j) E) as (d & D1 & D2).
  exists (S d). split.
  - replace (j + S d)%nat with (S j + d)%nat by lia. exact D1.
  - intros d' Hd'. destruct d' as [|d'].
    + rewrite Nat.add_0_r. exact Ep.
    + replace (j + S d')%nat with (S j + d')%nat by lia. apply D2. lia.
Qed.

End Scan.

End Cycles.

(** C4: after each operation the driver has processed, every temp [t] in
    [COPY] state has [next(prev(t)) = t] and [prev(next(t)) = t], walking
    along the [next] links from [t] comes back to [t], and every temp met
    on the way is in [COPY] state, so no [CONST] temp is in a ring.  The
    stream names temps of the context only, the context has at most
    [2 ^ 16] temps (the links are 16 bits wide), and the opcode table has
    the arities the driver relies on. *)
Theorem copy_rings_stay_well_formed bits defs s nb_ops st k st' :
  arity_ok defs ->
  nb_temps s <= 65536 ->
  0 <= nb_globals s <= nb_temps s ->
  wf_stream defs (nb_temps s) (gen_opc_buf st) (opparam st) nb_ops 0 (args st)
    = true ->
  run bits defs k s nb_ops (entry s st) = Ok st' ->
  forall t, 0 <= t < nb_temps s -> state (temps st' t) = TCG_TEMP_COPY ->
    next_copy (temps st' (prev_copy (temps st' t))) = t
    /\ prev_copy (temps st' (next_copy (temps st' t))) = t
    /\ (exists m, (0 < m)%nat /\ walk (temps st') m t = t)
    /\ (forall m, state (temps st' (walk (temps st') m t)) = TCG_TEMP_COPY)
    /\ (forall m, state (temps st' (walk (temps st') m t)) <> TCG_TEMP_CONST).
Proof.
  intros Hd Hn Hg Hwf E t Ht St.
  pose proof (entry_loop_inv defs s nb_ops st Hwf) as HJ.
  destruct (run_loop_inv bits defs s Hd Hn Hg k nb_ops _ st' HJ E) as (H & _).
  destruct (H t Ht St) as (F1 & F2 & F3 & F4 & F5 & F6).
  split; [exact F6|]. split; [exact F5|].
  split.
  { destruct (walk_returns _ _ H t Ht St) as (m & Hm & Hw).
    exists m. split; [lia | exact Hw]. }
  split.
  - intros m. exact (proj2 (walk_copy _ _ H t Ht St m)).
  - intros m. rewrite (proj2 (walk_copy _ _ H t Ht St m)). discriminate.
Qed.

Lemma std_op_defs_arity_ok : arity_ok std_op_defs.
Proof. intros op. destruct op; cbn; auto with arith. Qed.

Lemma copy_rings_stay_well_formed_witness :
  let st := load [INDEX_op_mov_i32; INDEX_op_mov_i32] [1; 0; 2; 1] in
  exists st',
    run 64 std_op_defs 2 (ctx32 8 1) 2 (entry (ctx32 8 1) st) = Ok st'
    /\ state (temps st' 1) = TCG_TEMP_COPY
    /\ next_copy (temps st' (prev_copy (temps st' 1))) = 1
    /\ prev_copy (temps st' (next_copy (temps st' 1))) = 1
    /\ (exists m, (0 < m)%nat /\ walk (temps st') m 1 = 1)
    /\ (forall m, state (temps st' (walk (temps st') m 1)) = TCG_TEMP_COPY)
    /\ (forall m, state (temps st' (walk (temps st') m 1)) <> TCG_TEMP_CONST).
Proof.
  intros st.
  destruct (run 64 std_op_defs 2 (ctx32 8 1) 2 (entry (ctx32 8 1) st))
    as [st'|e] eqn:E.
  - exists st'. split; [reflexivity|].
    assert (Hs : state (temps st' 1) = TCG_TEMP_COPY).
    { assert (E' := E). vm_compute in E'. injection E' as <-.
      vm_compute. reflexivity. }
    split; [exact Hs|].
    assert (Hn : nb_temps (ctx32 8 1) <= 65536) by (cbn; lia).
    assert (Hg : 0 <= nb_globals (ctx32 8 1) <= nb_temps (ctx32 8 1))
      by (cbn; lia).
    assert (Hwf : wf_stream std_op_defs (nb_temps (ctx32 8 1)) (gen_opc_buf st)
                    (opparam st) 2 0 (args st) = true)
      by (vm_compute; reflexivity).
    assert (Ht : 0 <= 1 < nb_temps (ctx32 8 1)) by (cbn; lia).
    exact (copy_rings_stay_well_formed 64 std_op_defs (ctx32 8 1) 2 st 2 st'
             std_op_defs_arity_ok Hn Hg Hwf E 1 Ht Hs).
  - vm_compute in E. discriminate E.
Defined.

Lemma tcg_opt_gen_mov_records_copy_witness :
  let st := load [INDEX_op_mov_i32] [2; 1] in
  exists st',
    tcg_opt_gen_mov (ctx32 8 1) st 2 1 = Ok st'
    /\ opparam st' (gen_args st) = 2
    /\ opparam st' (gen_args st + 1) = 1
    /\ ring_ok 8 (temps st')
    /\ (temp_type (ctx32 8 1) 1 = temp_type (ctx32 8 1) 2 ->
        state (temps st' 2) = TCG_TEMP_COPY
        /\ state (temps st' 1) = TCG_TEMP_COPY
        /\ next_copy (temps st' 1) = 2
        /\ prev_copy (temps st' 2) = 1
        /\ temps_are_copies (temps st') 1 2 = Ok true)
    /\ (temp_type (ctx32 8 1) 1 <> temp_type (ctx32 8 1) 2 ->
        state (temps st' 2) = TCG_TEMP_UNDEF
        /\ state (temps st' 1) = state (temps st 1)
        /\ temps_are_copies (temps st') 2 1 = Ok false
        /\ temps_are_copies (temps st') 1 2 = Ok false).
Proof.
  intros st.
  assert (Hn : 8 <= 65536) by lia.
  assert (H : ring_ok 8 (temps st)) by (intros t _ St; discriminate St).
  assert (Hd : 0 <= 2 < 8) by lia.
  assert (Hs : 0 <= 1 < 8) by lia.
  assert (Hcp : temps_are_copies (temps st) 2 1 = Ok false)
    by (vm_compute; reflexivity).
  assert (Hc : is_state (temps st) 1 TCG_TEMP_CONST = false)
    by (vm_compute; reflexivity).
  exact (tcg_opt_gen_mov_records_copy (ctx32 8 1) st 2 1 8 Hn H Hd Hs Hcp Hc).
Defined.

Lemma RING_FUEL_eq : RING_FUEL = Z.to_nat 65536.
Proof. with_strategy transparent [RING_FUEL] reflexivity. Qed.

(** *** [temps_are_copies] decides membership of the same ring *)

Section SameRing.

Variable n : Z.
Hypothesis n_small : n <= 65536.
Variable tb : temp_table.
Hypothesis tb_ok : ring_ok n tb.
Variable x : TCGArg.
Hypothesis x_range : 0 <= x < n.

Lemma ring_scan_from_copy p :
  state (tb x) = TCG_TEMP_COPY ->
  exists r, ring_scan RING_FUEL tb x p (next_copy (tb x)) = Ok r.
Proof.
  intros Sx.
  destruct (walk_returns n tb tb_ok x x_range Sx) as (m & Hm & Hw).
  change (next_copy (tb x)) with (walk tb 1 x).
  apply (ring_scan_total tb x p (m - 1)).
  - replace (1 + (m - 1))%nat with m by lia. exact Hw.
  - rewrite RING_FUEL_eq. lia.
Qed.

(** Under the invariant the walk of [temps_are_copies] ends. *)
Lemma temps_are_copies_total y : exists b, temps_are_copies tb x y = Ok b.
Proof.
  unfold temps_are_copies.
  destruct (x =? y); [eexists; reflexivity|].
  destruct (is_state tb x TCG_TEMP_COPY) eqn:Sx; cbn [negb orb];
    [|eexists; reflexivity].
  destruct (is_state tb y TCG_TEMP_COPY); cbn [negb];
    [|eexists; reflexivity].
  apply is_state_true in Sx.
  destruct (ring_scan_from_copy (fun i => i =? y) Sx) as (r & ->).
  cbn [bind]. destruct r; eexists; reflexivity.
Qed.

(** It answers true exactly for a temp and itself and for two copies of
    which the second is met on the walk from the first. *)
Lemma temps_are_copies_spec y :
  temps_are_copies tb x y = Ok true
  <-> x = y
      \/ (state (tb x) = TCG_TEMP_COPY /\ state (tb y) = TCG_TEMP_COPY
          /\ exists m, walk tb m x = y).
Proof.
  unfold temps_are_copies.
  destruct (Z.eqb_spec x y) as [E|E]; [tauto|].
  destruct (is_state tb x TCG_TEMP_COPY) eqn:Sx; cbn [negb orb].
  2: { apply is_state_false in Sx. split; [discriminate|].
       intros [H|(H & _)]; contradiction. }
  destruct (is_state tb y TCG_TEMP_COPY) eqn:Sy; cbn [negb].
  2: { apply is_state_false in Sy. split; [discriminate|].
       intros [H|(_ & H & _)]; contradiction. }
  apply is_state_true in Sx, Sy.
  destruct (ring_scan_from_copy (fun i => i =? y) Sx) as (r & Er).
  rewrite Er. cbn [bind].
  change (next_copy (tb x)) with (walk tb 1 x) in Er.
  destruct r as [r|].
  - split; [|reflexivity]. intros _. right.
    destruct (ring_scan_some tb x _ _ _ _ Er) as (Hp & m & Hm).
    apply Z.eqb_eq in Hp. subst r. eauto.
  - split; [discriminate|]. intros [H|(_ & _ & m & Hm)]; [contradiction|].
    exfalso.
    destruct (ring_scan_none tb x _ _ _ Er) as (d & D1 & D2).
    rewrite (walk_mod tb x (1 + d) m) in Hm by (lia || exact D1).
    pose proof (Nat.mod_upper_bound m (1 + d) ltac:(lia)) as Hb.
    destruct (m mod (1 + d))%nat as [|k] eqn:Ek.
    + cbn in Hm. contradiction.
    + specialize (D2 k ltac:(lia)). cbn beta in D2.
      replace (1 + k)%nat with (S k) in D2 by lia.
      rewrite Hm, Z.eqb_refl in D2. discriminate.
Qed.

End SameRing.

(** *** Phases 1 and 2 end *)

Section Totality.

Variable bits : Z.
Variable defs : TCGOpcode -> TCGOpDef.
Variable s : TCGContext.
Hypothesis temps_small : nb_temps s <= 65536.

Let n := nb_temps s.

Lemma find_better_copy_total tb x :
  ring_ok n tb -> 0 <= x < n -> state (tb x) = TCG_TEMP_COPY ->
  exists r, find_better_copy s tb x = Ok r.
Proof.
  intros H Hx Sx. unfold find_better_copy.
  destruct (x <? nb_globals s); [eexists; reflexivity|].
  destruct (ring_scan_from_copy n temps_small tb H x Hx
              (fun i => i <? nb_globals s) Sx) as (g & ->).
  cbn [bind]. destruct g; [eexists; reflexivity|].
  destruct (negb (temp_local s x)); [|eexists; reflexivity].
  destruct (ring_scan_from_copy n temps_small tb H x Hx
              (fun i => temp_local s i) Sx) as (l & ->).
  cbn [bind]. destruct l; eexists; reflexivity.
Qed.

Lemma copy_propagate_total (P : nat -> Prop) k : forall i st,
  ring_ok n (temps st) ->
  (forall j, (i <= j < i + k)%nat -> P j) ->
  slots_ok n P st ->
  exists st', copy_propagate s k i st = Ok st'.
Proof.
  induction k as [|k IH]; intros i st H HP Hs; simpl.
  - eexists. reflexivity.
  - assert (Hi : 0 <= arg st i < n) by (apply Hs, HP; lia).
    destruct (is_state (temps st) (arg st i) TCG_TEMP_COPY) eqn:Si.
    + apply is_state_true in Si.
      destruct (find_better_copy_total _ _ H Hi Si) as (r & Er).
      rewrite Er. cbn [bind]. apply IH.
      * exact H.
      * intros j Hj. apply HP. lia.
      * intros j Hj. unfold arg, set_arg, updn. cbn.
        destruct (Nat.eqb_spec (args st + j) (args st + i)).
        -- exact (find_better_copy_range s _ _ _ H Hi Si Er).
        -- apply Hs. exact Hj.
    + cbn [bind]. apply IH; [exact H | | exact Hs].
      intros j Hj. apply HP. lia.
Qed.

(** On an operation other than a call whose temp slots hold temps of the
    context, in a table with well-formed rings, phases 1 and 2 return. *)
Lemma prepare_total st :
  gen_opc_buf st (op_index st) <> INDEX_op_call ->
  ring_ok n (temps st) ->
  slots_in_range defs n (gen_opc_buf st (op_index st)) (opparam st) (args st)
    = true ->
  exists st1, prepare bits defs s st = Ok st1.
Proof.
  intros Hop H Hs. unfold prepare, propagate_copies.
  set (op := gen_opc_buf st (op_index st)) in *.
  destruct (copy_propagate_total
              (fun j => (j < nb_oargs (defs op) + nb_iargs (defs op))%nat)
              (nb_iargs (defs op)) (nb_oargs (defs op)) st H) as (st' & E).
  - intros j Hj. lia.
  - intros j Hj. unfold slots_in_range in Hs.
    destruct op; try congruence;
      match type of Hs with
      | forallb _ (seq 0 ?m) = true =>
          assert (Hin : In j (seq 0 m)) by (apply in_seq; lia)
      end;
      rewrite forallb_forall in Hs;
      specialize (Hs j Hin); unfold temp_in_range in Hs;
      apply andb_true_iff in Hs; unfold arg; lia.
  - destruct op; try congruence; rewrite E; cbn [bind]; eexists; reflexivity.
Qed.

End Totality.

(** *** The ring walks of a turn of the loop end *)

(** Find where an error of a compound computation comes from. *)
Ltac err_hyps :=
  repeat match goal with
  | H : bind ?r _ = Err _ |- _ => destruct r eqn:?; cbn [bind] in H
  | H : (if ?b then _ else _) = Err _ |- _ => destruct b eqn:?
  | H : match ?x with _ => _ end = Err _ |- _ => destruct x eqn:?
  | H : Ok _ = Err _ |- _ => discriminate H
  | H : Err ?e = Err ?e' |- _ =>
      first [ discriminate H | injection H as -> | injection H as <- ]
  end.

Lemma TCGOpcode_call_dec (op : TCGOpcode) :
  {op = INDEX_op_call} + {op <> INDEX_op_call}.
Proof. destruct op; (left; reflexivity) || (right; discriminate). Qed.

Section NoDivergence.

Variable bits : Z.
Variable defs : TCGOpcode -> TCGOpDef.
Variable s : TCGContext.
Hypothesis defs_ok : arity_ok defs.
Hypothesis temps_small : nb_temps s <= 65536.

Let n := nb_temps s.

Lemma temps_are_copies_ends tb x y :
  ring_ok n tb -> 0 <= x < n ->
  temps_are_copies tb x y <> Err no_termination.
Proof.
  intros H Hx E.
  destruct (temps_are_copies_total n temps_small tb H x Hx y) as (b & Eb).
  congruence.
Qed.

Lemma fold_cond_ends tb op x y c :
  ring_ok n tb -> 0 <= x < n ->
  do_constant_folding_cond defs tb op x y c <> Err no_termination.
Proof.
  intros H Hx E. unfold do_constant_folding_cond in E.
  unfold do_constant_folding_cond_32, do_constant_folding_cond_64,
    fold_cond_bits, do_constant_folding_cond_eq in E.
  err_hyps.
  all: match goal with
       | E : temps_are_copies _ _ _ = Err no_termination |- _ =>
           exact (temps_are_copies_ends _ _ _ H Hx E)
       end.
Qed.

Lemma fold_cond2_ends tb al ah bl bh c :
  ring_ok n tb -> 0 <= al < n -> 0 <= ah < n ->
  do_constant_folding_cond2 tb al ah bl bh c <> Err no_termination.
Proof.
  intros H Hl Hh E. unfold do_constant_folding_cond2 in E.
  unfold do_constant_folding_cond_64,
    fold_cond_bits, do_constant_folding_cond_eq in E.
  err_hyps.
  all: match goal with
       | E : temps_are_copies _ _ _ = Err no_termination |- _ =>
           first [ exact (temps_are_copies_ends _ _ _ H Hl E)
                 | exact (temps_are_copies_ends _ _ _ H Hh E) ]
       end.
Qed.

Lemma fold_ends op x y :
  do_constant_folding bits defs op x y <> Err no_termination.
Proof.
  intros E. unfold do_constant_folding, do_constant_folding_2, c_shl, c_shr, c_sar in E.
  destruct op; err_hyps.
Qed.


Ltac in_slot Hs :=
  unfold arg, set_arg, set_opc, set_opc_at, updn;
  cbn [temps gen_opc_buf opparam args gen_args op_index];
  match goal with
  | |- 0 <= opparam ?st (args ?st + ?k)%nat < _ =>
      apply (Hs k); cbv beta; lia
  end.

Ltac ends_leaf H Hs :=
  match goal with
  | E : temps_are_copies _ _ _ = Err no_termination |- _ =>
      refine (temps_are_copies_ends _ _ _ H _ E); in_slot Hs
  | E : do_constant_folding_cond _ _ _ _ _ _ = Err no_termination |- _ =>
      refine (fold_cond_ends _ _ _ _ _ H _ E); in_slot Hs
  | E : do_constant_folding_cond2 _ _ _ _ _ _ = Err no_termination |- _ =>
      refine (fold_cond2_ends _ _ _ _ _ _ H _ _ E); in_slot Hs
  | E : do_constant_folding _ _ _ _ _ = Err no_termination |- _ =>
      exact (fold_ends _ _ _ E)
  end.

Lemma rewrite_ends op st :
  op <> INDEX_op_call ->
  ring_ok n (temps st) ->
  slots_ok n (fun j => (j < nb_oargs (defs op) + nb_iargs (defs op))%nat) st ->
  rewrite bits defs s op st <> Err no_termination.
Proof.
  intros Hop H Hs E. pose proof (defs_ok op) as Hd.
  unfold rewrite, or_else in E.
  unfold simplify_shift_of_zero, simplify_op_zero_mov, simplify_op_zero_movi,
    simplify_op_same_mov, simplify_op_same_movi, emit_movi_zero, emit_mov_or_nop,
    fold_op, fold_to_movi, fold_to_movi2, fold_branch,
    tcg_opt_gen_mov, op_to_movi, op_to_mov, c_shl in E.
  destruct op; try congruence;
    try (cbn in Hd; destruct Hd as (Ho & Hi & _);
         rewrite Ho, Hi in Hs; cbn [Nat.add] in Hs);
    err_hyps; try ends_leaf H Hs.
Qed.

Lemma prepare_slots st st1 :
  gen_opc_buf st (op_index st) <> INDEX_op_call ->
  ring_ok n (temps st) ->
  slots_in_range defs n (gen_opc_buf st (op_index st)) (opparam st) (args st)
    = true ->
  prepare bits defs s st = Ok st1 ->
  slots_ok n (fun j => (j < nb_oargs (defs (gen_opc_buf st (op_index st)))
                           + nb_iargs (defs (gen_opc_buf st (op_index st))))%nat)
           st1.
Proof.
  intros Hop H Hs Ep. unfold prepare, propagate_copies in Ep.
  set (op := gen_opc_buf st (op_index st)) in *.
  assert (Hs0 : slots_ok n (fun j => (j < nb_oargs (defs op)
                                         + nb_iargs (defs op))%nat) st).
  { intros j Hj. unfold slots_in_range in Hs.
    destruct op; try congruence;
      match type of Hs with
      | forallb _ (seq 0 ?m) = true =>
          assert (Hin : In j (seq 0 m)) by (apply in_seq; lia)
      end;
      rewrite forallb_forall in Hs;
      specialize (Hs j Hin); unfold temp_in_range in Hs;
      apply andb_true_iff in Hs; unfold arg; lia. }
  assert (E : exists st2,
             copy_propagate s (nb_iargs (defs op)) (nb_oargs (defs op)) st = Ok st2
             /\ st1 = canonicalize bits op st2).
  { destruct op; try congruence;
      match type of Ep with bind ?r _ = _ => destruct r as [st2|] eqn:E2 end;
      cbn [bind] in Ep; try discriminate;
      apply Ok_inj in Ep; exists st2; auto. }
  destruct E as (st2 & E2 & ->).
  apply (canonicalize_slots bits defs s defs_ok); [exact Hop|].
  refine (copy_propagate_slots s _ _ _ _ _ H _ Hs0 E2).
  intros j Hj. lia.
Qed.

(** In a table with well-formed rings, on an operation whose temps are
    temps of the context, no ring walk of a turn of the loop goes on for
    ever. *)
Lemma step_ends st :
  ring_ok n (temps st) ->
  slots_in_range defs n (gen_opc_buf st (op_index st)) (opparam st) (args st)
    = true ->
  step bits defs s st <> Err no_termination.
Proof.
  intros H Hs E. unfold step in E.
  destruct (prepare bits defs s st) as [st1|e] eqn:Ep; cbn [bind] in E.
  - destruct (prepare_temps _ _ _ _ _ Ep) as (Ht & _).
    destruct (TCGOpcode_call_dec (gen_opc_buf st (op_index st))) as [Ec|Ec].
    + rewrite Ec in E. unfold rewrite in E. cbn in E. unfold call_counts in E.
      err_hyps.
    + refine (rewrite_ends _ st1 Ec _ _ E).
      * rewrite Ht. exact H.
      * exact (prepare_slots st st1 Ec H Hs Ep).
  - injection E as ->.
    destruct (TCGOpcode_call_dec (gen_opc_buf st (op_index st))) as [Ec|Ec].
    + unfold prepare, propagate_copies in Ep. rewrite Ec in Ep, Hs.
      unfold slots_in_range in Hs. unfold arg in Ep at 1.
      rewrite Nat.add_0_r in Ep.
      destruct (call_counts (opparam st (args st))) as [[o i]|] eqn:Ecc;
        cbn [bind fst snd] in Ep;
        [|injection Ep as ->; unfold call_counts in Ecc; err_hyps].
      destruct (copy_propagate_total s temps_small
                  (fun j => (1 <= j < 1 + o + i)%nat) i (o + 1) st H)
        as (st2 & E2).
      * intros j Hj. lia.
      * intros j Hj. rewrite forallb_forall in Hs.
        assert (Hin : In (j - 1)%nat (seq 0 (o + i))) by (apply in_seq; lia).
        specialize (Hs _ Hin). unfold temp_in_range in Hs.
        apply andb_true_iff in Hs. unfold arg.
        replace (args st + j)%nat with (args st + 1 + (j - 1))%nat by lia.
        lia.
      * rewrite E2 in Ep. discriminate.
    + destruct (prepare_total bits defs s temps_small st Ec H Hs) as (st1 & E1).
      congruence.
Qed.

Hypothesis globals_ok : 0 <= nb_globals s <= nb_temps s.

Lemma run_ends fuel : forall nb st,
  loop_inv defs n nb st ->
  run bits defs fuel s nb st <> Err no_termination.
Proof.
  induction fuel as [|fuel IH]; intros nb st HJ E; simpl in E; [discriminate|].
  destruct (Nat.ltb_spec (op_index st) nb) as [Hlt|]; [|discriminate].
  destruct (step bits defs s st) as [st1|e] eqn:E1; cbn [bind] in E.
  - refine (IH nb st1 _ E).
    exact (step_loop_inv bits defs s defs_ok temps_small globals_ok
             nb st st1 Hlt HJ E1).
  - injection E as ->. destruct HJ as (H & _ & Hwf).
    destruct (nb - op_index st)%nat as [|c] eqn:Ec; [lia|].
    simpl in Hwf. apply andb_true_iff in Hwf as (Hs & _).
    exact (step_ends st H Hs E1).
Qed.

(** X23: on a well-formed stream the pass returns, or stops at a
    [tcg_abort], a failed assertion or an undefined operation of C; it
    never loops in a ring. *)
Lemma tcg_optimize_ends nb_ops st :
  wf_stream defs n (gen_opc_buf st) (opparam st) nb_ops 0 (args st) = true ->
  tcg_optimize bits defs s nb_ops st <> Err no_termination.
Proof.
  intros Hwf. unfold tcg_optimize, tcg_constant_folding.
  apply run_ends. apply entry_loop_inv. exact Hwf.
Qed.

End NoDivergence.

(** C6: when the two compared arguments are the same temp or copies of
    each other, [do_constant_folding_cond] returns the answer the
    predicate alone gives: 1 for EQ, GE, GEU, LE, LEU and 0 for NE, LT,
    LTU, GT, GTU.  "Copies of each other" is what [temps_are_copies]
    answers, and, in a table with well-formed rings, the same as being
    members of one ring. *)
Theorem do_constant_folding_cond_copies defs tb op x y c :
  (temps_are_copies tb x y = Ok true ->
   do_constant_folding_cond defs tb op x y (arg_of_cond c)
     = Ok (cond_on_equal c))
  /\ (forall n, n <= 65536 -> ring_ok n tb -> 0 <= x < n ->
      x = y
      \/ (state (tb x) = TCG_TEMP_COPY /\ state (tb y) = TCG_TEMP_COPY
          /\ exists m, walk tb m x = y) ->
      do_constant_folding_cond defs tb op x y (arg_of_cond c)
        = Ok (cond_on_equal c)).
Proof.
  split.
  - apply fold_cond_of_copies.
  - intros n Hn H Hx Hm. apply fold_cond_of_copies.
    apply (temps_are_copies_spec n Hn tb H x Hx y). exact Hm.
Qed.

Lemma do_constant_folding_cond_copies_witness :
  do_constant_folding_cond std_op_defs (fun _ => zero_info)
    INDEX_op_setcond_i32 3 3 (arg_of_cond TCG_COND_GEU) = Ok 1.
Proof.
  apply (proj1 (do_constant_folding_cond_copies std_op_defs (fun _ => zero_info)
                  INDEX_op_setcond_i32 3 3 TCG_COND_GEU)).
  reflexivity.
Defined.

(** * Further properties *)

(** ** Shifts by a constant *)



(** ** A folded constant fits its operation *)

Lemma wrap_range bits x : 0 <= bits -> 0 <= wrap bits x < 2 ^ bits.
Proof. intros H. apply Z.mod_pos_bound. apply Z.pow_pos_nonneg; lia. Qed.

Lemma do_constant_folding_2_range bits op x y r :
  0 <= bits ->
  0 <= x < 2 ^ bits -> 0 <= y < 2 ^ bits ->
  do_constant_folding_2 bits op x y = Ok r -> 0 <= r < 2 ^ bits.
Proof.
  intros Hb Hx Hy E.
  pose proof (wrap_range bits) as W.
  destruct op; cbn [do_constant_folding_2] in E;
    try discriminate E;
    try (injection E as <-; apply W; exact Hb);
    try (case_ok E; injection E as <-; apply W; exact Hb).
  - injection E as <-. rewrite <- (land_mod_l x y bits) by lia.
    apply Z.mod_pos_bound. lia.
  - injection E as <-. rewrite <- (lor_mod x y bits) by lia.
    apply Z.mod_pos_bound. lia.
  - injection E as <-. rewrite <- (lxor_mod x y bits) by lia.
    apply Z.mod_pos_bound. lia.
  - injection E as <-. rewrite <- (land_mod_l x _ bits) by lia.
    apply Z.mod_pos_bound. lia.
  - injection E as <-. rewrite <- (lor_mod x _ bits) by (try apply W; lia).
    apply Z.mod_pos_bound. lia.
Qed.

(** X3: a constant that [do_constant_folding] returns fits the width of
    its operation: it is in [0, 2 ^ 32) for a 32-bit operation and in
    [0, 2 ^ 64) for a 64-bit one. *)
Theorem do_constant_folding_range bits defs op x y r :
  bits = 32 \/ bits = 64 ->
  op_bits defs op <= bits ->
  0 <= x < 2 ^ bits -> 0 <= y < 2 ^ bits ->
  do_constant_folding bits defs op x y = Ok r ->
  0 <= r < 2 ^ op_bits defs op.
Proof.
  intros Hb Hw Hx Hy E. unfold do_constant_folding in E.
  destruct (do_constant_folding_2 bits op x y) as [res|] eqn:E2;
    cbn [bind] in E; [|discriminate E].
  apply do_constant_folding_2_range in E2; try lia.
  destruct (op_bits_cases defs op) as [Ho|Ho]; rewrite Ho in *; cbn in E;
    injection E as <-.
  - rewrite mask32_ones, Z.land_ones by lia. apply Z.mod_pos_bound. lia.
  - assert (bits = 64) by lia. subst bits. exact E2.
Qed.

(** ** [deposit] of two constants *)

Lemma copy_propagate_noop s n : forall i st,
  (forall j, (i <= j < i + n)%nat ->
     state (temps st (arg st j)) <> TCG_TEMP_COPY) ->
  copy_propagate s n i st = Ok st.
Proof.
  induction n as [|n IH]; intros i st H; simpl; [reflexivity|].
  assert (Hi : is_state (temps st) (arg st i) TCG_TEMP_COPY = false)
    by (apply is_state_false, H; lia).
  rewrite Hi. cbn [bind]. apply IH. intros j Hj. apply H. lia.
Qed.

Lemma const_not_copy (tb : temp_table) t :
  state (tb t) = TCG_TEMP_CONST -> state (tb t) <> TCG_TEMP_COPY.
Proof. congruence. Qed.

Lemma op_to_movi_ok defs op :
  op_to_movi defs op
  = Ok (if op_bits defs op =? 32 then INDEX_op_movi_i32 else INDEX_op_movi_i64).
Proof.
  unfold op_to_movi. destruct (op_bits_cases defs op) as [-> | ->]; reflexivity.
Qed.

(** The state of [dst] after [tcg_opt_gen_movi]. *)
Lemma gen_movi_const st off d v :
  state (temps (tcg_opt_gen_movi st off d v) d) = TCG_TEMP_CONST
  /\ val (temps (tcg_opt_gen_movi st off d v) d) = v.
Proof.
  unfold tcg_opt_gen_movi. cbn [temps set_gen_arg set_temps].
  unfold set_val, set_state, upd. rewrite !Z.eqb_refl. cbn. auto.
Qed.

(** X4: a [deposit] of two constants, at an offset below the host word
    size and with a length below 64, becomes a [movi] of the first
    constant with the [len] bits from [ofs] on replaced by the low bits
    of the second; the destination is recorded as that constant, five
    arguments are read and two written. *)
Theorem deposit_fold bits defs s w st :
  bits = 32 \/ bits = 64 ->
  arity_ok defs ->
  gen_opc_buf st (op_index st) = INDEX_op_deposit w ->
  state (temps st (arg st 1)) = TCG_TEMP_CONST ->
  state (temps st (arg st 2)) = TCG_TEMP_CONST ->
  0 <= val (temps st (arg st 1)) < 2 ^ bits ->
  0 <= val (temps st (arg st 2)) < 2 ^ bits ->
  0 <= arg st 3 < bits ->
  0 <= arg st 4 < 64 ->
  exists st' v,
    step bits defs s st = Ok st'
    /\ gen_opc_buf st' (op_index st)
       = (if op_bits defs (INDEX_op_deposit w) =? 32
          then INDEX_op_movi_i32 else INDEX_op_movi_i64)
    /\ opparam st' (gen_args st) = arg st 0
    /\ opparam st' (gen_args st + 1) = v
    /\ state (temps st' (arg st 0)) = TCG_TEMP_CONST
    /\ val (temps st' (arg st 0)) = v
    /\ args st' = (args st + 5)%nat
    /\ gen_args st' = (gen_args st + 2)%nat
    /\ 0 <= v < 2 ^ bits
    /\ forall i, 0 <= i < bits ->
         Z.testbit v i
         = if (arg st 3 <=? i) && (i <? arg st 3 + arg st 4)
           then Z.testbit (val (temps st (arg st 2))) (i - arg st 3)
           else Z.testbit (val (temps st (arg st 1))) i.
Proof.
  intros Hb Hd Hop S1 S2 V1 V2 Ho Hl.
  pose proof (Hd (INDEX_op_deposit w)) as (A1 & A2 & A3). cbn in A1, A2, A3.
  unfold step, prepare. rewrite Hop. unfold propagate_copies.
  rewrite A1, A2.
  rewrite copy_propagate_noop.
  2: { intros j Hj. assert (j = 1 \/ j = 2)%nat as [-> | ->] by lia;
         apply const_not_copy; assumption. }
  cbn [bind canonicalize]. unfold rewrite. cbn [simplify_shift_of_zero
    simplify_op_zero_mov simplify_op_zero_movi simplify_op_same_mov
    simplify_op_same_movi or_else fold_op].
  unfold is_const. apply is_state_true in S1, S2. rewrite S1, S2. cbn [andb].
  rewrite op_to_movi_ok. cbn [bind].
  set (v1 := val (temps st (arg st 1))) in *.
  set (v2 := val (temps st (arg st 2))) in *.
  set (ofs := arg st 3) in *. set (len := arg st 4) in *.
  unfold c_shl.
  destruct (Z.leb_spec 0 len); [|lia]. destruct (Z.ltb_spec len 64); [|lia].
  destruct (Z.leb_spec 0 ofs); [|lia]. destruct (Z.ltb_spec ofs bits); [|lia].
  cbn [andb bind].
  set (tmp := wrap bits (Z.shiftl 1 len mod 2 ^ 64 - 1)).
  set (v := Z.lor (Z.land v1 (wrap bits (Z.lnot (Z.shiftl tmp ofs mod 2 ^ bits))))
                  (Z.shiftl (Z.land v2 tmp) ofs mod 2 ^ bits)).
  assert (Hbits : 0 < bits <= 64) by lia.
  assert (Tmp : forall i, 0 <= i -> Z.testbit tmp i = (i <? len) && (i <? bits)).
  { intros i Hi. unfold tmp, wrap.
    rewrite Z.shiftl_1_l. rewrite (Z.mod_small (2 ^ len)).
    2: { split; [apply Z.pow_nonneg; lia|]. apply Z.pow_lt_mono_r; lia. }
    replace (2 ^ len - 1) with (Z.ones len)
      by (rewrite Z.ones_equiv; lia).
    rewrite Z.testbit_mod_pow2 by lia.
    destruct (Z.ltb_spec i bits).
    - rewrite andb_true_r.
      destruct (Z.ltb_spec i len).
      + apply Z.ones_spec_low. lia.
      + apply Z.ones_spec_high. lia.
    - rewrite andb_false_r. reflexivity. }
  assert (Bv : forall i, 0 <= i ->
            Z.testbit v i
            = (i <? bits)
              && (if (ofs <=? i) && (i <? ofs + len)
                  then Z.testbit v2 (i - ofs) else Z.testbit v1 i)).
  { intros i Hi. unfold v, wrap.
    rewrite Z.lor_spec, Z.land_spec, !Z.testbit_mod_pow2 by lia.
    rewrite Z.lnot_spec, Z.testbit_mod_pow2, !Z.shiftl_spec by lia.
    rewrite Z.land_spec.
    destruct (Z.ltb_spec i bits).
    - cbn [andb]. destruct (Z.leb_spec ofs i).
      + rewrite !Tmp by lia.
        destruct (Z.ltb_spec (i - ofs) bits); [|lia].
        destruct (Z.ltb_spec (i - ofs) len); destruct (Z.ltb_spec i (ofs + len));
          try lia; cbn [andb negb];
          destruct (Z.testbit v1 i), (Z.testbit v2 (i - ofs)); reflexivity.
      + rewrite !(Z.testbit_neg_r _ (i - ofs)) by lia. cbn [andb negb].
        destruct (Z.testbit v1 i); reflexivity.
    - cbn [andb]. rewrite (testbit_high v1 bits i) by lia. reflexivity. }
  assert (Nv : 0 <= v).
  { apply Z.lor_nonneg. split.
    - apply Z.land_nonneg. left. lia.
    - apply Z.mod_pos_bound. apply Z.pow_pos_nonneg; lia. }
  assert (Mv : v mod 2 ^ bits = v).
  { apply testbit_range; try lia. intros i Hi. rewrite Bv by lia.
    destruct (Z.ltb_spec i bits); [lia|reflexivity]. }
  eexists. exists v. split; [reflexivity|].
  split; [unfold tcg_opt_gen_movi; decide_slots; reflexivity|].
  split; [unfold tcg_opt_gen_movi; decide_slots; reflexivity|].
  split; [unfold tcg_opt_gen_movi; decide_slots; reflexivity|].
  cbn [temps next_op].
  destruct (gen_movi_const
              (set_opc st (if op_bits defs (INDEX_op_deposit w) =? 32
                           then INDEX_op_movi_i32 else INDEX_op_movi_i64))
              0 (arg st 0) v) as (G1 & G2).
  split; [exact G1|]. split; [exact G2|].
  split; [reflexivity|]. split; [reflexivity|].
  split.
  - rewrite <- Mv. apply Z.mod_pos_bound. apply Z.pow_pos_nonneg; lia.
  - intros i Hi. rewrite Bv by lia.
    destruct (Z.ltb_spec i bits); [|lia]. reflexivity.
Qed.

(** ** Double words *)

Lemma compose64_pair64 h l : compose64 h l = pair64 h l.
Proof.
  unfold compose64, pair64, to_uint.
  rewrite Z.shiftl_mul_pow2 by lia.
  change (2 ^ 64) with (2 ^ 32 * 2 ^ 32).
  rewrite Z.mul_mod_distr_r by lia.
  rewrite <- (Z.mod_mod h (2 ^ 32)) at 1 by lia.
  change (2 ^ 32 * 2 ^ 32) with (2 ^ 64).
  rewrite mod_mod_pow2 by lia. rewrite Z.mod_mod by lia.
  set (H := h mod 2 ^ 32). set (L := l mod 2 ^ 32).
  assert (HL : 0 <= L < 2 ^ 32) by (apply Z.mod_pos_bound; lia).
  rewrite <- Z.lxor_lor, <- Z.add_nocarry_lxor; try reflexivity.
  all: apply Z.bits_inj'; intros i Hi;
    rewrite Z.land_spec, Z.bits_0, <- Z.shiftl_mul_pow2, Z.shiftl_spec by lia;
    destruct (Z.ltb_spec i 32);
    [rewrite Z.testbit_neg_r by lia; reflexivity
    |rewrite (testbit_high L 32 i) by lia; apply andb_false_r].
Qed.

Lemma pair64_range h l : 0 <= pair64 h l < 2 ^ 64.
Proof.
  unfold pair64, to_uint.
  pose proof (Z.mod_pos_bound h (2 ^ 32) ltac:(lia)).
  pose proof (Z.mod_pos_bound l (2 ^ 32) ltac:(lia)).
  change (2 ^ 64) with (2 ^ 32 * 2 ^ 32). nia.
Qed.

Lemma arg_set_arg st i v j :
  arg (set_arg st i v) j = if Nat.eqb j i then v else arg st j.
Proof.
  unfold arg, set_arg, updn. cbn.
  destruct (Nat.eqb_spec (args st + j) (args st + i)), (Nat.eqb_spec j i);
    (reflexivity || lia).
Qed.

Lemma is_const_set_arg st i v t : is_const (set_arg st i v) t = is_const st t.
Proof. reflexivity. Qed.

Lemma swap_commutative_consts st dest i j :
  is_const st (arg st i) = true -> is_const st (arg st j) = true ->
  swap_commutative st dest i j
  = if dest =? arg st j
    then (set_arg (set_arg st i (arg st j)) j (arg st i), true)
    else (st, false).
Proof.
  intros Hi Hj. unfold swap_commutative. rewrite Hi, Hj. cbn.
  destruct (dest =? arg st j); reflexivity.
Qed.

(** *** Reading a value after an update *)

Lemma val_set_state (tb : temp_table) t s u : val (set_state tb t s u) = val (tb u).
Proof. unfold set_state, upd. destruct (Z.eqb_spec u t); subst; reflexivity. Qed.

Lemma val_set_prev (tb : temp_table) t p u : val (set_prev tb t p u) = val (tb u).
Proof. unfold set_prev, upd. destruct (Z.eqb_spec u t); subst; reflexivity. Qed.

Lemma val_set_next (tb : temp_table) t p u : val (set_next tb t p u) = val (tb u).
Proof. unfold set_next, upd. destruct (Z.eqb_spec u t); subst; reflexivity. Qed.

Lemma val_set_val (tb : temp_table) t v u :
  val (set_val tb t v u) = if u =? t then v else val (tb u).
Proof. unfold set_val, upd. destruct (u =? t); reflexivity. Qed.

(** [reset_temp] never touches a value. *)
Lemma val_reset_temp tb d u : val (reset_temp tb d u) = val (tb u).
Proof.
  unfold reset_temp. rewrite val_set_state.
  destruct (is_state tb d TCG_TEMP_COPY); [|reflexivity].
  destruct (prev_copy (tb d) =? next_copy (tb d)).
  - apply val_set_state.
  - rewrite val_set_next, val_set_prev. reflexivity.
Qed.

(** A constant other than [d] stays what it is when a constant is
    recorded for [d]. *)
Lemma gen_movi_other_const n st off d v u :
  ring_ok n (temps st) -> 0 <= d < n -> u <> d ->
  state (temps st u) = TCG_TEMP_CONST ->
  state (temps (tcg_opt_gen_movi st off d v) u) = TCG_TEMP_CONST
  /\ val (temps (tcg_opt_gen_movi st off d v) u) = val (temps st u).
Proof.
  intros H Hd Hu Su. unfold tcg_opt_gen_movi. cbn [temps set_gen_arg set_temps].
  rewrite state_set_val, state_set_state, val_set_val, val_set_state, val_reset_temp.
  destruct (Z.eqb_spec u d); [contradiction|].
  split; [|reflexivity].
  rewrite reset_temp_state_other; [exact Su | exact Hu |].
  intros (C1 & C2 & C3).
  destruct (H d Hd C1) as (_ & _ & D3 & _). congruence.
Qed.

(** *** The two [movi] of a folded double-word operation *)

Lemma halves_of_word r :
  0 <= r < 2 ^ 64 ->
  to_uint 32 r = r mod 2 ^ 32 /\ to_uint 32 (Z.shiftr r 32) = r / 2 ^ 32.
Proof.
  intros Hr. unfold to_uint. split; [reflexivity|].
  rewrite Z.shiftr_div_pow2 by lia. apply Z.mod_small.
  split; [apply Z.div_pos; lia|].
  apply Z.div_lt_upper_bound; [lia|]. change (2 ^ 32 * 2 ^ 32) with (2 ^ 64). lia.
Qed.

Ltac read_slots :=
  cbn [temps gen_opc_buf opparam args gen_args op_index tcg_opt_gen_movi
       set_gen_arg set_arg set_temps set_opc set_opc_at next_op];
  unfold updn, arg;
  cbn [temps gen_opc_buf opparam args gen_args op_index tcg_opt_gen_movi
       set_gen_arg set_arg set_temps set_opc set_opc_at next_op];
  repeat match goal with
         | |- context [Nat.eqb ?a ?b] => destruct (Nat.eqb_spec a b); try lia
         end.

Section DoubleWord.

Variable s : TCGContext.
Hypothesis temps_small : nb_temps s <= 65536.

(** The two [movi_i32] written for a folded double-word operation. *)
Lemma fold_to_movi2_ok st r len :
  ring_ok (nb_temps s) (temps st) ->
  0 <= arg st 0 < nb_temps s -> 0 <= arg st 1 < nb_temps s ->
  0 <= r < 2 ^ 64 ->
  gen_opc_buf st (op_index st + 1) = INDEX_op_nop ->
  exists st',
    fold_to_movi2 st r len = Ok st'
    /\ gen_opc_buf st' (op_index st) = INDEX_op_movi_i32
    /\ gen_opc_buf st' (op_index st + 1) = INDEX_op_movi_i32
    /\ opparam st' (gen_args st) = arg st 0
    /\ opparam st' (gen_args st + 1) = r mod 2 ^ 32
    /\ opparam st' (gen_args st + 2) = arg st 1
    /\ opparam st' (gen_args st + 3) = r / 2 ^ 32
    /\ state (temps st' (arg st 1)) = TCG_TEMP_CONST
    /\ val (temps st' (arg st 1)) = r / 2 ^ 32
    /\ (arg st 0 <> arg st 1 ->
        state (temps st' (arg st 0)) = TCG_TEMP_CONST
        /\ val (temps st' (arg st 0)) = r mod 2 ^ 32)
    /\ op_index st' = (op_index st + 2)%nat
    /\ args st' = (args st + len)%nat
    /\ gen_args st' = (gen_args st + 4)%nat.
Proof.
  intros H H0 H1 Hr Hnop. unfold fold_to_movi2. rewrite Hnop.
  destruct (halves_of_word r Hr) as (-> & ->).
  set (st1 := set_opc_at (set_opc st INDEX_op_movi_i32) 1 INDEX_op_movi_i32).
  set (st2 := tcg_opt_gen_movi st1 0 (arg st 0) (r mod 2 ^ 32)).
  eexists. split; [reflexivity|].
  split; [unfold st2, st1; read_slots; reflexivity|].
  split; [unfold st2, st1; read_slots; reflexivity|].
  split; [unfold st2, st1; read_slots; reflexivity|].
  split; [unfold st2, st1; read_slots; reflexivity|].
  split; [unfold st2, st1; read_slots; reflexivity|].
  split; [unfold st2, st1; read_slots; reflexivity|].
  cbn [temps next_op].
  destruct (gen_movi_const st2 2 (arg st 1) (r / 2 ^ 32)) as (G1 & G2).
  split; [exact G1|]. split; [exact G2|].
  split; [|split; [|split]]; try reflexivity; try (cbn; lia).
  intros Hne.
  destruct (gen_movi_const st1 0 (arg st 0) (r mod 2 ^ 32)) as (G3 & G4).
  fold st2 in G3, G4.
  destruct (gen_movi_other_const (nb_temps s) st2 2 (arg st 1) (r / 2 ^ 32)
              (arg st 0)) as (G5 & G6); try assumption.
  - unfold st2. apply gen_movi_ring_ok; assumption.
  - split; [exact G5 | congruence].
Qed.

End DoubleWord.

(** *** [add2] and [sub2] *)

Lemma canonicalize_add2 bits st :
  (forall j, (2 <= j < 6)%nat -> is_const st (arg st j) = true) ->
  let st1 := canonicalize bits INDEX_op_add2_i32 st in
  temps st1 = temps st /\ gen_opc_buf st1 = gen_opc_buf st
  /\ args st1 = args st /\ gen_args st1 = gen_args st
  /\ op_index st1 = op_index st
  /\ arg st1 0 = arg st 0 /\ arg st1 1 = arg st 1
  /\ ((arg st1 2 = arg st 2 /\ arg st1 4 = arg st 4)
      \/ (arg st1 2 = arg st 4 /\ arg st1 4 = arg st 2))
  /\ ((arg st1 3 = arg st 3 /\ arg st1 5 = arg st 5)
      \/ (arg st1 3 = arg st 5 /\ arg st1 5 = arg st 3)).
Proof.
  intros Hc. cbn [canonicalize].
  rewrite (swap_commutative_consts st) by (apply Hc; lia).
  destruct (arg st 0 =? arg st 4); cbn [fst].
  - rewrite swap_commutative_consts
      by (rewrite is_const_set_arg, !arg_set_arg; cbn [Nat.eqb]; apply Hc; lia).
    rewrite !arg_set_arg. cbn [Nat.eqb].
    destruct (arg st 1 =? arg st 5); cbn [fst]; cbv zeta;
      rewrite ?arg_set_arg; cbn [Nat.eqb temps gen_opc_buf args gen_args op_index set_arg];
      repeat split; auto.
  - rewrite swap_commutative_consts by (apply Hc; lia).
    destruct (arg st 1 =? arg st 5); cbn [fst]; cbv zeta;
      rewrite ?arg_set_arg; cbn [Nat.eqb temps gen_opc_buf args gen_args op_index set_arg];
      repeat split; auto.
Qed.

Section DoubleWordFold.

Variable bits : Z.
Variable defs : TCGOpcode -> TCGOpDef.
Variable s : TCGContext.
Hypothesis defs_ok : arity_ok defs.
Hypothesis temps_small : nb_temps s <= 65536.

(** X5: [add2_i32] and [sub2_i32] of four constants become two
    [movi_i32] of the low and the high half of the 64-bit sum or
    difference of the two double words, the second in the place of the
    [nop] that must follow; when no [nop] follows, the assertion of the
    source fails. *)
Theorem double_word_fold st r :
  ring_ok (nb_temps s) (temps st) ->
  0 <= arg st 0 < nb_temps s -> 0 <= arg st 1 < nb_temps s ->
  (forall j, (2 <= j < 6)%nat -> state (temps st (arg st j)) = TCG_TEMP_CONST) ->
  (gen_opc_buf st (op_index st) = INDEX_op_add2_i32
   /\ r = (pair64 (val (temps st (arg st 3))) (val (temps st (arg st 2)))
           + pair64 (val (temps st (arg st 5))) (val (temps st (arg st 4))))
          mod 2 ^ 64)
  \/ (gen_opc_buf st (op_index st) = INDEX_op_sub2_i32
      /\ r = (pair64 (val (temps st (arg st 3))) (val (temps st (arg st 2)))
              - pair64 (val (temps st (arg st 5))) (val (temps st (arg st 4))))
             mod 2 ^ 64) ->
  (gen_opc_buf st (op_index st + 1) <> INDEX_op_nop ->
   step bits defs s st = Err assert_failed)
  /\ (gen_opc_buf st (op_index st + 1) = INDEX_op_nop ->
      exists st',
        step bits defs s st = Ok st'
        /\ gen_opc_buf st' (op_index st) = INDEX_op_movi_i32
        /\ gen_opc_buf st' (op_index st + 1) = INDEX_op_movi_i32
        /\ opparam st' (gen_args st) = arg st 0
        /\ opparam st' (gen_args st + 1) = r mod 2 ^ 32
        /\ opparam st' (gen_args st + 2) = arg st 1
        /\ opparam st' (gen_args st + 3) = r / 2 ^ 32
        /\ state (temps st' (arg st 1)) = TCG_TEMP_CONST
        /\ val (temps st' (arg st 1)) = r / 2 ^ 32
        /\ (arg st 0 <> arg st 1 ->
            state (temps st' (arg st 0)) = TCG_TEMP_CONST
            /\ val (temps st' (arg st 0)) = r mod 2 ^ 32)
        /\ op_index st' = (op_index st + 2)%nat
        /\ args st' = (args st + 6)%nat
        /\ gen_args st' = (gen_args st + 4)%nat).
Proof.
  intros H H0 H1 Hc Hop.
  assert (Hc' : forall j, (2 <= j < 6)%nat -> is_const st (arg st j) = true)
    by (intros j Hj; apply is_state_true, Hc, Hj).
  assert (Hr : 0 <= r < 2 ^ 64)
    by (destruct Hop as [(_ & ->)|(_ & ->)]; apply Z.mod_pos_bound; lia).
  assert (Hprep : exists st1,
    prepare bits defs s st = Ok st1
    /\ temps st1 = temps st /\ gen_opc_buf st1 = gen_opc_buf st
    /\ args st1 = args st /\ gen_args st1 = gen_args st
    /\ op_index st1 = op_index st
    /\ arg st1 0 = arg st 0 /\ arg st1 1 = arg st 1
    /\ fold_op bits defs s (gen_opc_buf st (op_index st)) st1
       = fold_to_movi2 st1 r 6).
  { unfold prepare, propagate_copies.
    destruct Hop as [(Hop & ->)|(Hop & ->)]; rewrite Hop.
    - pose proof (defs_ok INDEX_op_add2_i32) as (A1 & A2 & A3).
      cbn in A1, A2, A3. rewrite A1, A2.
      rewrite copy_propagate_noop
        by (intros j Hj; apply const_not_copy, Hc; lia).
      cbn [bind]. eexists. split; [reflexivity|].
      destruct (canonicalize_add2 bits st Hc')
        as (T & O & A & G & I & E0 & E1 & E24 & E35).
      set (st1 := canonicalize bits INDEX_op_add2_i32 st) in *.
      repeat (split; [assumption|]).
      cbn [fold_op]. unfold is_const. rewrite T.
      assert (K : forall j, (2 <= j < 6)%nat ->
                is_state (temps st) (arg st1 j) TCG_TEMP_CONST = true).
      { intros j Hj.
        assert (j = 2 \/ j = 3 \/ j = 4 \/ j = 5)%nat as [-> |[-> |[-> | ->]]] by lia;
          [destruct E24 as [(-> & _)|(-> & _)]
          |destruct E35 as [(-> & _)|(-> & _)]
          |destruct E24 as [(_ & ->)|(_ & ->)]
          |destruct E35 as [(_ & ->)|(_ & ->)]];
          apply Hc'; lia. }
      rewrite !K by lia. cbn [andb]. f_equal.
      rewrite !compose64_pair64. unfold to_uint at 1. f_equal.
      unfold pair64, to_uint. rewrite !Z.mod_mod by lia.
      destruct E24 as [(-> & ->)|(-> & ->)], E35 as [(-> & ->)|(-> & ->)]; lia.
    - pose proof (defs_ok INDEX_op_sub2_i32) as (A1 & A2 & A3).
      cbn in A1, A2, A3. rewrite A1, A2.
      rewrite copy_propagate_noop
        by (intros j Hj; apply const_not_copy, Hc; lia).
      cbn [bind canonicalize]. eexists. split; [reflexivity|].
      repeat (split; [reflexivity|]).
      cbn [fold_op]. rewrite !Hc' by lia. cbn [andb]. f_equal.
      rewrite !compose64_pair64. unfold to_uint at 1. f_equal.
      unfold pair64, to_uint. rewrite !Z.mod_mod by lia.
      reflexivity. }
  destruct Hprep as (st1 & Ep & T & O & A & G & I & E0 & E1 & Ef).
  assert (Er : rewrite bits defs s (gen_opc_buf st (op_index st)) st1
               = fold_to_movi2 st1 r 6).
  { rewrite <- Ef. destruct Hop as [(-> & _)|(-> & _)]; reflexivity. }
  unfold step. rewrite Ep. cbn [bind]. rewrite Er.
  split.
  - intros Hn. unfold fold_to_movi2. rewrite O, I.
    destruct (gen_opc_buf st (op_index st + 1)); (reflexivity || contradiction).
  - intros Hn.
    destruct (fold_to_movi2_ok s temps_small st1 r 6) as (st' & F);
      rewrite ?T, ?E0, ?E1, ?O, ?I; try assumption.
    rewrite E0, E1, G, I, A in F. exists st'. exact F.
Qed.

End DoubleWordFold.

(** *** [mulu2] *)

Section MulFold.

Variable bits : Z.
Variable defs : TCGOpcode -> TCGOpDef.
Variable s : TCGContext.
Hypothesis defs_ok : arity_ok defs.
Hypothesis temps_small : nb_temps s <= 65536.

(** X6: [mulu2_i32] of two constants becomes two [movi_i32] of the low
    and the high half of the product of the two unsigned 32-bit values,
    the second in the place of the [nop] that must follow; when no [nop]
    follows, the assertion of the source fails. *)
Theorem mulu2_fold st r :
  ring_ok (nb_temps s) (temps st) ->
  0 <= arg st 0 < nb_temps s -> 0 <= arg st 1 < nb_temps s ->
  gen_opc_buf st (op_index st) = INDEX_op_mulu2_i32 ->
  state (temps st (arg st 2)) = TCG_TEMP_CONST ->
  state (temps st (arg st 3)) = TCG_TEMP_CONST ->
  r = to_uint 32 (val (temps st (arg st 2))) * to_uint 32 (val (temps st (arg st 3))) ->
  (gen_opc_buf st (op_index st + 1) <> INDEX_op_nop ->
   step bits defs s st = Err assert_failed)
  /\ (gen_opc_buf st (op_index st + 1) = INDEX_op_nop ->
      exists st',
        step bits defs s st = Ok st'
        /\ gen_opc_buf st' (op_index st) = INDEX_op_movi_i32
        /\ gen_opc_buf st' (op_index st + 1) = INDEX_op_movi_i32
        /\ opparam st' (gen_args st) = arg st 0
        /\ opparam st' (gen_args st + 1) = r mod 2 ^ 32
        /\ opparam st' (gen_args st + 2) = arg st 1
        /\ opparam st' (gen_args st + 3) = r / 2 ^ 32
        /\ state (temps st' (arg st 1)) = TCG_TEMP_CONST
        /\ val (temps st' (arg st 1)) = r / 2 ^ 32
        /\ (arg st 0 <> arg st 1 ->
            state (temps st' (arg st 0)) = TCG_TEMP_CONST
            /\ val (temps st' (arg st 0)) = r mod 2 ^ 32)
        /\ op_index st' = (op_index st + 2)%nat
        /\ args st' = (args st + 4)%nat
        /\ gen_args st' = (gen_args st + 4)%nat).
Proof.
  intros H H0 H1 Hop S2 S3 ->.
  set (a := to_uint 32 (val (temps st (arg st 2)))).
  set (b := to_uint 32 (val (temps st (arg st 3)))).
  assert (Ha : 0 <= a < 2 ^ 32) by (apply Z.mod_pos_bound; lia).
  assert (Hb : 0 <= b < 2 ^ 32) by (apply Z.mod_pos_bound; lia).
  assert (Hr : 0 <= a * b < 2 ^ 64)
    by (change (2 ^ 64) with (2 ^ 32 * 2 ^ 32); nia).
  assert (C2 : is_const st (arg st 2) = true) by (apply is_state_true, S2).
  assert (C3 : is_const st (arg st 3) = true) by (apply is_state_true, S3).
  pose proof (defs_ok INDEX_op_mulu2_i32) as (A1 & A2 & A3).
  cbn in A1, A2, A3.
  assert (Hprep : exists st1,
    prepare bits defs s st = Ok st1
    /\ temps st1 = temps st /\ gen_opc_buf st1 = gen_opc_buf st
    /\ args st1 = args st /\ gen_args st1 = gen_args st
    /\ op_index st1 = op_index st
    /\ arg st1 0 = arg st 0 /\ arg st1 1 = arg st 1
    /\ fold_op bits defs s INDEX_op_mulu2_i32 st1 = fold_to_movi2 st1 (a * b) 4).
  { unfold prepare, propagate_copies. rewrite Hop, A1, A2.
    rewrite copy_propagate_noop.
    2: { intros j Hj. assert (j = 2 \/ j = 3)%nat as [-> | ->] by lia;
           apply const_not_copy; assumption. }
    cbn [bind canonicalize]. eexists. split; [reflexivity|].
    rewrite swap_commutative_consts by assumption.
    destruct (arg st 0 =? arg st 3); cbn [fst fold_op];
      rewrite ?is_const_set_arg, ?arg_set_arg;
      cbn [Nat.eqb temps gen_opc_buf args gen_args op_index set_arg];
      rewrite C2, C3; cbn [andb];
      repeat (split; [reflexivity|]); f_equal;
      unfold to_uint at 1; rewrite Z.mod_small; fold a b; lia. }
  destruct Hprep as (st1 & Ep & T & O & A & G & I & E0 & E1 & Ef).
  assert (Er : rewrite bits defs s INDEX_op_mulu2_i32 st1
               = fold_to_movi2 st1 (a * b) 4) by (rewrite <- Ef; reflexivity).
  unfold step. rewrite Ep, Hop. cbn [bind]. rewrite Er.
  split.
  - intros Hn. unfold fold_to_movi2. rewrite O, I.
    destruct (gen_opc_buf st (op_index st + 1)); (reflexivity || contradiction).
  - intros Hn.
    destruct (fold_to_movi2_ok s temps_small st1 (a * b) 4) as (st' & F);
      rewrite ?T, ?E0, ?E1, ?O, ?I; try assumption.
    rewrite E0, E1, G, I, A in F. exists st'. exact F.
Qed.

End MulFold.

(** ** Folded comparisons and the values at run time *)

Lemma cond_of_arg_inv c p : cond_of_arg c = Some p -> c = arg_of_cond p.
Proof.
  unfold cond_of_arg. intros H.
  repeat match type of H with
         | match ?x with _ => _ end = _ => destruct x; try discriminate H
         end; injection H as <-; reflexivity.
Qed.

Lemma cond_of_arg_of_cond p : cond_of_arg (arg_of_cond p) = Some p.
Proof. destruct p; reflexivity. Qed.

Lemma fold_cond_bits_compare n x y p :
  fold_cond_bits n x y (arg_of_cond p) = Ok (spec_compare n p x y).
Proof.
  unfold fold_cond_bits. rewrite cond_of_arg_of_cond.
  destruct p; cbn [spec_compare]; rewrite ?Z.geb_leb, ?Z.gtb_ltb; reflexivity.
Qed.

Lemma spec_compare_equal n p x y :
  x = y -> of_bool (spec_compare n p x y) = cond_on_equal p.
Proof.
  intros ->. destruct p; cbn [spec_compare cond_on_equal];
    rewrite ?Z.eqb_refl, ?Z.ltb_irrefl, ?Z.leb_refl; reflexivity.
Qed.

Lemma spec_compare_zero n p x r :
  0 <= n ->
  match p with
  | TCG_COND_LTU => Ok 0
  | TCG_COND_GEU => Ok 1
  | _ => Ok 2
  end = Ok r ->
  r = 2 \/ r = of_bool (spec_compare n p x 0).
Proof.
  intros Hn E.
  assert (0 <= to_uint n x)
    by (apply Z.mod_pos_bound, Z.pow_pos_nonneg; lia).
  assert (Z0 : to_uint n 0 = 0) by (apply Z.mod_0_l, Z.pow_nonzero; lia).
  destruct p; injection E as <-; auto; right; cbn [spec_compare]; rewrite Z0.
  - destruct (Z.ltb_spec (to_uint n x) 0); [lia|reflexivity].
  - destruct (Z.leb_spec 0 (to_uint n x)); [reflexivity|lia].
Qed.

(** X7: in a table that is true of the values the temps hold, an answer
    of [do_constant_folding_cond] other than 2 ("not known") is the
    result of the comparison of the values the two temps hold. *)
Theorem do_constant_folding_cond_sound defs n tb op x y c p e r :
  agrees n tb e -> 0 <= x < n -> 0 <= y < n ->
  cond_of_arg c = Some p ->
  do_constant_folding_cond defs tb op x y c = Ok r ->
  r = 2 \/ r = of_bool (spec_compare (op_bits defs op) p (e x) (e y)).
Proof.
  intros (Hc & Hcp) Hx Hy Hp E. apply cond_of_arg_inv in Hp. subst c.
  unfold do_constant_folding_cond in E.
  destruct (is_state tb x TCG_TEMP_CONST && is_state tb y TCG_TEMP_CONST) eqn:Ec.
  - apply andb_true_iff in Ec as (Sx & Sy). apply is_state_true in Sx, Sy.
    rewrite (Hc x Hx Sx), (Hc y Hy Sy). right.
    unfold do_constant_folding_cond_32, do_constant_folding_cond_64 in E.
    destruct (op_bits_cases defs op) as [Ho|Ho]; rewrite Ho in *;
      rewrite fold_cond_bits_compare in E; cbn [bind] in E;
      injection E as <-; reflexivity.
  - destruct (temps_are_copies tb x y) as [[|]|] eqn:Et; cbn [bind] in E;
      [| |discriminate E].
    + right. rewrite cond_eq_on_equal in E. cbn [bind] in E.
      rewrite of_bool_on_equal in E. injection E as <-.
      symmetry. apply spec_compare_equal. apply Hcp; assumption.
    + destruct (is_state tb y TCG_TEMP_CONST && (val (tb y) =? 0)) eqn:Ez.
      * apply andb_true_iff in Ez as (Sy & Vy).
        apply is_state_true in Sy. apply Z.eqb_eq in Vy.
        rewrite (Hc y Hy Sy), Vy. rewrite cond_of_arg_of_cond in E.
        apply spec_compare_zero; [|exact E].
        destruct (op_bits_cases defs op) as [-> | ->]; lia.
      * injection E as <-. auto.
Qed.

Lemma pair64_zero h l : pair64 h l = 0 -> to_uint 64 (pair64 h l) = 0.
Proof. intros ->. reflexivity. Qed.

(** X8: in a table that is true of the values the temps hold, an answer
    of [do_constant_folding_cond2] other than 2 is the result of the
    comparison of the two double words that the four temps hold. *)
Theorem do_constant_folding_cond2_sound n tb al ah bl bh c p e r :
  agrees n tb e ->
  0 <= al < n -> 0 <= ah < n -> 0 <= bl < n -> 0 <= bh < n ->
  cond_of_arg c = Some p ->
  do_constant_folding_cond2 tb al ah bl bh c = Ok r ->
  r = 2 \/ r = of_bool (spec_compare 64 p (pair64 (e ah) (e al))
                                          (pair64 (e bh) (e bl))).
Proof.
  intros (Hc & Hcp) Hal Hah Hbl Hbh Hp E. apply cond_of_arg_inv in Hp. subst c.
  unfold do_constant_folding_cond2 in E.
  assert (By_copies : forall r,
    (cl <- temps_are_copies tb al bl ;;
     ch <- (if cl then temps_are_copies tb ah bh else Ok false) ;;
     if ch then b <- do_constant_folding_cond_eq (arg_of_cond p) ;; Ok (of_bool b)
     else Ok 2) = Ok r ->
    r = 2 \/ r = of_bool (spec_compare 64 p (pair64 (e ah) (e al))
                                            (pair64 (e bh) (e bl)))).
  { intros r0 E0.
    destruct (temps_are_copies tb al bl) as [[|]|] eqn:El; cbn [bind] in E0;
      [| |discriminate E0].
    - destruct (temps_are_copies tb ah bh) as [[|]|] eqn:Eh; cbn [bind] in E0;
        [| |discriminate E0].
      + right. rewrite cond_eq_on_equal in E0. cbn [bind] in E0.
        rewrite of_bool_on_equal in E0. injection E0 as <-.
        symmetry. apply spec_compare_equal.
        rewrite (Hcp _ _ Hal Hbl El), (Hcp _ _ Hah Hbh Eh). reflexivity.
      + injection E0 as <-. auto.
    - injection E0 as <-. auto. }
  destruct (is_state tb bl TCG_TEMP_CONST && is_state tb bh TCG_TEMP_CONST) eqn:Eb;
    [|exact (By_copies r E)].
  apply andb_true_iff in Eb as (Sbl & Sbh). apply is_state_true in Sbl, Sbh.
  rewrite !compose64_pair64 in E.
  destruct (is_state tb al TCG_TEMP_CONST && is_state tb ah TCG_TEMP_CONST) eqn:Ea.
  - apply andb_true_iff in Ea as (Sal & Sah). apply is_state_true in Sal, Sah.
    right. unfold do_constant_folding_cond_64 in E.
    rewrite fold_cond_bits_compare in E. cbn [bind] in E. injection E as <-.
    rewrite (Hc _ Hal Sal), (Hc _ Hah Sah), (Hc _ Hbl Sbl), (Hc _ Hbh Sbh).
    reflexivity.
  - destruct (Z.eqb_spec (pair64 (val (tb bh)) (val (tb bl))) 0) as [Z0|];
      [|exact (By_copies r E)].
    rewrite cond_of_arg_of_cond in E.
    destruct p; try exact (By_copies r E);
      rewrite (Hc _ Hbl Sbl), (Hc _ Hbh Sbh), Z0;
      apply spec_compare_zero; (lia || exact E).
Qed.

(** ** Being copies of each other is an equivalence *)

Lemma walk_add tb a b t : walk tb (a + b) t = walk tb a (walk tb b t).
Proof. unfold walk. apply Nat.iter_add. Qed.

Lemma walk_first tb m t : walk tb (S m) t = walk tb m (next_copy (tb t)).
Proof. unfold walk. apply Nat.iter_succ_r. Qed.

Section Rings.

Variable n : Z.
Hypothesis n_small : n <= 65536.
Variable tb : temp_table.
Hypothesis tb_ok : ring_ok n tb.

(** Whatever is reached from a copy reaches it back. *)
Lemma walk_back t m :
  0 <= t < n -> state (tb t) = TCG_TEMP_COPY ->
  exists m', walk tb m' (walk tb m t) = t.
Proof.
  intros Ht St.
  destruct (walk_returns n tb tb_ok t Ht St) as (P & HP & Hw).
  exists (P - m mod P)%nat.
  rewrite (walk_mod tb t P m) by (lia || exact Hw).
  rewrite <- walk_add.
  pose proof (Nat.mod_upper_bound m P ltac:(lia)).
  replace (P - m mod P + m mod P)%nat with P by lia. exact Hw.
Qed.

Lemma same_ring_sym x y : 0 <= x < n -> same_ring tb x y -> same_ring tb y x.
Proof.
  intros Hx [->|(Sx & Sy & m & Hm)]; [left; reflexivity|].
  right. split; [exact Sy|]. split; [exact Sx|].
  subst y. apply walk_back; assumption.
Qed.

Lemma same_ring_trans x y z :
  same_ring tb x y -> same_ring tb y z -> same_ring tb x z.
Proof.
  intros [->|(Sx & Sy & m & Hm)] H2; [exact H2|].
  destruct H2 as [<-|(_ & Sz & m' & Hm')].
  - right. eauto.
  - right. split; [exact Sx|]. split; [exact Sz|].
    exists (m' + m)%nat. rewrite walk_add, Hm. exact Hm'.
Qed.

Lemma copies_decides x y b :
  0 <= x < n -> temps_are_copies tb x y = Ok b ->
  (b = true <-> same_ring tb x y).
Proof.
  intros Hx E. unfold same_ring.
  rewrite <- (temps_are_copies_spec n n_small tb tb_ok x Hx y).
  rewrite E. split; [intros ->; reflexivity|].
  intros H. injection H as ->. reflexivity.
Qed.

(** X10: in a table with well-formed rings [temps_are_copies] is an
    equivalence: every temp is a copy of itself, the answer does not
    depend on the order of the two temps, and copies of copies are
    copies. *)
Theorem temps_are_copies_equivalence x y z :
  0 <= x < n -> 0 <= y < n ->
  temps_are_copies tb x x = Ok true
  /\ temps_are_copies tb x y = temps_are_copies tb y x
  /\ (temps_are_copies tb x y = Ok true ->
      temps_are_copies tb y z = Ok true ->
      temps_are_copies tb x z = Ok true).
Proof.
  intros Hx Hy. split; [|split].
  - unfold temps_are_copies. rewrite Z.eqb_refl. reflexivity.
  - destruct (temps_are_copies_total n n_small tb tb_ok x Hx y) as (b & E).
    destruct (temps_are_copies_total n n_small tb tb_ok y Hy x) as (b' & E').
    rewrite E, E'. f_equal.
    pose proof (copies_decides x y b Hx E) as D.
    pose proof (copies_decides y x b' Hy E') as D'.
    destruct b, b'; try reflexivity.
    + assert (false = true); [|congruence].
      apply D'. apply same_ring_sym; [exact Hx|]. apply D. reflexivity.
    + assert (false = true); [|congruence].
      apply D. apply same_ring_sym; [exact Hy|]. apply D'. reflexivity.
  - intros E1 E2.
    apply (temps_are_copies_spec n n_small tb tb_ok x Hx z).
    apply (same_ring_trans x y z).
    + apply (copies_decides x y true Hx E1). reflexivity.
    + apply (copies_decides y z true Hy E2). reflexivity.
Qed.

End Rings.

(** ** [reset_temp] and the other temps *)

Lemma walk_ext tb tb' m t :
  (forall u, next_copy (tb' u) = next_copy (tb u)) ->
  walk tb' m t = walk tb m t.
Proof.
  intros H. induction m as [|m IH]; [reflexivity|].
  rewrite !walk_S, IH. apply H.
Qed.

Section ResetKeeps.

Variable n : Z.
Hypothesis n_small : n <= 65536.
Variable tb : temp_table.
Hypothesis tb_ok : ring_ok n tb.
Variable d : TCGArg.
Hypothesis d_range : 0 <= d < n.

(** In a ring of two the walk from the mate of [d] stays on the two. *)
Lemma walk_pair m :
  state (tb d) = TCG_TEMP_COPY -> prev_copy (tb d) = next_copy (tb d) ->
  walk tb m (next_copy (tb d)) = next_copy (tb d)
  \/ walk tb m (next_copy (tb d)) = d.
Proof.
  intros Sd E.
  destruct (tb_ok d d_range Sd) as (D1 & D2 & D3 & D4 & D5 & D6).
  induction m as [|m IH]; [left; reflexivity|].
  rewrite walk_S. destruct IH as [-> | ->].
  - right. rewrite <- E at 1. exact D6.
  - left. reflexivity.
Qed.

Section Unlink.

Hypothesis d_copy : state (tb d) = TCG_TEMP_COPY.
Hypothesis d_more : prev_copy (tb d) <> next_copy (tb d).

Let tb' := reset_temp tb d.

Lemma unlink_next t :
  next_copy (tb' t)
  = if t =? prev_copy (tb d) then next_copy (tb d) else next_copy (tb t).
Proof.
  destruct (tb_ok d d_range d_copy) as (D1 & D2 & D3 & D4 & D5 & D6).
  unfold tb'. rewrite (reset_temp_unlink n tb tb_ok d d_range d_copy d_more).
  autorewrite with table. rewrite to_uint16_small by lia. reflexivity.
Qed.

Lemma unlink_state t : t <> d -> state (tb' t) = state (tb t).
Proof.
  intros Ht. unfold tb'.
  rewrite (reset_temp_unlink n tb tb_ok d d_range d_copy d_more).
  autorewrite with table. destruct (Z.eqb_spec t d); [contradiction|reflexivity].
Qed.

Lemma next_d_not_d : next_copy (tb d) <> d.
Proof.
  destruct (tb_ok d d_range d_copy) as (D1 & D2 & D3 & D4 & D5 & D6).
  intros E. rewrite E in D5. congruence.
Qed.

(** What is reached in the new table was reached in the old one, and is
    not [d]. *)
Lemma unlink_reach_old u m :
  0 <= u < n -> state (tb u) = TCG_TEMP_COPY -> u <> d ->
  walk tb' m u <> d /\ exists m1, walk tb' m u = walk tb m1 u.
Proof.
  intros Hu Su Hd.
  destruct (tb_ok d d_range d_copy) as (D1 & D2 & D3 & D4 & D5 & D6).
  induction m as [|m (IH1 & m1 & IH2)].
  - split; [exact Hd|]. exists 0%nat. reflexivity.
  - rewrite walk_S, unlink_next, IH2.
    destruct (walk_copy n tb tb_ok u Hu Su m1) as (W1 & W2).
    destruct (tb_ok _ W1 W2) as (F1 & F2 & F3 & F4 & F5 & F6).
    destruct (Z.eqb_spec (walk tb m1 u) (prev_copy (tb d))) as [E|E].
    + split; [apply next_d_not_d|]. exists (S (S m1)).
      rewrite !walk_S, E, D6. reflexivity.
    + split.
      * intros Ed. apply E. rewrite <- Ed. symmetry. exact F5.
      * exists (S m1). rewrite walk_S. reflexivity.
Qed.

(** What was reached in the old table, other than [d], is reached in the
    new one. *)
Lemma unlink_reach_new m : forall u v,
  0 <= u < n -> state (tb u) = TCG_TEMP_COPY -> u <> d -> v <> d ->
  walk tb m u = v -> exists m', walk tb' m' u = v.
Proof.
  destruct (tb_ok d d_range d_copy) as (D1 & D2 & D3 & D4 & D5 & D6).
  induction m as [m IH] using (well_founded_induction Wf_nat.lt_wf).
  intros u v Hu Su Hud Hvd Hw.
  destruct m as [|m]; [exists 0%nat; exact Hw|].
  destruct (tb_ok u Hu Su) as (F1 & F2 & F3 & F4 & F5 & F6).
  rewrite walk_first in Hw.
  destruct (Z.eq_dec (next_copy (tb u)) d) as [E|E].
  - assert (Eu : u = prev_copy (tb d)) by (rewrite <- E; symmetry; exact F5).
    rewrite E in Hw.
    destruct m as [|m]; [cbn in Hw; congruence|].
    rewrite walk_first in Hw.
    destruct (IH m ltac:(lia) (next_copy (tb d)) v D1 D3 next_d_not_d Hvd Hw)
      as (m' & Hm').
    exists (S m'). rewrite walk_first, unlink_next.
    destruct (Z.eqb_spec u (prev_copy (tb d))); [exact Hm'|contradiction].
  - assert (Eu : u <> prev_copy (tb d)) by (intros ->; apply E; exact D6).
    destruct (IH m ltac:(lia) (next_copy (tb u)) v F1 F3 E Hvd Hw) as (m' & Hm').
    exists (S m'). rewrite walk_first, unlink_next.
    destruct (Z.eqb_spec u (prev_copy (tb d))); [contradiction|exact Hm'].
Qed.

End Unlink.

Lemma reset_temp_same_ring u v :
  0 <= u < n -> 0 <= v < n -> u <> d -> v <> d ->
  (same_ring (reset_temp tb d) u v <-> same_ring tb u v).
Proof.
  intros Hu Hv Hud Hvd. unfold same_ring.
  destruct (Z.eq_dec u v) as [->|Huv]; [tauto|].
  destruct (tcg_temp_state_eqb (state (tb d)) TCG_TEMP_COPY) eqn:Sd.
  - apply (is_state_true tb d) in Sd.
    destruct (tb_ok d d_range Sd) as (D1 & D2 & D3 & D4 & D5 & D6).
    destruct (Z.eq_dec (prev_copy (tb d)) (next_copy (tb d))) as [E|E].
    + (* a ring of two *)
      rewrite (reset_temp_pair tb d Sd E).
      assert (Hw : forall m t,
                walk (set_state (set_state tb (next_copy (tb d)) TCG_TEMP_UNDEF)
                                d TCG_TEMP_UNDEF) m t = walk tb m t).
      { intros m t. apply walk_ext. intros w. autorewrite with table. reflexivity. }
      autorewrite with table.
      destruct (Z.eqb_spec u d); [contradiction|].
      destruct (Z.eqb_spec v d); [contradiction|].
      destruct (Z.eqb_spec u (next_copy (tb d))) as [Eu|Eu];
        destruct (Z.eqb_spec v (next_copy (tb d))) as [Ev|Ev];
        try congruence.
      * split; [intros [H|(H & _)]; (contradiction || discriminate)|].
        intros [H|(_ & _ & m & Hm)]; [contradiction|]. exfalso.
        subst u. destruct (walk_pair m Sd E); congruence.
      * split; [intros [H|(_ & H & _)]; (contradiction || discriminate)|].
        intros [H|(Su & _ & m & Hm)]; [contradiction|]. exfalso.
        destruct (walk_back n tb tb_ok u m Hu Su) as (m' & Hm').
        rewrite Hm in Hm'. subst v.
        destruct (walk_pair m' Sd E); congruence.
      * split; intros [H|(Su & Sv & m & Hm)]; try contradiction; right;
          (split; [exact Su|]; split; [exact Sv|]; exists m).
        -- rewrite <- Hw. exact Hm.
        -- rewrite Hw. exact Hm.
    + (* a longer ring *)
      rewrite (unlink_state Sd E u Hud), (unlink_state Sd E v Hvd).
      split; intros [H|(Su & Sv & m & Hm)]; try contradiction; right;
        (split; [exact Su|]; split; [exact Sv|]).
      * destruct (unlink_reach_old Sd E u m Hu Su Hud) as (_ & m1 & Hm1).
        exists m1. congruence.
      * exact (unlink_reach_new Sd E m u v Hu Su Hud Hvd Hm).
  - apply (is_state_false tb d) in Sd.
    rewrite (reset_temp_not_copy tb d Sd).
    assert (Hw : forall m t, walk (set_state tb d TCG_TEMP_UNDEF) m t = walk tb m t).
    { intros m t. apply walk_ext. intros w. autorewrite with table. reflexivity. }
    autorewrite with table.
    destruct (Z.eqb_spec u d); [contradiction|].
    destruct (Z.eqb_spec v d); [contradiction|].
    split; intros [H|(Su & Sv & m & Hm)]; try contradiction; right;
      (split; [exact Su|]; split; [exact Sv|]; exists m).
    + rewrite <- Hw. exact Hm.
    + rewrite Hw. exact Hm.
Qed.

(** X11: [reset_temp] of [d] leaves [d] a copy of no other temp and does
    not change which of the other temps are copies of each other. *)
Theorem reset_temp_keeps_other_copies u v :
  0 <= u < n -> 0 <= v < n -> u <> d ->
  temps_are_copies (reset_temp tb d) d u = Ok false
  /\ (v <> d ->
      temps_are_copies (reset_temp tb d) u v = temps_are_copies tb u v).
Proof.
  intros Hu Hv Hud. split.
  - apply temps_are_copies_undef; [congruence|]. left.
    rewrite reset_temp_state_self. discriminate.
  - intros Hvd.
    pose proof (reset_temp_ring_ok n n_small tb tb_ok d d_range) as tb_ok'.
    destruct (temps_are_copies_total n n_small tb tb_ok u Hu v) as (b & E).
    destruct (temps_are_copies_total n n_small _ tb_ok' u Hu v) as (b' & E').
    rewrite E, E'. f_equal.
    pose proof (copies_decides n n_small tb tb_ok u v b Hu E) as D.
    pose proof (copies_decides n n_small _ tb_ok' u v b' Hu E') as D'.
    pose proof (reset_temp_same_ring u v Hu Hv Hud Hvd) as R.
    destruct b, b'; try reflexivity.
    + assert (false = true); [|congruence]. apply D', R, D. reflexivity.
    + assert (false = true); [|congruence]. apply D, R, D'. reflexivity.
Qed.

End ResetKeeps.

(** ** The copy that [find_better_copy] prefers *)

Section BetterCopy.

Variable s : TCGContext.
Variable n : Z.
Hypothesis n_small : n <= 65536.
Variable tb : temp_table.
Hypothesis tb_ok : ring_ok n tb.
Variable t : TCGArg.
Hypothesis t_range : 0 <= t < n.
Hypothesis t_copy : state (tb t) = TCG_TEMP_COPY.

(** A temp found by a walk from [t] is a copy of [t] that passes the
    test. *)
Lemma scan_found p r :
  ring_scan RING_FUEL tb t p (next_copy (tb t)) = Ok (Some r) ->
  p r = true /\ temps_are_copies tb t r = Ok true.
Proof.
  intros E. change (next_copy (tb t)) with (walk tb 1 t) in E.
  destruct (ring_scan_some tb t p _ _ _ E) as (Hp & m & Hm).
  split; [exact Hp|].
  apply (temps_are_copies_spec n n_small tb tb_ok t t_range r).
  right. split; [exact t_copy|].
  destruct (walk_copy n tb tb_ok t t_range t_copy m) as (_ & W).
  rewrite Hm in W. eauto.
Qed.

(** A walk that finds nothing has seen every other copy of [t]. *)
Lemma scan_missed p g :
  ring_scan RING_FUEL tb t p (next_copy (tb t)) = Ok None ->
  temps_are_copies tb t g = Ok true -> g <> t -> p g = false.
Proof.
  intros E Hg Hne. change (next_copy (tb t)) with (walk tb 1 t) in E.
  destruct (ring_scan_none tb t p _ _ E) as (d & D1 & D2).
  apply (temps_are_copies_spec n n_small tb tb_ok t t_range g) in Hg.
  destruct Hg as [Hg|(_ & _ & m & Hm)]; [congruence|].
  rewrite (walk_mod tb t (1 + d) m) in Hm by (lia || exact D1).
  pose proof (Nat.mod_upper_bound m (1 + d) ltac:(lia)) as Hb.
  destruct (m mod (1 + d))%nat as [|k] eqn:Ek.
  - cbn in Hm. congruence.
  - specialize (D2 k ltac:(lia)). rewrite <- Hm. exact D2.
Qed.

Lemma find_better_copy_is_copy r :
  find_better_copy s tb t = Ok r -> temps_are_copies tb t r = Ok true.
Proof.
  assert (Self : temps_are_copies tb t t = Ok true)
    by (unfold temps_are_copies; rewrite Z.eqb_refl; reflexivity).
  unfold find_better_copy. intros E.
  case_ok E; injection E as <-;
    lazymatch goal with
    | |- temps_are_copies _ ?a ?a = _ => exact Self
    | E : ring_scan _ _ _ _ ?p = Ok (Some ?z) |- temps_are_copies _ _ ?z = _ =>
        exact (proj2 (scan_found _ _ E))
    end.
Qed.

(** X12: for a temp [t] that is a copy, [find_better_copy] returns a
    member of the ring of [t]: [t] itself when [t] is a global, else a
    global when the ring has one, else, when [t] is not a local temp, a
    local temp when the ring has one. *)
Theorem find_better_copy_spec :
  exists r,
    find_better_copy s tb t = Ok r
    /\ temps_are_copies tb t r = Ok true
    /\ (t < nb_globals s -> r = t)
    /\ (r <> t ->
        r < nb_globals s \/ (temp_local s r = true /\ temp_local s t = false))
    /\ (forall g, temps_are_copies tb t g = Ok true ->
          (g < nb_globals s -> r < nb_globals s)
          /\ (temp_local s g = true -> temp_local s t = false ->
              r < nb_globals s \/ temp_local s r = true)).
Proof.
  assert (Self : temps_are_copies tb t t = Ok true)
    by (unfold temps_are_copies; rewrite Z.eqb_refl; reflexivity).
  unfold find_better_copy.
  destruct (Z.ltb_spec t (nb_globals s)) as [Hg|Hg].
  { exists t. repeat split; auto; try congruence. }
  destruct (ring_scan_from_copy n n_small tb tb_ok t t_range
              (fun i => i <? nb_globals s) t_copy) as (r1 & E1).
  rewrite E1. cbn [bind]. destruct r1 as [r1|].
  { destruct (scan_found _ _ E1) as (P1 & C1). apply Z.ltb_lt in P1.
    exists r1. repeat split; auto; try lia. }
  pose proof (fun g => scan_missed _ g E1) as M1. cbn beta in M1.
  assert (NoGlobal : forall g, temps_are_copies tb t g = Ok true ->
            ~ g < nb_globals s).
  { intros g Cg Hlt. destruct (Z.eq_dec g t) as [->|Hne]; [lia|].
    specialize (M1 g Cg Hne). apply Z.ltb_ge in M1. lia. }
  destruct (temp_local s t) eqn:Lt; cbn [negb].
  { exists t. repeat split; auto; try congruence; try lia.
    intros Hlt. exfalso. exact (NoGlobal g H Hlt). }
  destruct (ring_scan_from_copy n n_small tb tb_ok t t_range
              (fun i => temp_local s i) t_copy) as (r2 & E2).
  rewrite E2. cbn [bind]. destruct r2 as [r2|].
  { destruct (scan_found _ _ E2) as (P2 & C2).
    exists r2. repeat split; auto; try lia.
    intros Hlt. exfalso. exact (NoGlobal g H Hlt). }
  pose proof (fun g => scan_missed _ g E2) as M2. cbn beta in M2.
  exists t. repeat split; auto; try congruence; try lia.
  - intros Hlt. exfalso. exact (NoGlobal g H Hlt).
  - intros Lg _. destruct (Z.eq_dec g t) as [->|Hne]; [congruence|].
    rewrite (M2 g H Hne) in Lg. discriminate.
Qed.

End BetterCopy.

(** ** Copy propagation *)

Section PropagateCopies.

Variable s : TCGContext.
Variable n : Z.
Hypothesis n_small : n <= 65536.

Lemma copies_refl tb x : temps_are_copies tb x x = Ok true.
Proof. unfold temps_are_copies. rewrite Z.eqb_refl. reflexivity. Qed.

(** X13: copy propagation leaves the table as it is, replaces an
    argument only by a copy of it and touches no argument outside the
    input arguments it is given. *)
Theorem copy_propagate_by_copies k : forall i st st',
  ring_ok n (temps st) ->
  (forall j, (i <= j < i + k)%nat -> 0 <= arg st j < n) ->
  copy_propagate s k i st = Ok st' ->
  temps st' = temps st
  /\ (forall j, temps_are_copies (temps st) (arg st j) (arg st' j) = Ok true)
  /\ (forall j, (j < i \/ i + k <= j)%nat -> arg st' j = arg st j).
Proof.
  induction k as [|k IH]; intros i st st' H Hs E; simpl in E.
  - injection E as <-. split; [reflexivity|]. split; [|reflexivity].
    intros j. apply copies_refl.
  - match type of E with bind ?r _ = _ => destruct r as [st1|] eqn:E0 end;
      cbn [bind] in E; [|discriminate E].
    assert (S1 : temps st1 = temps st
                 /\ temps_are_copies (temps st) (arg st i) (arg st1 i) = Ok true
                 /\ forall j, j <> i -> arg st1 j = arg st j).
    { destruct (is_state (temps st) (arg st i) TCG_TEMP_COPY) eqn:Sc.
      - destruct (find_better_copy s (temps st) (arg st i)) as [r|] eqn:Ef;
          cbn [bind] in E0; [|discriminate E0].
        injection E0 as <-. cbn [temps set_arg].
        apply is_state_true in Sc.
        pose proof (find_better_copy_is_copy s n n_small (temps st) H (arg st i)
                      (Hs i ltac:(lia)) Sc r Ef) as Cr.
        split; [reflexivity|]. split.
        + unfold arg at 2. cbn [opparam args set_arg]. unfold updn.
          rewrite Nat.eqb_refl. exact Cr.
        + intros j Hj. unfold arg. cbn [opparam args set_arg]. unfold updn.
          destruct (Nat.eqb_spec (args st + j) (args st + i)); [lia|reflexivity].
      - injection E0 as <-. split; [reflexivity|]. split; [apply copies_refl|].
        reflexivity. }
    destruct S1 as (T1 & C1 & O1).
    destruct (IH (S i) st1 st') as (T2 & C2 & O2); try assumption.
    + rewrite T1. exact H.
    + intros j Hj. rewrite O1 by lia. apply Hs. lia.
    + split; [congruence|]. split.
      * intros j. destruct (Nat.eq_dec j i) as [->|Hne].
        -- rewrite O2 by lia. exact C1.
        -- specialize (C2 j). rewrite T1, O1 in C2 by exact Hne. exact C2.
      * intros j Hj. rewrite O2 by lia. apply O1. lia.
Qed.

End PropagateCopies.

(** ** The canonical order of the operands *)

Lemma swap_commutative_spec st dest i j :
  i <> j ->
  let r := swap_commutative st dest i j in
  temps (fst r) = temps st
  /\ (forall k, k <> i -> k <> j -> arg (fst r) k = arg st k)
  /\ (if snd r then arg (fst r) i = arg st j /\ arg (fst r) j = arg st i
      else arg (fst r) i = arg st i /\ arg (fst r) j = arg st j)
  /\ (is_const st (arg (fst r) i) = true -> is_const st (arg (fst r) j) = true)
  /\ (is_const st (arg st i) = is_const st (arg st j) ->
      dest = arg st j -> arg (fst r) i = dest).
Proof.
  intros Hij. unfold swap_commutative.
  destruct (is_const st (arg st i)) eqn:Ci, (is_const st (arg st j)) eqn:Cj;
    cbn [b2z Z.sub Z.opp Z.add Z.gtb Z.eqb Z.compare orb andb Z.pos_sub].
  all: try (destruct (Z.eqb_spec dest (arg st j))).
  all: cbn [fst snd temps set_arg]; rewrite ?arg_set_arg; rewrite ?Nat.eqb_refl.
  all: repeat match goal with
       | |- context [Nat.eqb ?a ?b] => destruct (Nat.eqb_spec a b); try congruence
       end.
  all: repeat split; intros; try congruence; rewrite ?arg_set_arg;
       repeat match goal with
       | |- context [Nat.eqb ?a ?b] => destruct (Nat.eqb_spec a b); try congruence
       end.
Qed.

(** X14: canonicalisation of a commutative operation, of [setcond] and
    of [brcond] leaves the table and the destination, keeps the two
    operands or exchanges them, and leaves a constant first operand
    only beside a constant second operand; when the operands are both
    constant or both not and the destination is the second operand, the
    destination becomes the first. *)
Theorem canonicalize_constant_second bits op st :
  let st' := canonicalize bits op st in
  match op with
  | INDEX_op_add _ | INDEX_op_mul _ | INDEX_op_and _ | INDEX_op_or _
  | INDEX_op_xor _ | INDEX_op_eqv _ | INDEX_op_nand _ | INDEX_op_nor _
  | INDEX_op_setcond _ =>
      temps st' = temps st
      /\ arg st' 0 = arg st 0
      /\ ((arg st' 1 = arg st 1 /\ arg st' 2 = arg st 2)
          \/ (arg st' 1 = arg st 2 /\ arg st' 2 = arg st 1))
      /\ (is_const st' (arg st' 1) = true -> is_const st' (arg st' 2) = true)
      /\ (is_const st (arg st 1) = is_const st (arg st 2) ->
          arg st 0 = arg st 2 -> arg st' 1 = arg st 0)
  | INDEX_op_brcond _ =>
      temps st' = temps st
      /\ ((arg st' 0 = arg st 0 /\ arg st' 1 = arg st 1)
          \/ (arg st' 0 = arg st 1 /\ arg st' 1 = arg st 0))
      /\ (is_const st' (arg st' 0) = true -> is_const st' (arg st' 1) = true)
  | _ => True
  end.
Proof.
  destruct op; cbn [canonicalize]; try exact I.
  1-9: destruct (swap_commutative_spec st (arg st 0) 1 2 ltac:(lia))
         as (T & F & S & C & D);
       destruct (swap_commutative st (arg st 0) 1 2) as [st1 []];
       cbn [fst snd fix_cond] in *; unfold is_const in *;
       rewrite ?arg_set_arg; cbn [Nat.eqb temps set_arg]; rewrite ?T;
       (split; [reflexivity|]); (split; [apply F; lia|]); (split; [tauto|]);
       (split; [exact C | exact D]).
  destruct (swap_commutative_spec st (wrap bits (-1)) 0 1 ltac:(lia))
    as (T & F & S & C & D).
  destruct (swap_commutative st (wrap bits (-1)) 0 1) as [st1 []];
    cbn [fst snd fix_cond] in *; unfold is_const in *;
    rewrite ?arg_set_arg; cbn [Nat.eqb temps set_arg]; rewrite ?T;
    (split; [reflexivity|]); (split; [tauto|]); exact C.
Qed.

(** ** Two constant operands *)

Section ConstantOperands.

Variable bits : Z.
Variable defs : TCGOpcode -> TCGOpDef.
Variable s : TCGContext.
Hypothesis defs_ok : arity_ok defs.
Hypothesis bits_pos : 0 < bits.

Lemma fold_binary_total op x y :
  is_binary_arith op = true ->
  exists v, do_constant_folding bits defs op x y = Ok v.
Proof.
  intros Hop. unfold do_constant_folding.
  destruct op; try discriminate Hop; cbn [do_constant_folding_2 bind];
    destruct (op_bits defs _ =? 32); eexists; reflexivity.
Qed.

Lemma fold_binary_comm op x y :
  match op with
  | INDEX_op_add _ | INDEX_op_mul _ | INDEX_op_and _ | INDEX_op_or _
  | INDEX_op_xor _ | INDEX_op_eqv _ | INDEX_op_nand _ | INDEX_op_nor _ => True
  | _ => False
  end ->
  do_constant_folding bits defs op x y = do_constant_folding bits defs op y x.
Proof.
  intros Hop. unfold do_constant_folding.
  destruct op; try contradiction; cbn [do_constant_folding_2 bind];
    rewrite ?(Z.add_comm x y), ?(Z.mul_comm x y), ?(Z.land_comm x y),
      ?(Z.lor_comm x y), ?(Z.lxor_comm x y); reflexivity.
Qed.

Lemma wrap_zero : wrap bits 0 = 0.
Proof. unfold wrap. apply Z.mod_0_l. apply Z.pow_nonzero; lia. Qed.

Lemma fold_by_zero op x :
  match op with INDEX_op_and _ | INDEX_op_mul _ => True | _ => False end ->
  do_constant_folding bits defs op x 0 = Ok 0.
Proof.
  intros Hop. unfold do_constant_folding.
  destruct op; try contradiction; cbn [do_constant_folding_2 bind];
    rewrite ?Z.mul_0_r, ?Z.land_0_r, ?wrap_zero;
    destruct (op_bits defs _ =? 32); reflexivity.
Qed.

Lemma fold_of_same op x :
  match op with INDEX_op_sub _ | INDEX_op_xor _ => True | _ => False end ->
  do_constant_folding bits defs op x x = Ok 0.
Proof.
  intros Hop. unfold do_constant_folding.
  destruct op; try contradiction; cbn [do_constant_folding_2 bind];
    rewrite ?Z.sub_diag, ?Z.lxor_nilpotent, ?wrap_zero;
    destruct (op_bits defs _ =? 32); reflexivity.
Qed.

(** Phases 3 and 4 on a two-operand operation whose inputs are both
    constants: whichever rule applies, the operation becomes a [movi] of
    the value the folder computes. *)
Lemma rewrite_constant_operands op st v :
  is_binary_arith op = true ->
  is_const st (arg st 1) = true -> is_const st (arg st 2) = true ->
  (is_and_or op = true -> arg st 1 <> arg st 2) ->
  do_constant_folding bits defs op (val (temps st (arg st 1)))
    (val (temps st (arg st 2))) = Ok v ->
  rewrite bits defs s op st
  = Ok (next_op (tcg_opt_gen_movi
                   (set_opc st (if op_bits defs op =? 32
                                then INDEX_op_movi_i32 else INDEX_op_movi_i64))
                   0 (arg st 0) v) 3 2 0).
Proof.
  intros Hop C1 C2 Hne Hv.
  assert (Cp : temps_are_copies (temps st) (arg st 1) (arg st 2)
               = Ok (arg st 1 =? arg st 2)).
  { destruct (Z.eqb_spec (arg st 1) (arg st 2)) as [E|E].
    - unfold temps_are_copies. rewrite E, Z.eqb_refl. reflexivity.
    - apply temps_are_copies_undef; [exact E|]. left.
      apply is_state_true in C1. congruence. }
  unfold rewrite.
  destruct op; try discriminate Hop;
    cbn [simplify_shift_of_zero simplify_op_zero_mov simplify_op_zero_movi
         simplify_op_same_mov simplify_op_same_movi or_else fold_op];
    rewrite ?C1, ?C2; cbn [andb or_else];
    unfold const_zero; rewrite ?C2; cbn [andb];
    rewrite ?Cp; cbn [bind].
  all: try (rewrite op_to_movi_ok, Hv; reflexivity).
  all: try (destruct (Z.eqb_spec (arg st 1) (arg st 2)) as [E|E];
            [try (exfalso; apply (Hne eq_refl E))|]).
  all: try (destruct (Z.eqb_spec (val (temps st (arg st 2))) 0) as [Z0|Z0]).
  all: cbn [or_else]; unfold emit_movi_zero; rewrite ?op_to_movi_ok; cbn [bind or_else].
  all: try (rewrite Hv; reflexivity).
  all: try (rewrite Z0, fold_by_zero in Hv by exact I; injection Hv as <-; reflexivity).
  all: try (rewrite E, fold_of_same in Hv by exact I; injection Hv as <-; reflexivity).
Qed.

End ConstantOperands.

Section ConstantOperandsStep.

Variable bits : Z.
Variable defs : TCGOpcode -> TCGOpDef.
Variable s : TCGContext.
Hypothesis defs_ok : arity_ok defs.
Hypothesis bits_pos : 0 < bits.

Lemma movi_written st m d v :
  let st' := next_op (tcg_opt_gen_movi (set_opc st m) 0 d v) 3 2 0 in
  gen_opc_buf st' (op_index st) = m
  /\ opparam st' (gen_args st) = d
  /\ opparam st' (gen_args st + 1) = v
  /\ state (temps st' d) = TCG_TEMP_CONST
  /\ val (temps st' d) = v
  /\ args st' = (args st + 3)%nat
  /\ gen_args st' = (gen_args st + 2)%nat.
Proof.
  cbv zeta.
  split; [read_slots; reflexivity|].
  split; [read_slots; reflexivity|].
  split; [read_slots; reflexivity|].
  destruct (gen_movi_const (set_opc st m) 0 d v) as (G1 & G2).
  cbn [temps next_op]. split; [exact G1|]. split; [exact G2|].
  split; reflexivity.
Qed.

(** X15: an operation of the families add, sub, mul, and, or, xor, andc,
    orc, eqv, nand and nor on two constants (for [and] and [or]: held by
    two different temps) becomes a [movi] of the value that
    [do_constant_folding] gives for the two values in the order of the
    input, and the destination is recorded as that constant, whichever
    of the shortcut rules or the folding case gets there. *)
Theorem constant_operands_fold st op :
  gen_opc_buf st (op_index st) = op ->
  is_binary_arith op = true ->
  state (temps st (arg st 1)) = TCG_TEMP_CONST ->
  state (temps st (arg st 2)) = TCG_TEMP_CONST ->
  (is_and_or op = true -> arg st 1 <> arg st 2) ->
  exists st' v,
    do_constant_folding bits defs op (val (temps st (arg st 1)))
      (val (temps st (arg st 2))) = Ok v
    /\ step bits defs s st = Ok st'
    /\ gen_opc_buf st' (op_index st)
       = (if op_bits defs op =? 32 then INDEX_op_movi_i32 else INDEX_op_movi_i64)
    /\ opparam st' (gen_args st) = arg st 0
    /\ opparam st' (gen_args st + 1) = v
    /\ state (temps st' (arg st 0)) = TCG_TEMP_CONST
    /\ val (temps st' (arg st 0)) = v
    /\ args st' = (args st + 3)%nat
    /\ gen_args st' = (gen_args st + 2)%nat.
Proof.
  intros Hop Hb S1 S2 Hne.
  destruct (fold_binary_total bits defs op (val (temps st (arg st 1)))
              (val (temps st (arg st 2))) Hb) as (v & Hv).
  assert (C1 : is_const st (arg st 1) = true) by (apply is_state_true, S1).
  assert (C2 : is_const st (arg st 2) = true) by (apply is_state_true, S2).
  assert (Ar : nb_oargs (defs op) = 1%nat /\ nb_iargs (defs op) = 2%nat).
  { pose proof (defs_ok op) as A.
    destruct op; try discriminate Hb; cbn in A; tauto. }
  destruct Ar as (A1 & A2).
  assert (Hprep : exists st1,
    prepare bits defs s st = Ok st1
    /\ temps st1 = temps st /\ gen_opc_buf st1 = gen_opc_buf st
    /\ args st1 = args st /\ gen_args st1 = gen_args st
    /\ op_index st1 = op_index st
    /\ arg st1 0 = arg st 0
    /\ is_const st1 (arg st1 1) = true /\ is_const st1 (arg st1 2) = true
    /\ (is_and_or op = true -> arg st1 1 <> arg st1 2)
    /\ do_constant_folding bits defs op (val (temps st1 (arg st1 1)))
         (val (temps st1 (arg st1 2))) = Ok v).
  { unfold prepare, propagate_copies. rewrite Hop.
    assert (Ep : copy_propagate s (nb_iargs (defs op)) (nb_oargs (defs op)) st = Ok st).
    { rewrite A1, A2. apply copy_propagate_noop. intros j Hj.
      assert (j = 1 \/ j = 2)%nat as [-> | ->] by lia;
        apply const_not_copy; assumption. }
    replace (match op with
             | INDEX_op_call => _
             | _ => copy_propagate s (nb_iargs (defs op)) (nb_oargs (defs op)) st
             end) with (Ok st)
      by (destruct op; try discriminate Hb; symmetry; exact Ep).
    cbn [bind]. eexists. split; [reflexivity|].
    destruct op; try discriminate Hb; cbn [canonicalize];
      try (repeat split; assumption).
    all: rewrite swap_commutative_consts by assumption;
         destruct (Z.eqb_spec (arg st 0) (arg st 2)); cbn [fst];
         rewrite ?is_const_set_arg, ?arg_set_arg;
         cbn [Nat.eqb temps gen_opc_buf args gen_args op_index set_arg];
         repeat split; try assumption;
         try (intros H E; apply (Hne H); symmetry; exact E);
         try (rewrite fold_binary_comm by exact I; exact Hv). }
  destruct Hprep as (st1 & Ep & T & O & A & G & Ix & E0 & K1 & K2 & Kne & Kv).
  unfold step. rewrite Ep, Hop. cbn [bind].
  rewrite (rewrite_constant_operands bits defs s bits_pos op st1 v Hb K1 K2 Kne Kv).
  rewrite E0.
  eexists. exists v. split; [exact Hv|]. split; [reflexivity|].
  pose proof (movi_written st1
              (if op_bits defs op =? 32 then INDEX_op_movi_i32 else INDEX_op_movi_i64)
              (arg st 0) v) as F.
  cbv zeta in F. rewrite G, Ix, A in F. exact F.
Qed.

End ConstantOperandsStep.

(** ** What a turn of the loop leaves in the stream *)

Lemma op_to_mov_ok defs op :
  op_to_mov defs op
  = Ok (if op_bits defs op =? 32 then INDEX_op_mov_i32 else INDEX_op_mov_i64).
Proof.
  unfold op_to_mov. destruct (op_bits_cases defs op) as [-> | ->]; reflexivity.
Qed.

Section Outcome.

Variable bits : Z.
Variable defs : TCGOpcode -> TCGOpDef.
Variable s : TCGContext.

Lemma gen_mov_opc st d x st' :
  tcg_opt_gen_mov s st d x = Ok st' ->
  gen_opc_buf st' = gen_opc_buf st /\ gen_args st' = gen_args st
  /\ op_index st' = op_index st.
Proof.
  unfold tcg_opt_gen_mov. intros E. case_ok E. injection E as <-.
  repeat split.
Qed.

Ltac outcome_leaf Hop :=
  repeat match goal with
         | E : op_to_movi _ _ = Ok _ |- _ =>
             rewrite op_to_movi_ok in E; apply Ok_inj in E; subst
         | E : op_to_mov _ _ = Ok _ |- _ =>
             rewrite op_to_mov_ok in E; apply Ok_inj in E; subst
         | E : tcg_opt_gen_mov _ _ _ _ = Ok _ |- _ =>
             apply gen_mov_opc in E; destruct E as (? & ? & ?)
         end;
  unfold fold_branch;
  repeat match goal with
         | |- context [if (?a =? ?b)%Z then _ else _] => destruct (a =? b)%Z
         end;
  cbn [temps gen_opc_buf opparam args gen_args op_index tcg_opt_gen_movi
       set_gen_arg set_arg set_temps set_opc set_opc_at next_op] in *;
  repeat match goal with
         | H : gen_opc_buf _ = _ |- _ => rewrite H
         end;
  cbn [temps gen_opc_buf opparam args gen_args op_index tcg_opt_gen_movi
       set_gen_arg set_arg set_temps set_opc set_opc_at next_op] in *;
  unfold updn;
  repeat match goal with
         | |- context [Nat.eqb ?a ?b] => destruct (Nat.eqb_spec a b); try lia
         end;
  repeat match goal with
         | |- context [if ?b then _ else _] => destruct b
         end;
  rewrite ?Hop;
  first
    [ left; repeat split; (reflexivity || assumption || lia)
    | right; left; eexists; reflexivity
    | right; right; left; eexists; reflexivity
    | right; right; right; left; split; [left; reflexivity | reflexivity]
    | right; right; right; left; split; [right; reflexivity | reflexivity]
    | right; right; right; right; left; reflexivity ].

(** What phases 3 to 5 can make of an operation. *)
Lemma rewrite_outcome op st st' :
  gen_opc_buf st (op_index st) = op ->
  rewrite bits defs s op st = Ok st' ->
  let o' := gen_opc_buf st' (op_index st) in
  (o' = INDEX_op_nop /\ temps st' = temps st /\ gen_args st' = gen_args st)
  \/ (exists w, o' = INDEX_op_movi w)
  \/ (exists w, o' = INDEX_op_mov w)
  \/ ((o' = INDEX_op_br \/ o' = INDEX_op_brcond_i32)
      /\ temps st' = memset_temps (temps st) (nb_temps s))
  \/ o' = INDEX_op_setcond_i32
  \/ (o' = INDEX_op_call /\ op = INDEX_op_call)
  \/ (o' = op /\ st' = do_default defs s op st).
Proof.
  intros Hop E. cbv zeta.
  assert (Dflt : gen_opc_buf (do_default defs s op st) (op_index st) = op).
  { unfold do_default. cbn [gen_opc_buf next_op].
    destruct (copy_args_frame s (nb_args (defs op)) 0
                (set_temps st (if bb_end defs op
                               then memset_temps (temps st) (nb_temps s)
                               else reset_args (nb_oargs (defs op)) 0 st (temps st))))
      as (-> & _).
    exact Hop. }
  unfold rewrite, or_else in E.
  unfold simplify_shift_of_zero, simplify_op_zero_mov, simplify_op_zero_movi,
    simplify_op_same_mov, simplify_op_same_movi, emit_movi_zero, emit_mov_or_nop,
    fold_op, fold_to_movi, fold_to_movi2 in E.
  destruct op;
    case_ok E; try discriminate;
    repeat match goal with
           | H : Ok _ = Ok _ |- _ => injection H as <-
           | H : Some _ = Some _ |- _ => injection H as <-
           | H : bind _ _ = Ok _ |- _ => case_ok H
           | H : (if _ then _ else _) = Ok _ |- _ => case_ok H
           end; try discriminate.
  all: try (do 6 right; split; [exact Dflt | reflexivity]).
  all: try solve [outcome_leaf Hop].
  all: try (do 5 right; left; split; [|reflexivity]; cbn [gen_opc_buf next_op];
            rewrite (proj1 (copy_args_frame s _ _ _)); exact Hop).
  all: outcome_leaf Hop.
Qed.

End Outcome.

Section Turn.

Variable bits : Z.
Variable defs : TCGOpcode -> TCGOpDef.
Variable s : TCGContext.

Lemma step_outcome st st' :
  step bits defs s st = Ok st' ->
  let op := gen_opc_buf st (op_index st) in
  let o' := gen_opc_buf st' (op_index st) in
  (o' = INDEX_op_nop /\ temps st' = temps st /\ gen_args st' = gen_args st)
  \/ (exists w, o' = INDEX_op_movi w)
  \/ (exists w, o' = INDEX_op_mov w)
  \/ ((o' = INDEX_op_br \/ o' = INDEX_op_brcond_i32)
      /\ temps st' = memset_temps (temps st) (nb_temps s))
  \/ o' = INDEX_op_setcond_i32
  \/ (o' = INDEX_op_call /\ op = INDEX_op_call)
  \/ (o' = op
      /\ temps st' = if bb_end defs op then memset_temps (temps st) (nb_temps s)
                     else temps st').
Proof.
  intros E. unfold step in E.
  destruct (prepare bits defs s st) as [st1|] eqn:Ep; cbn [bind] in E;
    [|discriminate E].
  destruct (prepare_temps _ _ _ _ _ Ep) as (T & O).
  destruct (prepare_cursors _ _ _ _ _ Ep) as (A & G & I).
  assert (Hop : gen_opc_buf st1 (op_index st1) = gen_opc_buf st (op_index st))
    by (rewrite O, I; reflexivity).
  pose proof (rewrite_outcome bits defs s _ st1 st' Hop E) as R.
  cbv zeta in *. rewrite I, T, G in R.
  destruct R as [R|[R|[R|[R|[R|[R|(R1 & R2)]]]]]]; auto 8.
  do 6 right. split; [exact R1|].
  destruct (bb_end defs (gen_opc_buf st (op_index st))) eqn:Eb; [|reflexivity].
  rewrite R2. unfold do_default. rewrite Eb. cbn [temps next_op].
  rewrite copy_args_temps. cbn [temps set_temps]. rewrite T. reflexivity.
Qed.

(** X19: an operation that a turn of the loop replaces by [nop] leaves
    no trace: the table and the write cursor are as before. *)
Theorem deleted_operation_leaves_no_trace st st' :
  step bits defs s st = Ok st' ->
  gen_opc_buf st (op_index st) <> INDEX_op_nop ->
  gen_opc_buf st' (op_index st) = INDEX_op_nop ->
  temps st' = temps st /\ gen_args st' = gen_args st.
Proof.
  intros E Hne Hn. pose proof (step_outcome st st' E) as R. cbv zeta in R.
  rewrite Hn in R.
  destruct R as [(_ & R)|[(w & R)|[(w & R)|[([R|R] & _)|[R|[(R & _)|(R & _)]]]]]];
    try discriminate R; [exact R | congruence].
Qed.

(** X20: whenever the operation that a turn of the loop leaves in the
    stream ends a basic block, every temp of the context has been
    forgotten. *)
Theorem block_end_forgets_everything st st' :
  (forall w, bb_end defs (INDEX_op_mov w) = false) ->
  (forall w, bb_end defs (INDEX_op_movi w) = false) ->
  bb_end defs INDEX_op_nop = false ->
  bb_end defs INDEX_op_setcond_i32 = false ->
  bb_end defs INDEX_op_call = false ->
  step bits defs s st = Ok st' ->
  bb_end defs (gen_opc_buf st' (op_index st)) = true ->
  forall t, 0 <= t < nb_temps s -> temps st' t = zero_info.
Proof.
  intros Hmov Hmovi Hnop Hset Hcall E Hb t Ht.
  assert (Z : forall tb, memset_temps tb (nb_temps s) t = zero_info).
  { intros tb. unfold memset_temps.
    destruct (Z.leb_spec 0 t); [|lia]. destruct (Z.ltb_spec t (nb_temps s)); [|lia].
    reflexivity. }
  pose proof (step_outcome st st' E) as R. cbv zeta in R.
  destruct R as [(R & _)|[(w & R)|[(w & R)|[(_ & R)|[R|[(R & _)|(R1 & R2)]]]]]];
    try (rewrite R in Hb; congruence).
  - rewrite R. apply Z.
  - rewrite R1 in Hb. rewrite Hb in R2. rewrite R2. apply Z.
Qed.

End Turn.

(** ** Calls *)





Section Call.

Variable bits : Z.
Variable defs : TCGOpcode -> TCGOpDef.
Variable s : TCGContext.


End Call.

(** ** A predicate slot without a predicate; one constant operand *)

(** X9: when the predicate slot holds none of the ten predicates,
    [do_constant_folding_cond] calls [tcg_abort] exactly when both
    operands are constants or the operands are copies of each other, and
    answers 2 otherwise. *)
Theorem do_constant_folding_cond_bad_predicate defs tb op x y c cp :
  cond_of_arg c = None ->
  temps_are_copies tb x y = Ok cp ->
  do_constant_folding_cond defs tb op x y c
  = if (is_state tb x TCG_TEMP_CONST && is_state tb y TCG_TEMP_CONST) || cp
    then Err tcg_abort else Ok 2.
Proof.
  intros Hc Hcp. unfold do_constant_folding_cond.
  destruct (is_state tb x TCG_TEMP_CONST && is_state tb y TCG_TEMP_CONST) eqn:E;
    cbn [orb].
  - unfold do_constant_folding_cond_32, do_constant_folding_cond_64, fold_cond_bits.
    rewrite Hc. destruct (op_bits_cases defs op) as [-> | ->]; reflexivity.
  - rewrite Hcp. cbn [bind]. destruct cp.
    + unfold do_constant_folding_cond_eq. rewrite Hc. reflexivity.
    + rewrite Hc. destruct (is_state tb y TCG_TEMP_CONST && (val (tb y) =? 0));
        reflexivity.
Qed.

Section OneOperand.

Variable bits : Z.
Variable defs : TCGOpcode -> TCGOpDef.
Variable s : TCGContext.
Hypothesis defs_ok : arity_ok defs.

Lemma movi_written2 st m d v :
  let st' := next_op (tcg_opt_gen_movi (set_opc st m) 0 d v) 2 2 0 in
  gen_opc_buf st' (op_index st) = m
  /\ opparam st' (gen_args st) = d
  /\ opparam st' (gen_args st + 1) = v
  /\ state (temps st' d) = TCG_TEMP_CONST
  /\ val (temps st' d) = v
  /\ args st' = (args st + 2)%nat
  /\ gen_args st' = (gen_args st + 2)%nat.
Proof.
  cbv zeta.
  split; [read_slots; reflexivity|].
  split; [read_slots; reflexivity|].
  split; [read_slots; reflexivity|].
  destruct (gen_movi_const (set_opc st m) 0 d v) as (G1 & G2).
  cbn [temps next_op]. split; [exact G1|]. split; [exact G2|].
  split; reflexivity.
Qed.

Lemma prepare_one_constant st op :
  gen_opc_buf st (op_index st) = op ->
  nb_oargs (defs op) = 1%nat -> nb_iargs (defs op) = 1%nat ->
  op <> INDEX_op_call -> canonicalize bits op st = st ->
  state (temps st (arg st 1)) = TCG_TEMP_CONST ->
  prepare bits defs s st = Ok st.
Proof.
  intros Hop A1 A2 Hc Hk S1. unfold prepare, propagate_copies. rewrite Hop.
  assert (Ep : copy_propagate s (nb_iargs (defs op)) (nb_oargs (defs op)) st = Ok st).
  { rewrite A1, A2. apply copy_propagate_noop. intros j Hj.
    assert (j = 1)%nat as -> by lia. apply const_not_copy. exact S1. }
  replace (match op with
           | INDEX_op_call => _
           | _ => copy_propagate s (nb_iargs (defs op)) (nb_oargs (defs op)) st
           end) with (Ok st)
    by (destruct op; try congruence; symmetry; exact Ep).
  cbn [bind]. rewrite Hk. reflexivity.
Qed.

(** X16: a one-operand operation ([not], [neg], the extensions) on a
    constant becomes a [movi] of the folded value, and the destination
    is recorded as that constant. *)
Theorem constant_operand_fold st op :
  gen_opc_buf st (op_index st) = op ->
  is_unary_arith op = true ->
  state (temps st (arg st 1)) = TCG_TEMP_CONST ->
  exists st' v,
    do_constant_folding bits defs op (val (temps st (arg st 1))) 0 = Ok v
    /\ step bits defs s st = Ok st'
    /\ gen_opc_buf st' (op_index st)
       = (if op_bits defs op =? 32 then INDEX_op_movi_i32 else INDEX_op_movi_i64)
    /\ opparam st' (gen_args st) = arg st 0
    /\ opparam st' (gen_args st + 1) = v
    /\ state (temps st' (arg st 0)) = TCG_TEMP_CONST
    /\ val (temps st' (arg st 0)) = v
    /\ args st' = (args st + 2)%nat
    /\ gen_args st' = (gen_args st + 2)%nat.
Proof.
  intros Hop Hu S1.
  assert (Hv : exists v, do_constant_folding bits defs op
                           (val (temps st (arg st 1))) 0 = Ok v).
  { unfold do_constant_folding.
    destruct op; try discriminate Hu; cbn [do_constant_folding_2 bind];
      destruct (op_bits defs _ =? 32); eexists; reflexivity. }
  destruct Hv as (v & Hv).
  assert (C1 : is_const st (arg st 1) = true) by (apply is_state_true, S1).
  assert (Ep : prepare bits defs s st = Ok st).
  { pose proof (defs_ok op) as A.
    apply (prepare_one_constant st op Hop); try assumption;
      destruct op; try discriminate Hu; cbn in A; try tauto;
      (discriminate || reflexivity). }
  unfold step. rewrite Ep, Hop. cbn [bind].
  assert (Er : rewrite bits defs s op st
               = Ok (next_op (tcg_opt_gen_movi
                       (set_opc st (if op_bits defs op =? 32
                                    then INDEX_op_movi_i32 else INDEX_op_movi_i64))
                       0 (arg st 0) v) 2 2 0)).
  { unfold rewrite.
    destruct op; try discriminate Hu;
      cbn [simplify_shift_of_zero simplify_op_zero_mov simplify_op_zero_movi
           simplify_op_same_mov simplify_op_same_movi or_else fold_op];
      rewrite C1, op_to_movi_ok, Hv; reflexivity. }
  rewrite Er. eexists. exists v. split; [exact Hv|]. split; [reflexivity|].
  exact (movi_written2 st _ (arg st 0) v).
Qed.

(** X17: a move from a constant temp to another temp becomes a [movi]
    of that constant, and the destination is recorded as the
    constant. *)
Theorem mov_of_constant st w :
  gen_opc_buf st (op_index st) = INDEX_op_mov w ->
  state (temps st (arg st 1)) = TCG_TEMP_CONST ->
  arg st 0 <> arg st 1 ->
  exists st',
    step bits defs s st = Ok st'
    /\ gen_opc_buf st' (op_index st)
       = (if op_bits defs (INDEX_op_mov w) =? 32
          then INDEX_op_movi_i32 else INDEX_op_movi_i64)
    /\ opparam st' (gen_args st) = arg st 0
    /\ opparam st' (gen_args st + 1) = val (temps st (arg st 1))
    /\ state (temps st' (arg st 0)) = TCG_TEMP_CONST
    /\ val (temps st' (arg st 0)) = val (temps st (arg st 1))
    /\ args st' = (args st + 2)%nat
    /\ gen_args st' = (gen_args st + 2)%nat.
Proof.
  intros Hop S1 Hne.
  assert (C1 : is_const st (arg st 1) = true) by (apply is_state_true, S1).
  pose proof (defs_ok (INDEX_op_mov w)) as (A1 & A2 & _). cbn in A1, A2.
  assert (Ep : prepare bits defs s st = Ok st).
  { apply (prepare_one_constant st _ Hop); try assumption;
      (discriminate || reflexivity). }
  assert (Cp : temps_are_copies (temps st) (arg st 0) (arg st 1) = Ok false).
  { apply temps_are_copies_undef; [exact Hne|]. right. congruence. }
  unfold step. rewrite Ep, Hop. cbn [bind]. unfold rewrite.
  cbn [simplify_shift_of_zero simplify_op_zero_mov simplify_op_zero_movi
       simplify_op_same_mov simplify_op_same_movi or_else fold_op].
  rewrite Cp. cbn [bind]. rewrite C1. cbn [negb].
  rewrite op_to_movi_ok. cbn [bind].
  eexists. split; [reflexivity|].
  set (m := if op_bits defs (INDEX_op_mov w) =? 32
            then INDEX_op_movi_i32 else INDEX_op_movi_i64).
  assert (A0 : arg (set_arg (set_opc st m) 1
                      (val (temps (set_opc st m) (arg (set_opc st m) 1)))) 0
               = arg st 0) by (rewrite arg_set_arg; reflexivity).
  assert (A1' : arg (set_arg (set_opc st m) 1
                      (val (temps (set_opc st m) (arg (set_opc st m) 1)))) 1
               = val (temps st (arg st 1))) by (rewrite arg_set_arg; reflexivity).
  rewrite A0, A1'.
  split; [read_slots; reflexivity|].
  split; [read_slots; reflexivity|].
  split; [read_slots; reflexivity|].
  cbn [temps next_op].
  match goal with
  | |- context [tcg_opt_gen_movi ?a ?b ?c ?d] =>
      destruct (gen_movi_const a b c d) as (G1 & G2)
  end.
  split; [exact G1|]. split; [exact G2|]. split; reflexivity.
Qed.

End OneOperand.

(** ** A zero that changes nothing *)

Section IdentityOperand.

Variable bits : Z.
Variable defs : TCGOpcode -> TCGOpDef.
Variable s : TCGContext.
Hypothesis defs_ok : arity_ok defs.

(** X18: [op r, a, 0] for add, sub, the shifts and rotations, or and
    xor, with nothing known about [a], becomes [mov r, a], and a [nop]
    that leaves the table and the write cursor alone when [r] is [a]. *)
Theorem identity_operand_becomes_move st op :
  gen_opc_buf st (op_index st) = op ->
  has_right_identity_zero op = true ->
  state (temps st (arg st 1)) = TCG_TEMP_UNDEF ->
  state (temps st (arg st 2)) = TCG_TEMP_CONST ->
  val (temps st (arg st 2)) = 0 ->
  exists st',
    step bits defs s st = Ok st'
    /\ args st' = (args st + 3)%nat
    /\ (arg st 0 = arg st 1 ->
        gen_opc_buf st' (op_index st) = INDEX_op_nop
        /\ temps st' = temps st /\ gen_args st' = gen_args st)
    /\ (arg st 0 <> arg st 1 ->
        gen_opc_buf st' (op_index st)
        = (if op_bits defs op =? 32 then INDEX_op_mov_i32 else INDEX_op_mov_i64)
        /\ opparam st' (gen_args st) = arg st 0
        /\ opparam st' (gen_args st + 1) = arg st 1
        /\ gen_args st' = (gen_args st + 2)%nat).
Proof.
  intros Hop Hi S1 S2 V2.
  assert (C1 : is_const st (arg st 1) = false)
    by (apply is_state_false; congruence).
  assert (C2 : is_const st (arg st 2) = true) by (apply is_state_true, S2).
  assert (Ar : nb_oargs (defs op) = 1%nat /\ nb_iargs (defs op) = 2%nat).
  { pose proof (defs_ok op) as A.
    destruct op; try discriminate Hi; cbn in A; tauto. }
  destruct Ar as (A1 & A2).
  assert (Ep : prepare bits defs s st = Ok st).
  { unfold prepare, propagate_copies. rewrite Hop.
    assert (Ec : copy_propagate s (nb_iargs (defs op)) (nb_oargs (defs op)) st = Ok st).
    { rewrite A1, A2. apply copy_propagate_noop. intros j Hj.
      assert (j = 1 \/ j = 2)%nat as [-> | ->] by lia; congruence. }
    replace (match op with
             | INDEX_op_call => _
             | _ => copy_propagate s (nb_iargs (defs op)) (nb_oargs (defs op)) st
             end) with (Ok st)
      by (destruct op; try discriminate Hi; symmetry; exact Ec).
    cbn [bind]. f_equal.
    destruct op; try discriminate Hi; cbn [canonicalize]; try reflexivity;
      unfold swap_commutative; rewrite C1, C2; reflexivity. }
  assert (Em : exists st', emit_mov_or_nop defs s op st = Ok (Some st')
            /\ args st' = (args st + 3)%nat
            /\ (arg st 0 = arg st 1 ->
                gen_opc_buf st' (op_index st) = INDEX_op_nop
                /\ temps st' = temps st /\ gen_args st' = gen_args st)
            /\ (arg st 0 <> arg st 1 ->
                gen_opc_buf st' (op_index st)
                = (if op_bits defs op =? 32 then INDEX_op_mov_i32 else INDEX_op_mov_i64)
                /\ opparam st' (gen_args st) = arg st 0
                /\ opparam st' (gen_args st + 1) = arg st 1
                /\ gen_args st' = (gen_args st + 2)%nat)).
  { unfold emit_mov_or_nop.
    destruct (Z.eq_dec (arg st 0) (arg st 1)) as [E|E].
    - assert (Cp : temps_are_copies (temps st) (arg st 0) (arg st 1) = Ok true)
        by (unfold temps_are_copies; rewrite E, Z.eqb_refl; reflexivity).
      rewrite Cp. cbn [bind]. eexists. split; [reflexivity|].
      split; [reflexivity|]. split; [|contradiction].
      intros _. split; [read_slots; reflexivity|]. split; [reflexivity|].
      cbn. lia.
    - assert (Cp : temps_are_copies (temps st) (arg st 0) (arg st 1) = Ok false).
      { apply temps_are_copies_undef; [exact E|]. right. congruence. }
      rewrite Cp. cbn [bind]. rewrite op_to_mov_ok. cbn [bind].
      unfold tcg_opt_gen_mov.
      assert (Sc : is_state (reset_temp (temps (set_opc st
                      (if op_bits defs op =? 32
                       then INDEX_op_mov_i32 else INDEX_op_mov_i64))) (arg st 0))
                     (arg st 1) TCG_TEMP_CONST = false).
      { apply is_state_false. cbn [temps set_opc set_opc_at].
        destruct (reset_temp_state_weak (temps st) (arg st 0) (arg st 1));
          congruence. }
      rewrite Sc. cbn [bind]. eexists. split; [reflexivity|].
      split; [reflexivity|]. split; [contradiction|].
      intros _. split; [read_slots; reflexivity|].
      split; [read_slots; reflexivity|].
      split; [read_slots; reflexivity|]. reflexivity. }
  destruct Em as (st' & Em & R).
  exists st'. split; [|exact R].
  unfold step. rewrite Ep, Hop. cbn [bind]. unfold rewrite.
  destruct op; try discriminate Hi;
    cbn [simplify_shift_of_zero simplify_op_zero_mov simplify_op_zero_movi
         simplify_op_same_mov simplify_op_same_movi or_else fold_op];
    unfold const_zero; rewrite ?C1, ?C2, ?V2; cbn [andb Z.eqb or_else];
    rewrite Em; reflexivity.
Qed.

End IdentityOperand.

(** ** What the pass does not touch *)

Section Untouched.

Variable bits : Z.
Variable defs : TCGOpcode -> TCGOpDef.
Variable s : TCGContext.
Hypothesis defs_ok : arity_ok defs.

Lemma run_frame fuel : forall nb st st',
  (gen_args st <= args st)%nat ->
  run bits defs fuel s nb st = Ok st' ->
  (args st <= args st')%nat /\ (op_index st <= op_index st')%nat
  /\ ((op_index st <= nb + 1)%nat -> (op_index st' <= nb + 1)%nat)
  /\ (forall p, (args st' <= p)%nat -> opparam st' p = opparam st p)
  /\ (forall j, (op_index st' <= j)%nat -> gen_opc_buf st' j = gen_opc_buf st j).
Proof.
  induction fuel as [|fuel IH]; intros nb st st' Hle E; simpl in E.
  - injection E as <-. auto.
  - destruct (Nat.ltb_spec (op_index st) nb).
    + destruct (step bits defs s st) as [st1|] eqn:E1; cbn [bind] in E;
        [|discriminate E].
      pose proof (step_advanced _ _ _ _ _ E1) as (A1 & A2 & A3).
      destruct (step_frame bits defs s defs_ok st st1 Hle E1) as (F1 & F2 & F3 & F4).
      destruct (IH nb st1 st' ltac:(lia) E) as (I1 & I2 & I0 & I3 & I4).
      split; [lia|]. split; [lia|]. split; [intros _; apply I0; lia|]. split.
      * intros p Hp. rewrite I3 by exact Hp. apply F2. lia.
      * intros j Hj. rewrite I4 by exact Hj. apply F3. lia.
    + injection E as <-. auto.
Qed.

(** X22: the pass rewrites the stream it is given and nothing behind
    it: the arguments from the final read cursor on and the opcodes
    after the last operation it has looked at are as they were, and it
    looks at most one operation beyond [nb_ops]. *)
Theorem tcg_optimize_leaves_the_rest nb_ops st st' :
  tcg_optimize bits defs s nb_ops st = Ok st' ->
  (forall p, (args st' <= p)%nat -> opparam st' p = opparam st p)
  /\ (forall j, (op_index st' <= j)%nat -> gen_opc_buf st' j = gen_opc_buf st j)
  /\ (nb_ops <= op_index st' <= nb_ops + 1)%nat.
Proof.
  intros E. unfold tcg_optimize, tcg_constant_folding in E.
  destruct (run_frame nb_ops nb_ops (entry s st) st' ltac:(cbn; lia) E)
    as (_ & _ & F0 & F1 & F2).
  split; [exact F1|]. split; [exact F2|].
  split; [apply (run_complete _ _ _ _ _ _ _ E); cbn; lia|].
  apply F0. cbn. lia.
Qed.

End Untouched.

(** ** The table stays true of the values *)

#[global] Hint Rewrite val_set_state val_set_prev val_set_next val_set_val : table.

Section Agreement.

Variable n : Z.
Hypothesis n_small : n <= 65536.

(** Temps that [temps_are_copies] holds for, and that differ, are both
    copies. *)
Lemma copies_are_copies tb x y :
  temps_are_copies tb x y = Ok true -> x <> y ->
  state (tb x) = TCG_TEMP_COPY /\ state (tb y) = TCG_TEMP_COPY.
Proof.
  unfold temps_are_copies. intros E Hne.
  destruct (Z.eqb_spec x y); [contradiction|].
  destruct (is_state tb x TCG_TEMP_COPY) eqn:Sx; cbn [negb orb] in E;
    [|discriminate E].
  destruct (is_state tb y TCG_TEMP_COPY) eqn:Sy; cbn [negb] in E;
    [|discriminate E].
  split; apply is_state_true; assumption.
Qed.

(** Values that do not change along the links are the same all over a
    ring. *)
Lemma agrees_by_steps tb (e : env) :
  ring_ok n tb ->
  (forall t, 0 <= t < n -> state (tb t) = TCG_TEMP_COPY ->
     e (next_copy (tb t)) = e t) ->
  forall x y, 0 <= x < n -> 0 <= y < n ->
    temps_are_copies tb x y = Ok true -> e x = e y.
Proof.
  intros H Hstep x y Hx Hy E.
  apply (temps_are_copies_spec n n_small tb H x Hx y) in E.
  destruct E as [->|(Sx & Sy & m & Hm)]; [reflexivity|].
  subst y. clear Hy Sy. induction m as [|m IH]; [reflexivity|].
  rewrite walk_S.
  destruct (walk_copy n tb H x Hx Sx m) as (W1 & W2).
  rewrite (Hstep _ W1 W2). exact IH.
Qed.

(** Forgetting [d]: whatever [d] holds afterwards, the table stays true. *)
Lemma reset_temp_agrees tb d (e e' : env) :
  ring_ok n tb -> 0 <= d < n ->
  (forall t, t <> d -> e' t = e t) ->
  agrees n tb e -> agrees n (reset_temp tb d) e'.
Proof.
  intros H Hd He (Hc & Hcp). split.
  - intros t Ht St.
    assert (t <> d) by (intros ->; rewrite reset_temp_state_self in St; discriminate).
    rewrite val_reset_temp, He by assumption. apply Hc; [exact Ht|].
    destruct (reset_temp_state_weak tb d t); congruence.
  - intros x y Hx Hy E.
    destruct (Z.eq_dec x y) as [->|Hne]; [reflexivity|].
    destruct (copies_are_copies _ _ _ E Hne) as (Sx & Sy).
    assert (x <> d) by (intros ->; rewrite reset_temp_state_self in Sx; discriminate).
    assert (y <> d) by (intros ->; rewrite reset_temp_state_self in Sy; discriminate).
    rewrite !He by assumption. apply Hcp; try assumption.
    pose proof (reset_temp_ring_ok n n_small tb H d Hd) as H'.
    apply (temps_are_copies_spec n n_small tb H x Hx y).
    apply (reset_temp_same_ring n n_small tb H d Hd x y); try assumption.
    apply (temps_are_copies_spec n n_small _ H' x Hx y). exact E.
Qed.

(** X24: recording a constant keeps the table true: if the table is
    true of the values before and [dst] holds [v] afterwards, the table
    that [tcg_opt_gen_movi] leaves is true of the values afterwards. *)
Theorem gen_movi_keeps_agreement st off dst v e :
  ring_ok n (temps st) -> 0 <= dst < n ->
  agrees n (temps st) e ->
  agrees n (temps (tcg_opt_gen_movi st off dst v)) (env_set e dst v).
Proof.
  intros H Hd Ha.
  pose proof (reset_temp_ring_ok n n_small _ H dst Hd) as H1.
  assert (A1 : agrees n (reset_temp (temps st) dst) (env_set e dst v)).
  { apply (reset_temp_agrees (temps st) dst e); try assumption.
    intros t Ht. unfold env_set. destruct (Z.eqb_spec t dst); [contradiction|].
    reflexivity. }
  destruct A1 as (Hc & Hcp).
  assert (Sd : state (reset_temp (temps st) dst dst) <> TCG_TEMP_COPY)
    by (rewrite reset_temp_state_self; discriminate).
  unfold tcg_opt_gen_movi. cbn [temps set_gen_arg set_temps].
  set (tb1 := reset_temp (temps st) dst) in *.
  assert (H2 : ring_ok n (set_val (set_state tb1 dst TCG_TEMP_CONST) dst v)).
  { apply set_val_ring_ok. apply set_state_ring_ok; [exact H1 | exact Sd |].
    discriminate. }
  split.
  - intros t Ht. autorewrite with table.
    destruct (Z.eqb_spec t dst) as [->|Hne].
    + intros _. unfold env_set. rewrite Z.eqb_refl. reflexivity.
    + apply Hc. exact Ht.
  - apply (agrees_by_steps _ _ H2). intros t Ht. autorewrite with table.
    destruct (Z.eqb_spec t dst) as [->|Hne]; [discriminate|].
    intros St. destruct (H1 t Ht St) as (F1 & _ & F3 & _).
    apply Hcp; try assumption.
    set (u := next_copy (tb1 t)) in *.
    destruct (Z.eq_dec u t) as [->|Hu].
    + unfold temps_are_copies. rewrite Z.eqb_refl. reflexivity.
    + apply (temps_are_copies_spec n n_small tb1 H1 u F1 t).
      apply same_ring_sym with (n := n); try assumption.
      right. split; [exact St|]. split; [exact F3|]. exists 1%nat. reflexivity.
Qed.

(** In a table that is true of [e], a copy and the next of its ring hold
    the same value. *)
Lemma agrees_next tb (e : env) t :
  ring_ok n tb -> agrees n tb e ->
  0 <= t < n -> state (tb t) = TCG_TEMP_COPY ->
  e (next_copy (tb t)) = e t.
Proof.
  intros H (_ & Hcp) Ht St.
  destruct (H t Ht St) as (F1 & _ & F3 & _).
  symmetry. apply Hcp; try assumption.
  destruct (Z.eq_dec t (next_copy (tb t))) as [E|E].
  - rewrite <- E. unfold temps_are_copies. rewrite Z.eqb_refl. reflexivity.
  - apply temps_are_copies_next; auto.
Qed.

(** X25: recording a move keeps the table true: if the table is true of
    the values before and [dst] holds afterwards what [src] holds, the
    table that [tcg_opt_gen_mov] leaves is true of the values
    afterwards. *)
Theorem gen_mov_keeps_agreement s st dst src st' e :
  ring_ok n (temps st) -> 0 <= dst < n -> 0 <= src < n -> src <> dst ->
  agrees n (temps st) e ->
  tcg_opt_gen_mov s st dst src = Ok st' ->
  agrees n (temps st') (env_set e dst (e src)).
Proof.
  intros H Hd Hs Hne Ha E.
  pose proof (reset_temp_ring_ok n n_small _ H dst Hd) as H1.
  set (e' := env_set e dst (e src)).
  assert (Ed : e' dst = e src) by (unfold e', env_set; rewrite Z.eqb_refl; reflexivity).
  assert (Eo : forall t, t <> dst -> e' t = e t).
  { intros t Ht. unfold e', env_set.
    destruct (Z.eqb_spec t dst); [contradiction|reflexivity]. }
  assert (A1 : agrees n (reset_temp (temps st) dst) e')
    by (apply (reset_temp_agrees (temps st) dst e); assumption).
  assert (Sd : state (reset_temp (temps st) dst dst) = TCG_TEMP_UNDEF)
    by apply reset_temp_state_self.
  unfold tcg_opt_gen_mov in E.
  set (tb1 := reset_temp (temps st) dst) in *.
  destruct (is_state tb1 src TCG_TEMP_CONST) eqn:Sc; [discriminate E|].
  injection E as <-. cbn [temps set_gen_arg set_temps].
  destruct (TCGType_eqb (temp_type s src) (temp_type s dst)); [|exact A1].
  assert (H2 : ring_ok n (link_copy tb1 dst src))
    by (apply link_copy_ring_ok; try assumption; congruence).
  pose proof (agrees_next tb1 e' src H1 A1 Hs) as Ns.
  pose proof (fun t => agrees_next tb1 e' t H1 A1) as Nt.
  destruct A1 as (Hc & Hcp).
  apply is_state_false in Sc.
  split.
  - intros t Ht. unfold link_copy.
    destruct (is_state tb1 src TCG_TEMP_COPY) eqn:Ss; cbn [negb]; cbv zeta;
      autorewrite with table;
      table_cases; subst; try discriminate; try congruence;
      intros St; apply Hc; assumption.
  - apply (agrees_by_steps _ _ H2). intros t Ht. unfold link_copy.
    destruct (is_state tb1 src TCG_TEMP_COPY) eqn:Ss; cbn [negb]; cbv zeta.
    + apply is_state_true in Ss.
      destruct (H1 src Hs Ss) as (S1 & S2 & S3 & S4 & S5 & S6).
      autorewrite with table. rewrite ?Z.eqb_refl.
      rewrite ?(to_uint16_small (next_copy (tb1 src))) by lia.
      rewrite ?(to_uint16_small src), ?(to_uint16_small dst) by lia.
      assert (Ed' : e' dst = e' src) by (rewrite Ed, Eo by exact Hne; reflexivity).
      pose proof (Ns Ss) as Ns'.
      table_cases; subst; try congruence; intros St;
        try (pose proof (Nt _ Ht St)); congruence.
    + apply is_state_false in Ss.
      autorewrite with table. rewrite ?Z.eqb_refl.
      rewrite ?(to_uint16_small src), ?(to_uint16_small dst) by lia.
      assert (Ed' : e' dst = e' src) by (rewrite Ed, Eo by exact Hne; reflexivity).
      table_cases; subst; try congruence; intros St;
        try (pose proof (Nt _ Ht St)); congruence.
Qed.

End Agreement.

(** ** Flushing the instruction cache *)

Lemma align8 bits x :
  3 <= bits -> 0 <= x < 2 ^ bits ->
  Z.land x (to_uint bits (Z.lnot 7)) = 8 * (x / 8).
Proof.
  intros Hb Hx. unfold to_uint.
  assert (P8 : 2 ^ 3 <= 2 ^ bits) by (apply Z.pow_le_mono_r; lia).
  change (2 ^ 3) with 8 in P8.
  rewrite land_mod_r by lia.
  change 7 with (Z.ones 3).
  rewrite <- Z.ldiff_land, Z.ldiff_ones_r by lia.
  rewrite Z.shiftl_mul_pow2, Z.shiftr_div_pow2 by lia. change (2 ^ 3) with 8.
  rewrite Z.mod_small; [lia|].
  pose proof (Z.mul_div_le x 8 ltac:(lia)).
  assert (0 <= x / 8) by (apply Z.div_pos; lia). lia.
Qed.

Lemma flush_loop_trace bits k : forall fuel p,
  3 <= bits -> 0 <= p -> p + 8 * Z.of_nat k < 2 ^ bits ->
  (k <= fuel)%nat ->
  flush_loop fuel bits p (p + 8 * Z.of_nat k)
  = Ok (map (fun j => p + 8 * Z.of_nat j) (seq 0 k)).
Proof.
  induction k as [|k IH]; intros fuel p Hb Hp Hk Hf.
  - replace (p + 8 * Z.of_nat 0) with p by lia.
    destruct fuel; cbn [flush_loop]; rewrite Z.ltb_irrefl; reflexivity.
  - destruct fuel as [|fuel]; [lia|]. cbn [flush_loop].
    destruct (Z.ltb_spec p (p + 8 * Z.of_nat (S k))); [|lia].
    assert (E : to_uint bits (p + 8) = p + 8).
    { apply Z.mod_small. lia. }
    rewrite E.
    replace (p + 8 * Z.of_nat (S k)) with (p + 8 + 8 * Z.of_nat k) by lia.
    rewrite IH by lia. cbn [bind seq map]. f_equal. f_equal; [lia|].
    rewrite <- seq_shift, map_map. apply map_ext. intros j. lia.
Qed.

Lemma flush_loop_done fuel bits p stop :
  stop <= p -> flush_loop fuel bits p stop = Ok [].
Proof.
  intros H. destruct fuel; cbn [flush_loop];
    destruct (Z.ltb_spec p stop); (reflexivity || lia).
Qed.

(** X26: the addresses flushed are the 8-byte blocks from the block of
    [start] up to the block of the last address before [stop], each
    once and in order; every address of the range is in one of them. *)
Theorem flush_icache_range_covers bits start stop :
  3 <= bits -> 0 <= start < 2 ^ bits -> 0 <= stop -> stop + 7 < 2 ^ bits ->
  exists l,
    flush_icache_range bits start stop = Ok l
    /\ l = map (fun j => 8 * (start / 8) + 8 * Z.of_nat j)
               (seq 0 (Z.to_nat ((stop + 7) / 8 - start / 8)))
    /\ forall a, start <= a < stop -> In (8 * (a / 8)) l.
Proof.
  intros Hb Hs H0 H7.
  assert (P8 : 2 ^ 3 <= 2 ^ bits) by (apply Z.pow_le_mono_r; lia).
  change (2 ^ 3) with 8 in P8.
  eexists. split; [|split; [reflexivity|]].
  - unfold flush_icache_range.
    assert (E7 : to_uint bits (8 - 1) = 7) by (apply Z.mod_small; lia).
    rewrite !E7.
    assert (E : to_uint bits (stop + 7) = stop + 7) by (apply Z.mod_small; lia).
    rewrite E, !align8 by lia.
    set (p := 8 * (start / 8)). set (q := 8 * ((stop + 7) / 8)).
    assert (Hp : 0 <= p) by (unfold p; assert (0 <= start / 8) by (apply Z.div_pos; lia); lia).
    assert (Hq : q < 2 ^ bits)
      by (unfold q; pose proof (Z.mul_div_le (stop + 7) 8 ltac:(lia)); lia).
    destruct (Z.le_gt_cases q p) as [Hle|Hgt].
    + rewrite flush_loop_done by exact Hle.
      replace (Z.to_nat ((stop + 7) / 8 - start / 8)) with 0%nat
        by (unfold p, q in Hle; lia).
      reflexivity.
    + set (k := Z.to_nat ((stop + 7) / 8 - start / 8)).
      assert (Ek : q = p + 8 * Z.of_nat k) by (unfold k, p, q in *; lia).
      rewrite Ek. apply flush_loop_trace; try lia.
  - intros a Ha. apply in_map_iff.
    exists (Z.to_nat (a / 8 - start / 8)).
    assert (L : start / 8 <= a / 8) by (apply Z.div_le_mono; lia).
    assert (U : a / 8 < (stop + 7) / 8).
    { apply Z.div_lt_upper_bound; [lia|].
      pose proof (Z.mul_div_le (stop + 7) 8 ltac:(lia)).
      pose proof (Z.mod_pos_bound (stop + 7) 8 ltac:(lia)).
      pose proof (Z.div_mod (stop + 7) 8 ltac:(lia)). lia. }
    split; [lia|]. apply in_seq. lia.
Qed.

(** X27: a range that ends in the last seven bytes of the address
    space is not flushed at all: rounding [stop] up wraps around to
    zero. *)
Theorem flush_icache_range_wraps bits start stop :
  3 <= bits -> 0 <= start < 2 ^ bits -> 2 ^ bits - 8 < stop < 2 ^ bits ->
  flush_icache_range bits start stop = Ok [].
Proof.
  intros Hb Hs Ht.
  assert (P8 : 2 ^ 3 <= 2 ^ bits) by (apply Z.pow_le_mono_r; lia).
  change (2 ^ 3) with 8 in P8.
  unfold flush_icache_range.
  assert (E7 : to_uint bits (8 - 1) = 7) by (apply Z.mod_small; lia).
  rewrite !E7.
  assert (E : to_uint bits (stop + 7) = stop + 7 - 2 ^ bits).
  { unfold to_uint. symmetry. apply Z.mod_unique with (q := 1); lia. }
  rewrite E, !align8 by lia.
  rewrite (Z.div_small (stop + 7 - 2 ^ bits)) by lia.
  apply flush_loop_done.
  assert (0 <= start / 8) by (apply Z.div_pos; lia). lia.
Qed.

(** ** Asynchronous I/O on Windows *)

Import Win32.

Lemma gather_from v : forall off b,
  (off + length (concat v) <= length b)%nat ->
  gather v off b
  = Ok (firstn off b ++ concat v ++ skipn (off + length (concat v)) b).
Proof.
  induction v as [|e v IH]; intros off b H; cbn [gather].
  - cbn [concat length app]. rewrite Nat.add_0_r, firstn_skipn. reflexivity.
  - change (concat (e :: v)) with (e ++ concat v) in *.
    rewrite length_app in H. unfold memcpy_at.
    destruct (Nat.leb_spec (off + length e) (length b)); [|lia].
    cbn [bind].
    set (b' := firstn off b ++ e ++ skipn (off + length e) b).
    assert (Lf : length (firstn off b) = off) by (apply firstn_length_le; lia).
    assert (Lb : length b' = length b).
    { unfold b'. rewrite !length_app, Lf, length_skipn. lia. }
    rewrite IH by (rewrite Lb; lia). f_equal.
    assert (F : firstn (off + length e) b' = firstn off b ++ e).
    { unfold b'. rewrite app_assoc.
      rewrite firstn_app, firstn_all2 by (rewrite length_app, Lf; lia).
      rewrite length_app, Lf.
      replace (off + length e - (off + length e))%nat with 0%nat by lia.
      cbn [firstn]. rewrite app_nil_r. reflexivity. }
    assert (K : skipn (off + length e + length (concat v)) b'
                = skipn (off + length (e ++ concat v)) b).
    { unfold b'. rewrite app_assoc, skipn_app.
      rewrite skipn_all2 by (rewrite length_app, Lf; lia).
      rewrite length_app, Lf, skipn_skipn, length_app. cbn [app].
      f_equal. lia. }
    rewrite F, K, <- !app_assoc. reflexivity.
Qed.

Lemma gather_overflow v : forall off b,
  (off <= length b)%nat ->
  (length b < off + length (concat v))%nat ->
  gather v off b = Err undefined_behaviour.
Proof.
  induction v as [|e v IH]; intros off b Ho H; cbn [gather].
  - cbn in H. lia.
  - change (concat (e :: v)) with (e ++ concat v) in H.
    rewrite length_app in H. unfold memcpy_at.
    destruct (Nat.leb_spec (off + length e) (length b)); [|reflexivity].
    cbn [bind]. apply IH;
      rewrite !length_app, length_skipn, firstn_length_le by lia; lia.
Qed.

(** X28: the copy loop of a request fills the buffer with the elements
    of the vector, one after the other, and leaves what follows them; a
    vector longer than the buffer overruns it. *)
Theorem gather_is_concatenation v b :
  ((length (concat v) <= length b)%nat ->
   gather v 0 b = Ok (concat v ++ skipn (length (concat v)) b))
  /\ ((length b < length (concat v))%nat ->
      gather v 0 b = Err undefined_behaviour).
Proof.
  split; intros H.
  - rewrite gather_from by lia. reflexivity.
  - apply gather_overflow; lia.
Qed.

Section SubmitFacts.

Variables QEMU_AIO_READ QEMU_AIO_WRITE ERROR_IO_PENDING : Z.

Local Abbreviation submit :=
  (win32_aio_submit QEMU_AIO_READ QEMU_AIO_WRITE ERROR_IO_PENDING).

(** What a submission that returns has computed. *)
Lemma submit_inv aio sector_num q nb_sectors type env aio' call r :
  submit aio sector_num q nb_sectors type env = Ok (aio', call, r) ->
  int64_ok (sector_num * 512) = true
  /\ int_ok (nb_sectors * 512) = true
  /\ int_ok (count aio + 1) = true
  /\ call_len call = nb_sectors * 512
  /\ call_ov call
     = {| Internal := 0;
          Offset := to_uint 32 (to_uint 64 (sector_num * 512));
          OffsetHigh := to_uint 32 (Z.shiftr (to_uint 64 (sector_num * 512)) 32);
          hEvent := event_handle env |}
  /\ hIOCP aio' = hIOCP aio
  /\ (if (rc env =? 0) && negb (last_error env =? ERROR_IO_PENDING)
      then r = None /\ count aio' = count aio
      else count aio' = count aio + 1
           /\ exists acb, r = Some acb /\ ov acb = call_ov call
                /\ nbytes acb = nb_sectors * 512 /\ buf acb = call_buf call
                /\ qiov acb = q).
Proof.
  unfold win32_aio_submit. intros E.
  destruct (int64_ok (sector_num * 512)); cbn [bind] in E; [|discriminate E].
  destruct (int_ok (nb_sectors * 512)); cbn [bind] in E; [|discriminate E].
  match type of E with bind ?x _ = _ => destruct x as [bl|] end;
    cbn [bind] in E; [|discriminate E].
  destruct (int_ok (count aio + 1)); cbn [bind] in E; [|discriminate E].
  destruct ((rc env =? 0) && negb (last_error env =? ERROR_IO_PENDING));
    injection E as <- <- <-; cbn [count hIOCP];
    (destruct (negb (Z.land type QEMU_AIO_READ =? 0));
     cbn [call_len call_ov call_buf];
     repeat split; try reflexivity; try lia;
     eexists; repeat split).
Qed.

(** X29: the byte offset of a request, 512 times its sector number, is
    split into the two 32-bit words of the [OVERLAPPED] without loss,
    and the length handed to [ReadFile] or [WriteFile] is 512 times the
    number of sectors. *)
Theorem submit_offset_round_trip
    aio sector_num q nb_sectors type env aio' call r :
  submit aio sector_num q nb_sectors type env = Ok (aio', call, r) ->
  let o := call_ov call in
  0 <= Offset o < 2 ^ 32 /\ 0 <= OffsetHigh o < 2 ^ 32
  /\ Offset o + 2 ^ 32 * OffsetHigh o = (sector_num * 512) mod 2 ^ 64
  /\ (0 <= sector_num -> Offset o + 2 ^ 32 * OffsetHigh o = sector_num * 512)
  /\ call_len call = nb_sectors * 512
  /\ (forall acb, r = Some acb ->
        ov acb = o /\ nbytes acb = nb_sectors * 512).
Proof.
  intros E. cbv zeta.
  destruct (submit_inv _ _ _ _ _ _ _ _ _ E) as (H64 & _ & _ & Hl & Ho & _ & Hr).
  assert (Hacb : forall acb, r = Some acb ->
            ov acb = call_ov call /\ nbytes acb = nb_sectors * 512).
  { intros acb Hacb.
    destruct ((rc env =? 0) && negb (last_error env =? ERROR_IO_PENDING)).
    - destruct Hr as (Hn & _). congruence.
    - destruct Hr as (_ & acb' & Ha & Hov & Hn & _).
      assert (acb' = acb) by congruence. subst acb'. auto. }
  revert Hacb. rewrite Ho. intros Hacb. cbn [Offset OffsetHigh]. unfold to_uint.
  set (x := (sector_num * 512) mod 2 ^ 64).
  assert (Hx : 0 <= x < 2 ^ 64) by (apply Z.mod_pos_bound; lia).
  rewrite Z.shiftr_div_pow2 by lia.
  assert (Hh : 0 <= x / 2 ^ 32 < 2 ^ 32).
  { split; [apply Z.div_pos; lia|].
    apply Z.div_lt_upper_bound; [lia|]. change (2 ^ 32 * 2 ^ 32) with (2 ^ 64). lia. }
  rewrite (Z.mod_small (x / 2 ^ 32)) by lia.
  pose proof (Z.mod_pos_bound x (2 ^ 32) ltac:(lia)).
  pose proof (Z.div_mod x (2 ^ 32) ltac:(lia)) as Dm.
  split; [lia|]. split; [lia|]. split; [lia|]. split.
  - intros Hs. unfold int64_ok in H64. apply andb_true_iff in H64 as (_ & H64).
    apply Z.ltb_lt in H64.
    assert (x = sector_num * 512)
      by (unfold x; apply Z.mod_small; lia).
    lia.
  - split; [exact Hl|]. intros acb Ha.
    destruct (Hacb acb Ha) as (H1 & H2). rewrite H1. split; [|exact H2].
    unfold to_uint. fold x. rewrite Z.shiftr_div_pow2 by lia.
    rewrite (Z.mod_small (x / 2 ^ 32)) by lia. reflexivity.
Qed.

Section InFlight.

Variables EIO EINVAL SIZE_BITS : Z.
Variable qemu_iovec_memset : QEMUIOVector -> Z -> Z -> Z -> QEMUIOVector.

Local Abbreviation complete :=
  (win32_aio_process_completion EIO EINVAL SIZE_BITS qemu_iovec_memset).

Lemma completion_count s acb cnt s' c :
  complete s acb cnt = Ok (s', c) ->
  count s' = count s - 1 /\ hIOCP s' = hIOCP s.
Proof.
  unfold win32_aio_process_completion. intros E.
  destruct (int_ok (count s - 1)); cbn [bind] in E; [|discriminate E].
  match type of E with
  | (let '(r, q) := ?x in _) = _ => destruct x as [r0 q0]
  end.
  destruct (negb (is_linear acb) && (r0 =? 0) && is_read acb).
  - destruct (gather (iov q0) 0 (buf acb)); cbn [bind] in E; [|discriminate E].
    injection E as <- _. auto.
  - injection E as <- _. auto.
Qed.

(** X30: the count of requests in flight: a submission that the
    operating system refuses leaves it as it was, one that it takes adds
    one, which the completion of the request takes away again;
    [win32_aio_flush_cb] answers 1 while a request is in flight. *)
Theorem requests_in_flight aio sector_num q nb_sectors type env aio' call r :
  submit aio sector_num q nb_sectors type env = Ok (aio', call, r) ->
  (r = None <-> (rc env = 0 /\ last_error env <> ERROR_IO_PENDING))
  /\ (r = None -> count aio' = count aio)
  /\ (forall acb, r = Some acb ->
        count aio' = count aio + 1
        /\ (0 <= count aio -> win32_aio_flush_cb aio' = 1)
        /\ forall cnt s'' c,
             complete aio' acb cnt = Ok (s'', c) ->
             count s'' = count aio /\ hIOCP s'' = hIOCP aio).
Proof.
  intros E.
  destruct (submit_inv _ _ _ _ _ _ _ _ _ E) as (_ & _ & _ & _ & _ & Hh & Hr).
  destruct (Z.eqb_spec (rc env) 0) as [Hrc|Hrc];
    destruct (Z.eqb_spec (last_error env) ERROR_IO_PENDING) as [Hle|Hle];
    cbn [andb negb] in Hr.
  2: { destruct Hr as (-> & Hc). split; [tauto|]. split; [auto|].
       intros acb Ha. discriminate Ha. }
  all: destruct Hr as (Hc & acb0 & -> & _);
    (split; [split; [discriminate | tauto]|]);
    (split; [discriminate|]);
    intros acb Ha; injection Ha as <-;
    (split; [exact Hc|]);
    (split; [intros H0; unfold win32_aio_flush_cb; rewrite Hc;
             destruct (Z.gtb_spec (count aio + 1) 0); [reflexivity | lia]|]);
    intros cnt s'' c Ec;
    destruct (completion_count _ _ _ _ _ Ec) as (C1 & C2);
    split; [lia | congruence].
Qed.

End InFlight.

End SubmitFacts.

(** ** The properties at concrete inputs *)

Lemma zero_table_ring_ok n : ring_ok n (fun _ => zero_info).
Proof. intros t _ St. discriminate St. Qed.

Lemma const_table_ring_ok n : ring_ok n const_table.
Proof.
  intros t _ St. unfold const_table in St. autorewrite with table in St.
  repeat match type of St with
         | context [?a =? ?b] => destruct (a =? b)
         end; discriminate St.
Qed.

Lemma copy_table_ring_ok : ring_ok 8 copy_table.
Proof.
  apply link_copy_ring_ok; try lia; [apply zero_table_ring_ok | discriminate].
Qed.


Lemma rotate_fold_nonzero_witness :
  exists rl rr,
    do_constant_folding 64 std_op_defs (INDEX_op_rotl TCG_TYPE_I32) 1 4 = Ok rl
    /\ do_constant_folding 64 std_op_defs (INDEX_op_rotr TCG_TYPE_I32) 1 4 = Ok rr
    /\ 0 <= rl < 2 ^ type_bits TCG_TYPE_I32
    /\ 0 <= rr < 2 ^ type_bits TCG_TYPE_I32
    /\ forall i, 0 <= i < type_bits TCG_TYPE_I32 ->
         Z.testbit rl i = Z.testbit 1 ((i - 4) mod type_bits TCG_TYPE_I32)
         /\ Z.testbit rr i = Z.testbit 1 ((i + 4) mod type_bits TCG_TYPE_I32).
Proof.
  assert (H1 : 64 = 32 \/ 64 = 64) by (right; reflexivity).
  assert (H2 : type_bits TCG_TYPE_I32 <= 64) by (cbn; lia).
  assert (H3 : op_bits std_op_defs (INDEX_op_rotl TCG_TYPE_I32)
               = type_bits TCG_TYPE_I32) by reflexivity.
  assert (H4 : op_bits std_op_defs (INDEX_op_rotr TCG_TYPE_I32)
               = type_bits TCG_TYPE_I32) by reflexivity.
  assert (H5 : 0 < 4 < type_bits TCG_TYPE_I32) by (cbn; lia).
  exact (rotate_fold_nonzero 64 std_op_defs TCG_TYPE_I32 1 4 H1 H2 H3 H4 H5).
Defined.

Lemma do_constant_folding_range_witness :
  0 <= 4294967295 < 2 ^ op_bits std_op_defs (INDEX_op_not TCG_TYPE_I32).
Proof.
  assert (H1 : 64 = 32 \/ 64 = 64) by (right; reflexivity).
  assert (H2 : op_bits std_op_defs (INDEX_op_not TCG_TYPE_I32) <= 64)
    by (vm_compute; discriminate).
  assert (H3 : 0 <= 0 < 2 ^ 64) by lia.
  assert (H4 : do_constant_folding 64 std_op_defs (INDEX_op_not TCG_TYPE_I32) 0 0
               = Ok 4294967295) by (vm_compute; reflexivity).
  exact (do_constant_folding_range 64 std_op_defs (INDEX_op_not TCG_TYPE_I32)
           0 0 4294967295 H1 H2 H3 H3 H4).
Defined.

Lemma deposit_fold_witness :
  let st := before const_table (INDEX_op_deposit TCG_TYPE_I32) [4; 1; 2; 8; 4] in
  exists st' v,
    step 64 std_op_defs (ctx32 8 1) st = Ok st'
    /\ gen_opc_buf st' (op_index st) = INDEX_op_movi_i32
    /\ opparam st' (gen_args st) = 4
    /\ opparam st' (gen_args st + 1) = v
    /\ Z.testbit v 8 = Z.testbit 7 0 /\ Z.testbit v 0 = Z.testbit 5 0.
Proof.
  intros st.
  assert (H1 : 64 = 32 \/ 64 = 64) by (right; reflexivity).
  assert (H2 : gen_opc_buf st (op_index st) = INDEX_op_deposit TCG_TYPE_I32)
    by reflexivity.
  assert (H3 : state (temps st (arg st 1)) = TCG_TEMP_CONST) by reflexivity.
  assert (H4 : state (temps st (arg st 2)) = TCG_TEMP_CONST) by reflexivity.
  assert (H5 : 0 <= val (temps st (arg st 1)) < 2 ^ 64) by (vm_compute; split; congruence).
  assert (H6 : 0 <= val (temps st (arg st 2)) < 2 ^ 64) by (vm_compute; split; congruence).
  assert (H7 : 0 <= arg st 3 < 64) by (vm_compute; split; congruence).
  assert (H8 : 0 <= arg st 4 < 64) by (vm_compute; split; congruence).
  destruct (deposit_fold 64 std_op_defs (ctx32 8 1) TCG_TYPE_I32 st
              H1 std_op_defs_arity_ok H2 H3 H4 H5 H6 H7 H8)
    as (st' & v & E & Ho & A0 & A1 & _ & _ & _ & _ & _ & Hb).
  exists st', v. split; [exact E|]. split; [exact Ho|]. split; [exact A0|].
  split; [exact A1|]. split.
  - exact (Hb 8 ltac:(lia)).
  - exact (Hb 0 ltac:(lia)).
Defined.

Lemma double_word_fold_witness :
  let st := set_temps (load [INDEX_op_add2_i32; INDEX_op_nop] [4; 5; 1; 3; 2; 3])
                      const_table in
  exists st',
    step 32 std_op_defs (ctx32 8 1) st = Ok st'
    /\ gen_opc_buf st' 0%nat = INDEX_op_movi_i32
    /\ gen_opc_buf st' 1%nat = INDEX_op_movi_i32
    /\ opparam st' 0%nat = 4 /\ opparam st' 1%nat = 12
    /\ opparam st' 2%nat = 5 /\ opparam st' 3%nat = 0.
Proof.
  intros st.
  assert (H1 : nb_temps (ctx32 8 1) <= 65536) by (cbn; lia).
  assert (H2 : ring_ok (nb_temps (ctx32 8 1)) (temps st))
    by apply const_table_ring_ok.
  assert (H3 : 0 <= arg st 0 < nb_temps (ctx32 8 1)) by (vm_compute; split; congruence).
  assert (H4 : 0 <= arg st 1 < nb_temps (ctx32 8 1)) by (vm_compute; split; congruence).
  assert (H5 : forall j, (2 <= j < 6)%nat ->
                 state (temps st (arg st j)) = TCG_TEMP_CONST).
  { intros j Hj.
    assert (j = 2 \/ j = 3 \/ j = 4 \/ j = 5)%nat as [-> |[-> |[-> | ->]]] by lia;
      reflexivity. }
  assert (H6 : (gen_opc_buf st (op_index st) = INDEX_op_add2_i32
     /\ 12 = (pair64 (val (temps st (arg st 3))) (val (temps st (arg st 2)))
             + pair64 (val (temps st (arg st 5))) (val (temps st (arg st 4))))
            mod 2 ^ 64)
    \/ (gen_opc_buf st (op_index st) = INDEX_op_sub2_i32
        /\ 12 = (pair64 (val (temps st (arg st 3))) (val (temps st (arg st 2)))
                - pair64 (val (temps st (arg st 5))) (val (temps st (arg st 4))))
               mod 2 ^ 64))
    by (left; split; reflexivity).
  assert (H7 : gen_opc_buf st (op_index st + 1) = INDEX_op_nop) by reflexivity.
  destruct (proj2 (double_word_fold 32 std_op_defs (ctx32 8 1)
                     std_op_defs_arity_ok H1 st 12 H2 H3 H4 H5 H6) H7)
    as (st' & E & O0 & O1 & A0 & A1 & A2 & A3 & _).
  exists st'. repeat split; assumption.
Defined.

Lemma mulu2_fold_witness :
  let st := set_temps (load [INDEX_op_mulu2_i32; INDEX_op_nop] [4; 5; 1; 2])
                      const_table in
  exists st',
    step 32 std_op_defs (ctx32 8 1) st = Ok st'
    /\ gen_opc_buf st' 0%nat = INDEX_op_movi_i32
    /\ gen_opc_buf st' 1%nat = INDEX_op_movi_i32
    /\ opparam st' 0%nat = 4 /\ opparam st' 1%nat = 35
    /\ opparam st' 2%nat = 5 /\ opparam st' 3%nat = 0.
Proof.
  intros st.
  assert (H1 : nb_temps (ctx32 8 1) <= 65536) by (cbn; lia).
  assert (H2 : ring_ok (nb_temps (ctx32 8 1)) (temps st))
    by apply const_table_ring_ok.
  assert (H3 : 0 <= arg st 0 < nb_temps (ctx32 8 1)) by (vm_compute; split; congruence).
  assert (H4 : 0 <= arg st 1 < nb_temps (ctx32 8 1)) by (vm_compute; split; congruence).
  assert (H5 : gen_opc_buf st (op_index st) = INDEX_op_mulu2_i32) by reflexivity.
  assert (H6 : state (temps st (arg st 2)) = TCG_TEMP_CONST) by reflexivity.
  assert (H7 : state (temps st (arg st 3)) = TCG_TEMP_CONST) by reflexivity.
  assert (H8 : 35 = to_uint 32 (val (temps st (arg st 2)))
                    * to_uint 32 (val (temps st (arg st 3)))) by reflexivity.
  assert (H9 : gen_opc_buf st (op_index st + 1) = INDEX_op_nop) by reflexivity.
  destruct (proj2 (mulu2_fold 32 std_op_defs (ctx32 8 1)
                     std_op_defs_arity_ok H1 st 35 H2 H3 H4 H5 H6 H7 H8) H9)
    as (st' & E & O0 & O1 & A0 & A1 & A2 & A3 & _).
  exists st'. repeat split; assumption.
Defined.

(** The table of constants is true of the values it names. *)
Lemma const_table_agrees n :
  agrees n const_table (fun t => val (const_table t)).
Proof.
  split; [reflexivity|].
  intros x y _ _ E. destruct (Z.eq_dec x y) as [->|Hne]; [reflexivity|].
  destruct (copies_are_copies const_table x y E Hne) as (Sx & _).
  exfalso. unfold const_table in Sx. autorewrite with table in Sx.
  repeat match type of Sx with
         | context [?a =? ?b] => destruct (a =? b)
         end; discriminate Sx.
Qed.

Lemma do_constant_folding_cond_sound_witness :
  1 = 2
  \/ 1 = of_bool (spec_compare (op_bits std_op_defs INDEX_op_setcond_i32)
                    TCG_COND_LT (val (const_table 1)) (val (const_table 2))).
Proof.
  assert (H1 : 0 <= 1 < 8) by lia.
  assert (H2 : 0 <= 2 < 8) by lia.
  assert (H3 : cond_of_arg (arg_of_cond TCG_COND_LT) = Some TCG_COND_LT)
    by reflexivity.
  assert (H4 : do_constant_folding_cond std_op_defs const_table
                 INDEX_op_setcond_i32 1 2 (arg_of_cond TCG_COND_LT) = Ok 1)
    by (vm_compute; reflexivity).
  exact (do_constant_folding_cond_sound std_op_defs 8 const_table
           INDEX_op_setcond_i32 1 2 (arg_of_cond TCG_COND_LT) TCG_COND_LT
           (fun t => val (const_table t)) 1 (const_table_agrees 8) H1 H2 H3 H4).
Defined.

Lemma do_constant_folding_cond2_sound_witness :
  0 = 2
  \/ 0 = of_bool (spec_compare 64 TCG_COND_GEU
                    (pair64 (val (const_table 3)) (val (const_table 1)))
                    (pair64 (val (const_table 3)) (val (const_table 2)))).
Proof.
  assert (H1 : 0 <= 1 < 8) by lia.
  assert (H2 : 0 <= 2 < 8) by lia.
  assert (H3 : 0 <= 3 < 8) by lia.
  assert (H4 : cond_of_arg (arg_of_cond TCG_COND_GEU) = Some TCG_COND_GEU)
    by reflexivity.
  assert (H5 : do_constant_folding_cond2 const_table 1 3 2 3
                 (arg_of_cond TCG_COND_GEU) = Ok 0)
    by (vm_compute; reflexivity).
  exact (do_constant_folding_cond2_sound 8 const_table 1 3 2 3
           (arg_of_cond TCG_COND_GEU) TCG_COND_GEU
           (fun t => val (const_table t)) 0 (const_table_agrees 8)
           H1 H3 H2 H3 H4 H5).
Defined.

Lemma do_constant_folding_cond_bad_predicate_witness :
  do_constant_folding_cond std_op_defs const_table INDEX_op_setcond_i32 1 2 77
  = Err tcg_abort
  /\ do_constant_folding_cond std_op_defs const_table INDEX_op_setcond_i32 4 3 77
     = Ok 2.
Proof.
  assert (H1 : cond_of_arg 77 = None) by reflexivity.
  assert (H2 : temps_are_copies const_table 1 2 = Ok false)
    by (vm_compute; reflexivity).
  assert (H3 : temps_are_copies const_table 4 3 = Ok false)
    by (vm_compute; reflexivity).
  split.
  - exact (do_constant_folding_cond_bad_predicate std_op_defs const_table
             INDEX_op_setcond_i32 1 2 77 false H1 H2).
  - exact (do_constant_folding_cond_bad_predicate std_op_defs const_table
             INDEX_op_setcond_i32 4 3 77 false H1 H3).
Defined.

Lemma temps_are_copies_equivalence_witness :
  temps_are_copies copy_table 1 1 = Ok true
  /\ temps_are_copies copy_table 1 2 = temps_are_copies copy_table 2 1
  /\ (temps_are_copies copy_table 1 2 = Ok true ->
      temps_are_copies copy_table 2 1 = Ok true ->
      temps_are_copies copy_table 1 1 = Ok true).
Proof.
  assert (H1 : 8 <= 65536) by lia.
  assert (H2 : 0 <= 1 < 8) by lia.
  assert (H3 : 0 <= 2 < 8) by lia.
  exact (temps_are_copies_equivalence 8 H1 copy_table copy_table_ring_ok
           1 2 1 H2 H3).
Defined.

Lemma reset_temp_keeps_other_copies_witness :
  temps_are_copies (reset_temp copy_table 3) 3 1 = Ok false
  /\ (2 <> 3 ->
      temps_are_copies (reset_temp copy_table 3) 1 2
      = temps_are_copies copy_table 1 2).
Proof.
  assert (H1 : 8 <= 65536) by lia.
  assert (H2 : 0 <= 1 < 8) by lia.
  assert (H3 : 0 <= 2 < 8) by lia.
  assert (H4 : 0 <= 3 < 8) by lia.
  assert (H5 : 1 <> 3) by discriminate.
  exact (reset_temp_keeps_other_copies 8 H1 copy_table copy_table_ring_ok
           3 H4 1 2 H2 H3 H5).
Defined.

Lemma find_better_copy_spec_witness :
  exists r,
    find_better_copy (ctx32 8 2) copy_table 2 = Ok r
    /\ temps_are_copies copy_table 2 r = Ok true
    /\ r < nb_globals (ctx32 8 2).
Proof.
  assert (H1 : 8 <= 65536) by lia.
  assert (H2 : 0 <= 2 < 8) by lia.
  assert (H3 : state (copy_table 2) = TCG_TEMP_COPY) by reflexivity.
  destruct (find_better_copy_spec (ctx32 8 2) 8 H1 copy_table
              copy_table_ring_ok 2 H2 H3) as (r & E & C & _ & _ & G).
  exists r. split; [exact E|]. split; [exact C|].
  assert (H4 : temps_are_copies copy_table 2 1 = Ok true)
    by (vm_compute; reflexivity).
  assert (H5 : 1 < nb_globals (ctx32 8 2)) by reflexivity.
  exact (proj1 (G 1 H4) H5).
Defined.

Lemma copy_propagate_by_copies_witness :
  let st := before copy_table INDEX_op_mov_i32 [3; 2] in
  exists st',
    copy_propagate (ctx32 8 2) 1 1 st = Ok st'
    /\ temps st' = temps st
    /\ temps_are_copies (temps st) (arg st 1) (arg st' 1) = Ok true
    /\ arg st' 0 = arg st 0.
Proof.
  intros st.
  assert (H1 : 8 <= 65536) by lia.
  assert (H2 : ring_ok 8 (temps st)) by exact copy_table_ring_ok.
  assert (H3 : forall j, (1 <= j < 1 + 1)%nat -> 0 <= arg st j < 8).
  { intros j Hj. assert (j = 1)%nat as -> by lia. vm_compute. split; congruence. }
  destruct (copy_propagate (ctx32 8 2) 1 1 st) as [st'|] eqn:E.
  - exists st'. split; [reflexivity|].
    destruct (copy_propagate_by_copies (ctx32 8 2) 8 H1 1 1 st st' H2 H3 E)
      as (T & C & O).
    split; [exact T|]. split; [exact (C 1%nat)|].
    exact (O 0%nat (or_introl (Nat.lt_0_succ 0))).
  - vm_compute in E. discriminate E.
Defined.

Lemma canonicalize_constant_second_witness :
  let st := before const_table (INDEX_op_add TCG_TYPE_I32) [4; 1; 5] in
  let st' := canonicalize 64 (INDEX_op_add TCG_TYPE_I32) st in
  arg st' 0 = arg st 0
  /\ ((arg st' 1 = arg st 1 /\ arg st' 2 = arg st 2)
      \/ (arg st' 1 = arg st 2 /\ arg st' 2 = arg st 1)).
Proof.
  intros st st'.
  destruct (canonicalize_constant_second 64 (INDEX_op_add TCG_TYPE_I32) st)
    as (_ & H0 & H12 & _ & _).
  exact (conj H0 H12).
Defined.

Lemma constant_operands_fold_witness :
  let st := before const_table (INDEX_op_sub TCG_TYPE_I32) [4; 1; 2] in
  exists st',
    step 64 std_op_defs (ctx32 8 1) st = Ok st'
    /\ gen_opc_buf st' 0%nat = INDEX_op_movi_i32
    /\ opparam st' 0%nat = 4
    /\ opparam st' 1%nat = 4294967294
    /\ state (temps st' 4) = TCG_TEMP_CONST
    /\ val (temps st' 4) = 4294967294.
Proof.
  intros st.
  assert (H0 : 0 < 64) by lia.
  assert (H1 : gen_opc_buf st (op_index st) = INDEX_op_sub TCG_TYPE_I32)
    by reflexivity.
  assert (H2 : is_binary_arith (INDEX_op_sub TCG_TYPE_I32) = true) by reflexivity.
  assert (H3 : state (temps st (arg st 1)) = TCG_TEMP_CONST) by reflexivity.
  assert (H4 : state (temps st (arg st 2)) = TCG_TEMP_CONST) by reflexivity.
  assert (H5 : is_and_or (INDEX_op_sub TCG_TYPE_I32) = true -> arg st 1 <> arg st 2)
    by (intros H; discriminate H).
  destruct (constant_operands_fold 64 std_op_defs (ctx32 8 1)
              std_op_defs_arity_ok H0 st _ H1 H2 H3 H4 H5)
    as (st' & v & Hv & E & Ho & A0 & A1 & S0 & V0 & _).
  assert (Ev : v = 4294967294) by (vm_compute in Hv; congruence).
  rewrite Ev in *. exists st'. repeat split; assumption.
Defined.

Lemma constant_operand_fold_witness :
  let st := before const_table (INDEX_op_neg TCG_TYPE_I32) [4; 1] in
  exists st',
    step 64 std_op_defs (ctx32 8 1) st = Ok st'
    /\ gen_opc_buf st' 0%nat = INDEX_op_movi_i32
    /\ opparam st' 0%nat = 4
    /\ opparam st' 1%nat = 4294967291.
Proof.
  intros st.
  assert (H1 : gen_opc_buf st (op_index st) = INDEX_op_neg TCG_TYPE_I32)
    by reflexivity.
  assert (H2 : is_unary_arith (INDEX_op_neg TCG_TYPE_I32) = true) by reflexivity.
  assert (H3 : state (temps st (arg st 1)) = TCG_TEMP_CONST) by reflexivity.
  destruct (constant_operand_fold 64 std_op_defs (ctx32 8 1)
              std_op_defs_arity_ok st _ H1 H2 H3)
    as (st' & v & Hv & E & Ho & A0 & A1 & _).
  assert (Ev : v = 4294967291) by (vm_compute in Hv; congruence).
  rewrite Ev in *. exists st'. repeat split; assumption.
Defined.

Lemma mov_of_constant_witness :
  let st := before const_table INDEX_op_mov_i32 [4; 2] in
  exists st',
    step 64 std_op_defs (ctx32 8 1) st = Ok st'
    /\ gen_opc_buf st' 0%nat = INDEX_op_movi_i32
    /\ opparam st' 0%nat = 4
    /\ opparam st' 1%nat = 7
    /\ state (temps st' 4) = TCG_TEMP_CONST
    /\ val (temps st' 4) = 7.
Proof.
  intros st.
  assert (H1 : gen_opc_buf st (op_index st) = INDEX_op_mov_i32) by reflexivity.
  assert (H2 : state (temps st (arg st 1)) = TCG_TEMP_CONST) by reflexivity.
  assert (H3 : arg st 0 <> arg st 1) by discriminate.
  destruct (mov_of_constant 64 std_op_defs (ctx32 8 1) std_op_defs_arity_ok
              st TCG_TYPE_I32 H1 H2 H3)
    as (st' & E & Ho & A0 & A1 & S0 & V0 & _).
  exists st'. repeat split; assumption.
Defined.

Lemma identity_operand_becomes_move_witness :
  let st := before const_table (INDEX_op_add TCG_TYPE_I32) [4; 5; 3] in
  exists st',
    step 64 std_op_defs (ctx32 8 1) st = Ok st'
    /\ gen_opc_buf st' 0%nat = INDEX_op_mov_i32
    /\ opparam st' 0%nat = 4
    /\ opparam st' 1%nat = 5.
Proof.
  intros st.
  assert (H1 : gen_opc_buf st (op_index st) = INDEX_op_add TCG_TYPE_I32)
    by reflexivity.
  assert (H2 : has_right_identity_zero (INDEX_op_add TCG_TYPE_I32) = true)
    by reflexivity.
  assert (H3 : state (temps st (arg st 1)) = TCG_TEMP_UNDEF) by reflexivity.
  assert (H4 : state (temps st (arg st 2)) = TCG_TEMP_CONST) by reflexivity.
  assert (H5 : val (temps st (arg st 2)) = 0) by reflexivity.
  assert (H6 : arg st 0 <> arg st 1) by discriminate.
  destruct (identity_operand_becomes_move 64 std_op_defs (ctx32 8 1)
              std_op_defs_arity_ok st _ H1 H2 H3 H4 H5)
    as (st' & E & _ & _ & Hm).
  destruct (Hm H6) as (Ho & A0 & A1 & _).
  exists st'. repeat split; assumption.
Defined.

Lemma deleted_operation_leaves_no_trace_witness :
  let st := before copy_table INDEX_op_mov_i32 [2; 1] in
  exists st',
    step 64 std_op_defs (ctx32 8 1) st = Ok st'
    /\ temps st' = temps st /\ gen_args st' = gen_args st.
Proof.
  intros st.
  destruct (step 64 std_op_defs (ctx32 8 1) st) as [st'|] eqn:E.
  - exists st'. split; [reflexivity|].
    assert (H1 : gen_opc_buf st (op_index st) <> INDEX_op_nop) by discriminate.
    assert (H2 : gen_opc_buf st' (op_index st) = INDEX_op_nop).
    { assert (E' := E). vm_compute in E'. injection E' as <-. reflexivity. }
    exact (deleted_operation_leaves_no_trace 64 std_op_defs (ctx32 8 1)
             st st' E H1 H2).
  - vm_compute in E. discriminate E.
Defined.

Lemma block_end_forgets_everything_witness :
  let st := before const_table INDEX_op_br [9] in
  exists st',
    step 64 std_op_defs (ctx32 8 1) st = Ok st'
    /\ temps st' 1 = zero_info /\ temps st' 2 = zero_info.
Proof.
  intros st.
  destruct (step 64 std_op_defs (ctx32 8 1) st) as [st'|] eqn:E.
  - exists st'. split; [reflexivity|].
    assert (H1 : forall w, bb_end std_op_defs (INDEX_op_mov w) = false)
      by (intros []; reflexivity).
    assert (H2 : forall w, bb_end std_op_defs (INDEX_op_movi w) = false)
      by (intros []; reflexivity).
    assert (H3 : bb_end std_op_defs INDEX_op_nop = false) by reflexivity.
    assert (H4 : bb_end std_op_defs INDEX_op_setcond_i32 = false) by reflexivity.
    assert (H5 : bb_end std_op_defs INDEX_op_call = false) by reflexivity.
    assert (H6 : bb_end std_op_defs (gen_opc_buf st' (op_index st)) = true).
    { assert (E' := E). vm_compute in E'. injection E' as <-. reflexivity. }
    pose proof (block_end_forgets_everything 64 std_op_defs (ctx32 8 1) st st'
                  H1 H2 H3 H4 H5 E H6) as F.
    split; apply F; cbn; lia.
  - vm_compute in E. discriminate E.
Defined.


Lemma tcg_optimize_leaves_the_rest_witness :
  let st := load [INDEX_op_movi_i32; INDEX_op_mov_i32; INDEX_op_other 0]
                 [1; 5; 2; 1; 99] in
  exists st',
    tcg_optimize 64 std_op_defs (ctx32 8 1) 2 st = Ok st'
    /\ opparam st' 4%nat = 99
    /\ gen_opc_buf st' 2%nat = INDEX_op_other 0.
Proof.
  intros st.
  destruct (tcg_optimize 64 std_op_defs (ctx32 8 1) 2 st) as [st'|] eqn:E.
  - exists st'. split; [reflexivity|].
    destruct (tcg_optimize_leaves_the_rest 64 std_op_defs (ctx32 8 1)
                std_op_defs_arity_ok 2 st st' E) as (F1 & F2 & _).
    assert (Ha : args st' = 4%nat /\ op_index st' = 2%nat).
    { assert (E' := E). vm_compute in E'. injection E' as <-. split; reflexivity. }
    destruct Ha as (Ha & Hi).
    split.
    + apply (F1 4%nat). rewrite Ha. apply Nat.le_refl.
    + apply (F2 2%nat). rewrite Hi. apply Nat.le_refl.
  - vm_compute in E. discriminate E.
Defined.

Lemma tcg_optimize_ends_witness :
  tcg_optimize 64 std_op_defs (ctx32 8 1) 2
    (load [INDEX_op_mov_i32; INDEX_op_mov_i32] [1; 0; 2; 1])
  <> Err no_termination.
Proof.
  assert (H1 : nb_temps (ctx32 8 1) <= 65536) by (cbn; lia).
  assert (H2 : 0 <= nb_globals (ctx32 8 1) <= nb_temps (ctx32 8 1)) by (cbn; lia).
  assert (H3 : wf_stream std_op_defs (nb_temps (ctx32 8 1))
                 (gen_opc_buf (load [INDEX_op_mov_i32; INDEX_op_mov_i32] [1; 0; 2; 1]))
                 (opparam (load [INDEX_op_mov_i32; INDEX_op_mov_i32] [1; 0; 2; 1]))
                 2 0
                 (args (load [INDEX_op_mov_i32; INDEX_op_mov_i32] [1; 0; 2; 1]))
               = true) by (vm_compute; reflexivity).
  exact (tcg_optimize_ends 64 std_op_defs (ctx32 8 1) std_op_defs_arity_ok
           H1 H2 2 _ H3).
Defined.

Lemma gen_movi_keeps_agreement_witness :
  let st := before const_table INDEX_op_movi_i32 [1; 9] in
  agrees 8 (temps (tcg_opt_gen_movi st 0 1 9))
    (env_set (fun t => val (const_table t)) 1 9).
Proof.
  intros st.
  assert (H1 : 8 <= 65536) by lia.
  assert (H2 : 0 <= 1 < 8) by lia.
  exact (gen_movi_keeps_agreement 8 H1 st 0 1 9 (fun t => val (const_table t))
           (const_table_ring_ok 8) H2 (const_table_agrees 8)).
Defined.

Lemma gen_mov_keeps_agreement_witness :
  let st := before const_table INDEX_op_mov_i32 [4; 5] in
  exists st',
    tcg_opt_gen_mov (ctx32 8 1) st 4 5 = Ok st'
    /\ agrees 8 (temps st')
         (env_set (fun t => val (const_table t)) 4 (val (const_table 5))).
Proof.
  intros st.
  destruct (tcg_opt_gen_mov (ctx32 8 1) st 4 5) as [st'|] eqn:E.
  - exists st'. split; [reflexivity|].
    assert (H1 : 8 <= 65536) by lia.
    assert (H2 : 0 <= 4 < 8) by lia.
    assert (H3 : 0 <= 5 < 8) by lia.
    assert (H4 : 5 <> 4) by discriminate.
    exact (gen_mov_keeps_agreement 8 H1 (ctx32 8 1) st 4 5 st'
             (fun t => val (const_table t)) (const_table_ring_ok 8) H2 H3 H4
             (const_table_agrees 8) E).
  - vm_compute in E. discriminate E.
Defined.

Lemma flush_icache_range_covers_witness :
  exists l,
    flush_icache_range 64 13 40 = Ok l
    /\ l = [8; 16; 24; 32]
    /\ In (8 * (39 / 8)) l.
Proof.
  assert (H1 : 3 <= 64) by lia.
  assert (H2 : 0 <= 13 < 2 ^ 64) by lia.
  assert (H3 : 0 <= 40) by lia.
  assert (H4 : 40 + 7 < 2 ^ 64) by lia.
  destruct (flush_icache_range_covers 64 13 40 H1 H2 H3 H4) as (l & E & El & C).
  exists l. split; [exact E|]. split; [exact El|].
  apply C. lia.
Defined.

Lemma flush_icache_range_wraps_witness :
  flush_icache_range 32 16 4294967293 = Ok [].
Proof.
  assert (H1 : 3 <= 32) by lia.
  assert (H2 : 0 <= 16 < 2 ^ 32) by lia.
  assert (H3 : 2 ^ 32 - 8 < 4294967293 < 2 ^ 32) by lia.
  exact (flush_icache_range_wraps 32 16 4294967293 H1 H2 H3).
Defined.

Lemma gather_is_concatenation_witness :
  Win32.gather [[1; 2]; [3]] 0 [0; 0; 0; 9] = Ok [1; 2; 3; 9]
  /\ Win32.gather [[1; 2]; [3]] 0 [0; 0] = Err undefined_behaviour.
Proof.
  split.
  - assert (H : (length (concat [[1; 2]; [3]]) <= length [0; 0; 0; 9])%nat)
      by (cbn; lia).
    exact (proj1 (gather_is_concatenation [[1; 2]; [3]] [0; 0; 0; 9]) H).
  - assert (H : (length [0; 0] < length (concat [[1; 2]; [3]]))%nat)
      by (cbn; lia).
    exact (proj2 (gather_is_concatenation [[1; 2]; [3]] [0; 0]) H).
Defined.

Lemma submit_offset_round_trip_witness :
  exists aio' call r,
    Win32.win32_aio_submit 1 2 997 sample_aio (2 ^ 23 + 1) sample_qiov 2 2 sample_env
    = Ok (aio', call, r)
    /\ Win32.Offset (Win32.call_ov call)
       + 2 ^ 32 * Win32.OffsetHigh (Win32.call_ov call) = (2 ^ 23 + 1) * 512
    /\ Win32.call_len call = 2 * 512.
Proof.
  destruct (Win32.win32_aio_submit 1 2 997 sample_aio (2 ^ 23 + 1) sample_qiov
              2 2 sample_env) as [[[aio' call] r]|] eqn:E.
  - exists aio', call, r. split; [reflexivity|].
    destruct (submit_offset_round_trip 1 2 997 _ _ _ _ _ _ _ _ _ E)
      as (_ & _ & _ & Hp & Hl & _).
    split; [apply Hp; lia | exact Hl].
  - vm_compute in E. discriminate E.
Defined.

Lemma requests_in_flight_witness :
  exists aio' call acb,
    Win32.win32_aio_submit 1 2 997 sample_aio (2 ^ 23 + 1) sample_qiov 2 2 sample_env
    = Ok (aio', call, Some acb)
    /\ Win32.count aio' = Win32.count sample_aio + 1
    /\ Win32.win32_aio_flush_cb aio' = 1.
Proof.
  destruct (Win32.win32_aio_submit 1 2 997 sample_aio (2 ^ 23 + 1) sample_qiov
              2 2 sample_env) as [[[aio' call] [acb|]]|] eqn:E.
  - exists aio', call, acb. split; [reflexivity|].
    destruct (requests_in_flight 1 2 997 5 22 64 (fun q _ _ _ => q)
                _ _ _ _ _ _ _ _ _ E) as (_ & _ & Hs).
    destruct (Hs acb eq_refl) as (Hc & Hf & _).
    split; [exact Hc|]. apply Hf. cbn. lia.
  - vm_compute in E. discriminate E.
  - vm_compute in E. discriminate E.
Defined.
